(** * UFCNN: a verification development for [ufcnn.py]

    The module builds an "undecimated fully convolutional network" out of
    TensorFlow operations.  Tensors are embedded as a shape together with
    the row-major list of their entries; every TensorFlow operation the
    module calls is given its documented meaning on that representation,
    and the functions of [ufcnn.py] are transcribed on top of them. *)

From Stdlib Require Import List ZArith Lia Bool Arith.
From Stdlib Require Import QArith Reals Lra.
From Stdlib Require Import SpecFloat.
Import ListNotations.

Set Implicit Arguments.

Local Open Scope nat_scope.

(** ** Element types *)

(** The arithmetic a tensor element type offers to the operations used by
    the module.  Nothing is assumed about the operations: results that do
    not mention a law hold for every instance. *)
Class Dtype (A : Type) := {
  dzero : A;
  dadd : A -> A -> A;
  dsub : A -> A -> A;
  dmul : A -> A -> A;
  ddiv : A -> A -> A;
  dcount : nat -> A;
  drelu : A -> A
}.

(** What [tf.nn.softmax] needs on top of the arithmetic: the exponential,
    and the larger of two elements.  Binary32 has no instance of its own:
    what is proved of a float32 softmax is proved for every instance with
    the values that are stated there. *)
Class Exponential (A : Type) := { dexp : A -> A; dmax : A -> A -> A }.

(** ** Tensors *)

Record Tensor (A : Type) := mkTensor { shape : list nat; data : list A }.

Arguments mkTensor {A} _ _.
Arguments shape {A} _.
Arguments data {A} _.

Definition numel (s : list nat) : nat := fold_right Nat.mul 1 s.

Definition wf {A} (t : Tensor A) : Prop := length (data t) = numel (shape t).

(** Row-major position of an index in a tensor of shape [s]. *)
Fixpoint offset (s idx : list nat) : nat :=
  match s, idx with
  | _ :: s', i :: idx' => i * numel s' + offset s' idx'
  | _, _ => 0
  end.

(** The entries of the tensor of shape [s] whose entry at [idx] is [f idx]. *)
Fixpoint tabulate {A} (s : list nat) (f : list nat -> A) : list A :=
  match s with
  | [] => [f []]
  | n :: s' => flat_map (fun i => tabulate s' (fun idx => f (i :: idx))) (seq 0 n)
  end.

Definition build {A} (s : list nat) (f : list nat -> A) : Tensor A :=
  mkTensor s (tabulate s f).

Definition get {A} `{Dtype A} (t : Tensor A) (idx : list nat) : A :=
  nth (offset (shape t) idx) (data t) dzero.

(** An index is in range when it has the rank of the shape and every
    component is below the size of its axis. *)
Definition in_range (idx s : list nat) : Prop := Forall2 lt idx s.

Definition dsum {A} `{Dtype A} (l : list A) : A := fold_left dadd l dzero.

(** The largest of the elements of a list. *)
Definition dmaximum {A} `{Dtype A} `{Exponential A} (l : list A) : A :=
  match l with
  | [] => dzero
  | v :: l' => fold_left dmax l' v
  end.

(** *** Instances

    Integers serve for executable examples, real numbers for exact
    arithmetic, and IEEE 754 binary32 (the [tf.float32] of the
    placeholders) for the arithmetic the runtime really performs. *)

#[export] Instance Z_dtype : Dtype Z := {|
  dzero := 0%Z; dadd := Z.add; dsub := Z.sub; dmul := Z.mul; ddiv := Z.quot;
  dcount := Z.of_nat; drelu := Z.max 0 |}.

#[export] Instance R_dtype : Dtype R := {|
  dzero := 0%R; dadd := Rplus; dsub := Rminus; dmul := Rmult; ddiv := Rdiv;
  dcount := INR; drelu := Rmax 0 |}.

#[export] Instance R_exponential : Exponential R := {| dexp := exp; dmax := Rmax |}.

Definition float32 : Type := spec_float.

Definition f32_prec : Z := 24.
Definition f32_emax : Z := 128.

Definition f32_relu (x : float32) : float32 :=
  if SFltb x (S754_zero false) then S754_zero false else x.

#[export] Instance float32_dtype : Dtype float32 := {|
  dzero := S754_zero false;
  dadd := SFadd f32_prec f32_emax;
  dsub := SFsub f32_prec f32_emax;
  dmul := SFmul f32_prec f32_emax;
  ddiv := SFdiv f32_prec f32_emax;
  dcount := fun n => binary_normalize f32_prec f32_emax (Z.of_nat n) 0 false;
  drelu := f32_relu |}.

(** A float is finite when it is neither an infinity nor NaN. *)
Definition f32_finite (x : float32) : bool :=
  match x with
  | S754_zero _ | S754_finite _ _ _ => true
  | S754_infinity _ | S754_nan => false
  end.

(** ** Graph nodes

    Every call of a TensorFlow operation adds a node to the default graph:
    an operation with its attributes, and the tensor it outputs.  A
    computation in [Graph] either fails (the runtime raises) or yields a
    value together with the nodes it created, in creation order. *)

Inductive Op : Type :=
  | Pad (paddings : list (Z * Z))
  | Conv2D
  | AtrousConv2D (rate : nat)
  | Add
  | Relu
  | Concat (concat_dim : nat)
  | ExpandDims (dim : nat)
  | Squeeze (squeeze_dims : list nat).

Record Node (A : Type) := mkNode { op : Op; out : Tensor A }.

Arguments mkNode {A} _ _.
Arguments op {A} _.
Arguments out {A} _.

Definition Graph (A X : Type) : Type := option (X * list (Node A)).

Definition ret {A X} (x : X) : Graph A X := Some (x, []).

Definition bind {A X Y} (m : Graph A X) (f : X -> Graph A Y) : Graph A Y :=
  match m with
  | Some (x, l) =>
      match f x with
      | Some (y, l') => Some (y, l ++ l')
      | None => None
      end
  | None => None
  end.

Definition node {A} (o : Op) (r : option (Tensor A)) : Graph A (Tensor A) :=
  match r with
  | Some t => Some (t, [mkNode o t])
  | None => None
  end.

Definition value {A X} (m : Graph A X) : option X := option_map fst m.

Definition nodes {A X} (m : Graph A X) : list (Node A) :=
  match m with
  | Some (_, l) => l
  | None => []
  end.

Declare Scope graph_scope.
Delimit Scope graph_scope with graph.

Notation "x <- m ;; k" := (bind m (fun x => k))
  (at level 61, m at next level, right associativity) : graph_scope.
Notation "' p <- m ;; k" := (bind m (fun x => let p := x in k))
  (at level 61, p pattern, m at next level, right associativity) : graph_scope.

Definition obind {X Y} (m : option X) (f : X -> option Y) : option Y :=
  match m with
  | Some x => f x
  | None => None
  end.

Notation "'let?' x := m 'in' k" := (obind m (fun x => k))
  (at level 61, x name, m at next level, right associativity).

(** ** TensorFlow operations *)

Section Ops.
Context {A : Type} `{Dtype A}.

(** [tf.shape] *)
Definition tf_shape (x : Tensor A) : list nat := shape x.

(** Index into the unpadded tensor of an index of the padded one, when it
    does not fall in the padding. *)
Fixpoint unpad (s before idx : list nat) : option (list nat) :=
  match s, before, idx with
  | [], [], [] => Some []
  | n :: s', p :: before', i :: idx' =>
      if (p <=? i) && (i <? p + n)
      then option_map (cons (i - p)) (unpad s' before' idx')
      else None
  | _, _, _ => None
  end.

Fixpoint padded_shape (s : list nat) (paddings : list (Z * Z)) : list nat :=
  match s, paddings with
  | n :: s', (p, q) :: paddings' =>
      (Z.to_nat p + n + Z.to_nat q) :: padded_shape s' paddings'
  | _, _ => []
  end.

(** [tf.pad(x, paddings)] in constant mode: one [before, after] pair per
    axis, none of them negative. *)
Definition tf_pad (x : Tensor A) (paddings : list (Z * Z)) : option (Tensor A) :=
  if (length paddings =? length (shape x))
     && forallb (fun pq => (0 <=? fst pq)%Z && (0 <=? snd pq)%Z) paddings
  then
    let before := map (fun pq => Z.to_nat (fst pq)) paddings in
    Some (build (padded_shape (shape x) paddings)
            (fun idx => match unpad (shape x) before idx with
                        | Some src => get x src
                        | None => dzero
                        end))
  else None.

(** The products summed for the output entry [(b, i, j, k)] of a
    convolution whose filter taps are [rate] entries apart. *)
Definition conv_terms (x w : Tensor A) (rate fh fw cin b i j k : nat) : list A :=
  flat_map (fun di =>
    flat_map (fun dj =>
      map (fun q => dmul (get x [b; i + rate * di; j + rate * dj; q])
                         (get w [di; dj; q; k]))
          (seq 0 cin))
      (seq 0 fw))
    (seq 0 fh).

(** Convolution without padding and with unit strides of a
    [(batch, height, width, channels)] input with a
    [(height, width, in_channels, out_channels)] filter.  Empty sizes are
    treated as the formula gives them: without input channels every sum is
    empty, and a window one longer than the input leaves no output
    position.  Versions of the library differ on these; where a property
    says in which cases a result is returned, it is stated for non-empty
    sizes. *)
Definition valid_conv (rate : nat) (x w : Tensor A) : option (Tensor A) :=
  match shape x, shape w with
  | [nb; nh; nw; nc], [fh; fw; cin; cout] =>
      let eh := rate * (fh - 1) + 1 in
      let ew := rate * (fw - 1) + 1 in
      if (nc =? cin) && (1 <=? fh) && (1 <=? fw)
         && (eh <=? nh + 1) && (ew <=? nw + 1)
      then Some (build [nb; nh + 1 - eh; nw + 1 - ew; cout]
                   (fun idx => match idx with
                               | [b; i; j; k] =>
                                   dsum (conv_terms x w rate fh fw cin b i j k)
                               | _ => dzero
                               end))
      else None
  | _, _ => None
  end.

(** [tf.nn.conv2d(x, w, [1, 1, 1, 1], padding='VALID')] *)
Definition tf_nn_conv2d (x w : Tensor A) : option (Tensor A) :=
  valid_conv 1 x w.

(** [tf.nn.atrous_conv2d(x, w, rate, padding='VALID')] *)
Definition tf_nn_atrous_conv2d (x w : Tensor A) (rate : nat) : option (Tensor A) :=
  if 1 <=? rate then valid_conv rate x w else None.

(** Broadcasting, on shapes written last axis first. *)
Fixpoint broadcast_rev (s1 s2 : list nat) : option (list nat) :=
  match s1, s2 with
  | [], s | s, [] => Some s
  | a :: s1', b :: s2' =>
      match broadcast_rev s1' s2' with
      | Some r =>
          if a =? b then Some (a :: r)
          else if a =? 1 then Some (b :: r)
          else if b =? 1 then Some (a :: r)
          else None
      | None => None
      end
  end.

Definition broadcast_shape (s1 s2 : list nat) : option (list nat) :=
  option_map (@rev nat) (broadcast_rev (rev s1) (rev s2)).

Fixpoint clamp_index (s idx : list nat) : list nat :=
  match s, idx with
  | n :: s', i :: idx' => (if n =? 1 then 0 else i) :: clamp_index s' idx'
  | _, _ => []
  end.

(** Index into an operand of shape [s] of an index of the broadcast
    result. *)
Definition broadcast_index (s idx : list nat) : list nat :=
  clamp_index s (skipn (length idx - length s) idx).

Definition broadcast_op (op : A -> A -> A) (x y : Tensor A) : option (Tensor A) :=
  match broadcast_shape (shape x) (shape y) with
  | Some s =>
      Some (build s (fun idx => op (get x (broadcast_index (shape x) idx))
                                   (get y (broadcast_index (shape y) idx))))
  | None => None
  end.

(** [x + y] and [x - y] on tensors *)
Definition tf_add : Tensor A -> Tensor A -> option (Tensor A) := broadcast_op dadd.
Definition tf_sub : Tensor A -> Tensor A -> option (Tensor A) := broadcast_op dsub.

(** [tf.square] *)
Definition tf_square (x : Tensor A) : Tensor A :=
  mkTensor (shape x) (map (fun v => dmul v v) (data x)).

(** [tf.nn.relu] *)
Definition tf_nn_relu (x : Tensor A) : Tensor A :=
  mkTensor (shape x) (map drelu (data x)).

(** [tf.reduce_mean] over all axes: a scalar tensor. *)
Definition tf_reduce_mean (x : Tensor A) : Tensor A :=
  mkTensor [] [ddiv (dsum (data x)) (dcount (numel (shape x)))].

(** [tf.reduce_sum] over all axes: a scalar tensor. *)
Definition tf_reduce_sum (x : Tensor A) : Tensor A :=
  mkTensor [] [dsum (data x)].

Fixpoint shape_eqb (s1 s2 : list nat) : bool :=
  match s1, s2 with
  | [], [] => true
  | a :: s1', b :: s2' => (a =? b) && shape_eqb s1' s2'
  | _, _ => false
  end.

Fixpoint set_nth (n : nat) (l : list nat) (v : nat) : list nat :=
  match n, l with
  | _, [] => []
  | 0, _ :: l' => v :: l'
  | S n', a :: l' => a :: set_nth n' l' v
  end.

Definition concat2 (axis : nat) (a b : Tensor A) : option (Tensor A) :=
  let sa := shape a in
  let sb := shape b in
  if (axis <? length sa) && shape_eqb (set_nth axis sa 0) (set_nth axis sb 0)
  then
    let na := nth axis sa 0 in
    Some (build (set_nth axis sa (na + nth axis sb 0))
            (fun idx =>
               if nth axis idx 0 <? na then get a idx
               else get b (set_nth axis idx (nth axis idx 0 - na))))
  else None.

(** [tf.concat(concat_dim, values)], in the argument order the module
    uses. *)
Definition tf_concat (concat_dim : nat) (values : list (Tensor A)) : option (Tensor A) :=
  match values with
  | [] => None
  | v :: vs => fold_left (fun acc t => let? a := acc in concat2 concat_dim a t) vs (Some v)
  end.

(** [tf.expand_dims(x, dim)] for a non-negative [dim]. *)
Definition tf_expand_dims (x : Tensor A) (dim : nat) : option (Tensor A) :=
  if dim <=? length (shape x)
  then Some (mkTensor (firstn dim (shape x) ++ 1 :: skipn dim (shape x)) (data x))
  else None.

Definition drop_axes (dims s : list nat) : list nat :=
  map snd (filter (fun p => negb (existsb (Nat.eqb (fst p)) dims))
             (combine (seq 0 (length s)) s)).

(** [tf.squeeze(x, squeeze_dims)]: every listed axis must have size 1. *)
Definition tf_squeeze (x : Tensor A) (squeeze_dims : list nat) : option (Tensor A) :=
  if forallb (fun d => nth d (shape x) 0 =? 1) squeeze_dims
  then Some (mkTensor (drop_axes squeeze_dims (shape x)) (data x))
  else None.

(** [tf.reshape(x, sizes)]: at most one size may be [-1], and it is then
    inferred from the number of entries.  Sizes that are zero are left out
    of the product that divides it; when one is requested, the axes of
    [x] that are empty are left out of the number of entries as well, so
    that an empty tensor can be reshaped to [(-1, 0)]. *)
Definition tf_reshape (x : Tensor A) (sizes : list Z) : option (Tensor A) :=
  if existsb (fun z => z <? -1)%Z sizes then None
  else
    match count_occ Z.eq_dec sizes (-1)%Z with
    | 0 => if numel (map Z.to_nat sizes) =? numel (shape x)
           then Some (mkTensor (map Z.to_nat sizes) (data x))
           else None
    | 1 =>
        let sizes_has_zero := existsb (fun z => z =? 0)%Z sizes in
        let product := numel (map Z.to_nat (filter (fun z => 0 <? z)%Z sizes)) in
        let counted :=
          if sizes_has_zero then filter (fun n => negb (n =? 0)) (shape x)
          else shape x in
        let input_has_zero :=
          sizes_has_zero && existsb (fun n => n =? 0) (shape x) in
        let missing := numel counted / product in
        if input_has_zero || (product * missing =? numel counted)
        then
          let s := map (fun z => if (z =? -1)%Z then missing else Z.to_nat z) sizes in
          if numel s =? numel (shape x) then Some (mkTensor s (data x)) else None
        else None
    | _ => None
    end.

(** [tf.nn.softmax] on a [(rows, classes)] tensor: entry [(i, j)] is
    [exp x_ij / sum_j' exp x_ij'], computed as the library does, on the
    scores of the row minus the largest of them.  In exact arithmetic the
    shift changes nothing; in binary32 it keeps the exponentials from
    overflowing. *)
Definition tf_nn_softmax `{Exponential A} (logits : Tensor A) : option (Tensor A) :=
  match shape logits with
  | [n; c] =>
      Some (build [n; c]
              (fun idx => match idx with
                          | [i; j] =>
                              let m := dmaximum (map (fun j' => get logits [i; j']) (seq 0 c)) in
                              ddiv (dexp (dsub (get logits [i; j]) m))
                                (dsum (map (fun j' => dexp (dsub (get logits [i; j']) m))
                                         (seq 0 c)))
                          | _ => dzero
                          end))
  | _ => None
  end.
End Ops.

(** Placeholders: a shape in which [None] leaves an axis free. *)
Definition Placeholder : Type := list (option nat).

Definition tf_placeholder (shape : list (option nat)) : Placeholder := shape.

Fixpoint feedable (p : Placeholder) (s : list nat) : bool :=
  match p, s with
  | [], [] => true
  | None :: p', _ :: s' => feedable p' s'
  | Some m :: p', n :: s' => (m =? n) && feedable p' s'
  | _, _ => false
  end.

(** The random source of the runtime: the entry at a position of the
    truncated normal draw made for the variable with the given number, of
    the given shape, standard deviation and seed. *)
Class Sampler (A : Type) := {
  tf_truncated_normal : nat -> list nat -> Q -> option Z -> nat -> A
}.

(** ** The module [ufcnn.py] *)

Section Ufcnn.
Context {A : Type} `{Dtype A} `{Sampler A}.

Local Open Scope graph_scope.

(** [init_normal]: a fresh variable holding a truncated normal draw.  The
    counter is the number of variables the graph already has. *)
Definition init_normal (shape : list nat) (seed : option Z) (g : nat) : Tensor A * nat :=
  let initial :=
    mkTensor shape (map (tf_truncated_normal g shape (1 # 10)%Q seed) (seq 0 (numel shape))) in
  (initial, S g).

(** [conv] *)
Definition conv (x w b : Tensor A) (filter_length dilation : nat) : Graph A (Tensor A) :=
  let padding :=
    [(0, 0); (0, 0); (Z.of_nat dilation * (Z.of_nat filter_length - 1), 0); (0, 0)]%Z in
  x <- node (Pad padding) (tf_pad x padding) ;;
  x <- (if dilation =? 1
        then node Conv2D (tf_nn_conv2d x w)
        else node (AtrousConv2D dilation) (tf_nn_atrous_conv2d x w dilation)) ;;
  node Add (tf_add x b).

(** [mse_loss] *)
Definition mse_loss (y_hat y : Tensor A) : option (Tensor A) :=
  let? d := tf_sub y_hat y in
  Some (tf_reduce_mean (tf_square d)).

(** The variables [construct_ufcnn] creates in its first loop. *)
Record Variables := mkVariables {
  H_weights : list (Tensor A);
  H_biases : list (Tensor A);
  G_weights : list (Tensor A);
  G_biases : list (Tensor A);
  next_variable : nat
}.

(** One iteration of [for level in range(n_levels)]. *)
Definition create_level (n_inputs n_levels n_filters filter_length : nat)
    (random_seed : option Z) (v : Variables) (level : nat) : Variables :=
  let g := next_variable v in
  let '(hw, g) :=
    if level =? 0
    then init_normal [1; filter_length; n_inputs; n_filters] random_seed g
    else init_normal [1; filter_length; n_filters; n_filters] random_seed g in
  let '(hb, g) := init_normal [n_filters] random_seed g in
  let '(gw, g) :=
    if level =? n_levels - 1
    then init_normal [1; filter_length; n_filters; n_filters] random_seed g
    else init_normal [1; filter_length; 2 * n_filters; n_filters] random_seed g in
  let '(gb, g) := init_normal [n_filters] random_seed g in
  mkVariables (H_weights v ++ [hw]) (H_biases v ++ [hb])
              (G_weights v ++ [gw]) (G_biases v ++ [gb]) g.

Definition create_variables (n_inputs n_levels n_filters filter_length : nat)
    (random_seed : option Z) : Variables :=
  fold_left (create_level n_inputs n_levels n_filters filter_length random_seed)
            (seq 0 n_levels) (mkVariables [] [] [] [] 0).

(** [for w, b in zip(H_weights, H_biases)]: the state is
    [(x, H_outputs, dilation)]. *)
Fixpoint analysis (filter_length : nat) (wb : list (Tensor A * Tensor A))
    (st : Tensor A * list (Tensor A) * nat)
    : Graph A (Tensor A * list (Tensor A) * nat) :=
  match wb with
  | [] => ret st
  | (w, b) :: rest =>
      let '(x, H_outputs, dilation) := st in
      c <- conv x w b filter_length dilation ;;
      x <- node Relu (Some (tf_nn_relu c)) ;;
      analysis filter_length rest (x, H_outputs ++ [x], dilation * 2)
  end.

(** [for x, w, b in zip(reversed(H_outputs), reversed(G_weights),
    reversed(G_biases))]: the state is [(x, x_prev, dilation)]. *)
Fixpoint synthesis (filter_length : nat)
    (xwb : list (Tensor A * (Tensor A * Tensor A)))
    (st : Tensor A * option (Tensor A) * nat)
    : Graph A (Tensor A * option (Tensor A) * nat) :=
  match xwb with
  | [] => ret st
  | (x, (w, b)) :: rest =>
      let '(_, x_prev, dilation) := st in
      x <- match x_prev with
           | Some p => node (Concat 3) (tf_concat 3 [p; x])
           | None => ret x
           end ;;
      c <- conv x w b filter_length dilation ;;
      x <- node Relu (Some (tf_nn_relu c)) ;;
      synthesis filter_length rest (x, Some x, dilation / 2)
  end.

(** What [construct_ufcnn] returns.  The prediction [y_hat] is a node of
    the graph: feeding the input placeholder evaluates it. *)
Record Ufcnn := mkUfcnn {
  x_in : Placeholder;
  y_hat : Tensor A -> Graph A (Tensor A);
  y : Placeholder;
  weights : list (Tensor A);
  biases : list (Tensor A)
}.

(** [construct_ufcnn] *)
Definition construct_ufcnn (n_inputs n_outputs n_levels n_filters filter_length : nat)
    (random_seed : option Z) : Ufcnn :=
  let v := create_variables n_inputs n_levels n_filters filter_length random_seed in
  let x_in := tf_placeholder [None; None; Some n_inputs] in
  let '(C_weights, g) :=
    init_normal [1; filter_length; n_filters; n_outputs] random_seed (next_variable v) in
  let '(C_biases, g) := init_normal [n_outputs] random_seed g in
  let y_hat := fun feed : Tensor A =>
    if feedable x_in (shape feed) then
      x <- node (ExpandDims 1) (tf_expand_dims feed 1) ;;
      ' (x, H_outputs, dilation) <-
          analysis filter_length (combine (H_weights v) (H_biases v)) (x, [], 1) ;;
      ' (x, x_prev, dilation) <-
          synthesis filter_length
            (combine (rev H_outputs) (combine (rev (G_weights v)) (rev (G_biases v))))
            (x, None, dilation) ;;
      y_hat <- conv x C_weights C_biases filter_length 1 ;;
      node (Squeeze [1]) (tf_squeeze y_hat [1])
    else None in
  let y := tf_placeholder [None; None; Some n_outputs] in
  mkUfcnn x_in y_hat y
    (H_weights v ++ G_weights v ++ [C_weights])
    (H_biases v ++ G_biases v ++ [C_biases]).
End Ufcnn.

(** [softmax] *)
Definition softmax {A} `{Dtype A} `{Exponential A} (y_hat : Tensor A) : option (Tensor A) :=
  let shape := tf_shape y_hat in
  match nth_error shape 2 with
  | Some n_classes =>
      let? y_hat := tf_reshape y_hat [(-1)%Z; Z.of_nat n_classes] in
      let? sf := tf_nn_softmax y_hat in
      tf_reshape sf (map Z.of_nat shape)
  | None => None
  end.

(** [tf.nn.sparse_softmax_cross_entropy_with_logits] on [(rows, classes)]
    logits and one integer label per row, in exact arithmetic: entry [i]
    is the logarithm of the sum of the exponentials of row [i], minus the
    score of the row at its label, both taken, as the library does, on
    the scores minus the largest of the row.  The operation does not go
    through [tf.nn.softmax].  A label that is negative or not below the
    number of classes is outside the contract of the operation, and what
    becomes of it differs between versions and devices of the library; no
    result is given for it. *)
Definition tf_nn_sparse_softmax_cross_entropy_with_logits
    (logits : Tensor R) (labels : Tensor Z) : option (Tensor R) :=
  match shape logits, shape labels with
  | [n; c], [m] =>
      if (n =? m)
         && forallb (fun i => (0 <=? get labels [i])%Z
                              && (get labels [i] <? Z.of_nat c)%Z) (seq 0 n)
      then Some (build [n]
                   (fun idx =>
                      match idx with
                      | [i] =>
                          let m := dmaximum (map (fun j => get logits [i; j]) (seq 0 c)) in
                          (ln (dsum (map (fun j => exp (get logits [i; j] - m)) (seq 0 c)))
                           - (get logits [i; Z.to_nat (get labels [i])] - m))%R
                      | _ => 0%R
                      end))
      else None
  | _, _ => None
  end.

(** [cross_entropy] *)
Definition cross_entropy (y_hat : Tensor R) (labels : Tensor Z) : option (Tensor R) :=
  let shape := tf_shape y_hat in
  match nth_error shape 2 with
  | Some n_classes =>
      let? y_hat := tf_reshape y_hat [(-1)%Z; Z.of_nat n_classes] in
      let? labels := tf_reshape labels [(-1)%Z] in
      let? ce := tf_nn_sparse_softmax_cross_entropy_with_logits y_hat labels in
      Some (tf_reduce_sum ce)
  | None => None
  end.

(** * Vocabulary of the properties *)

(** The paddings [conv] passes to [tf.pad]: [p] entries before the time
    axis and nothing anywhere else. *)
Definition time_padding (p : Z) : list (Z * Z) :=
  [(0, 0); (0, 0); (p, 0); (0, 0)]%Z.

Section Agreement.
Context {A : Type} `{Dtype A}.

(** Two activation tensors of one shape agree up to time [t] when their
    entries at every time position [j <= t] are equal. *)
Definition agree_upto (t : nat) (a b : Tensor A) : Prop :=
  shape a = shape b /\ wf a /\ wf b /\
  forall bi i j k, in_range [bi; i; j; k] (shape a) -> j <= t ->
    get a [bi; i; j; k] = get b [bi; i; j; k].

(** The same for [(batch, time, channels)] tensors. *)
Definition agree_upto3 (t : nat) (a b : Tensor A) : Prop :=
  shape a = shape b /\ wf a /\ wf b /\
  forall bi j k, in_range [bi; j; k] (shape a) -> j <= t ->
    get a [bi; j; k] = get b [bi; j; k].

(** The mean over all positions of the squared difference of the entries
    of two tensors of one shape at that position. *)
Definition mean_squared_difference (a b : Tensor A) : A :=
  ddiv (dsum (tabulate (shape a)
                (fun idx => let d := dsub (get a idx) (get b idx) in dmul d d)))
       (dcount (numel (shape a))).
End Agreement.

(** Input channels of the analysis and synthesis filters of a level. *)
Definition H_channels (n_inputs n_filters level : nat) : nat :=
  if level =? 0 then n_inputs else n_filters.

Definition G_channels (n_levels n_filters level : nat) : nat :=
  if level =? n_levels - 1 then n_filters else 2 * n_filters.

(** ** The graph of the network

    The operation and the output shape of every node, in creation order. *)

Definition skel {A} (nd : Node A) : Op * list nat := (op nd, shape (out nd)).

Definition conv_op (d : nat) : Op := if d =? 1 then Conv2D else AtrousConv2D d.

Section Skeleton.
Variables nb nw fl nf : nat.

Definition conv_skel (d cin cout : nat) : list (Op * list nat) :=
  [(Pad (time_padding (Z.of_nat d * (Z.of_nat fl - 1))), [nb; 1; d * (fl - 1) + nw; cin]);
   (conv_op d, [nb; 1; nw; cout]);
   (Add, [nb; 1; nw; cout])].

Fixpoint analysis_skel (cins : list nat) (d : nat) : list (Op * list nat) :=
  match cins with
  | [] => []
  | c :: rest =>
      conv_skel d c nf ++ (Relu, [nb; 1; nw; nf]) :: analysis_skel rest (d * 2)
  end.

Fixpoint synthesis_skel (first : bool) (k d : nat) : list (Op * list nat) :=
  match k with
  | 0 => []
  | S k' =>
      (if first then [] else [(Concat 3, [nb; 1; nw; 2 * nf])])
      ++ conv_skel d (if first then nf else 2 * nf) nf
      ++ (Relu, [nb; 1; nw; nf]) :: synthesis_skel false k' (d / 2)
  end.

Definition ufcnn_skel (n_inputs n_outputs n_levels : nat) : list (Op * list nat) :=
  (ExpandDims 1, [nb; 1; nw; n_inputs])
  :: analysis_skel (map (H_channels n_inputs nf) (seq 0 n_levels)) 1
  ++ synthesis_skel true n_levels (2 ^ n_levels)
  ++ conv_skel 1 nf n_outputs
  ++ [(Squeeze [1], [nb; nw; n_outputs])].

(** Each input of a chain of layers has the channels the previous layer
    outputs. *)
Fixpoint feeds (c : nat) (cins : list nat) : Prop :=
  match cins with
  | [] => True
  | c' :: rest => c' = c /\ feeds nf rest
  end.
End Skeleton.

Section Stages.
Context {A : Type} `{Dtype A}.
Variables nb nw fl nf : nat.

(** The inputs and filters of the synthesis stages fit together: the
    first stage, which has no previous output, takes [nf] channels and
    every later one [2 * nf]. *)
Fixpoint stages_ok (first : bool) (xwb : list (Tensor A * (Tensor A * Tensor A))) : Prop :=
  match xwb with
  | [] => True
  | (x, (w, b)) :: rest =>
      shape x = [nb; 1; nw; nf] /\
      shape w = [1; fl; (if first then nf else 2 * nf); nf] /\
      shape b = [nf] /\ stages_ok false rest
  end.

(** Filter shapes of the synthesis stages in the order they run. *)
Fixpoint stage_filters (first : bool) (k : nat) : list (list nat) :=
  match k with
  | 0 => []
  | S k' => [1; fl; (if first then nf else 2 * nf); nf] :: stage_filters false k'
  end.
End Stages.

Definition is_none {X} (o : option X) : bool :=
  match o with None => true | Some _ => false end.

Section Relations.
Context {A : Type} `{Dtype A}.
Variables (t fl : nat).

(** A filter of length [fl] and height 1 with a bias for its outputs. *)
Definition layer_shaped (wb : Tensor A * Tensor A) : Prop :=
  exists cin cout, shape (fst wb) = [1; fl; cin; cout] /\ shape (snd wb) = [cout].

Definition stage_rel (a b : Tensor A * (Tensor A * Tensor A)) : Prop :=
  agree_upto t (fst a) (fst b) /\ snd a = snd b /\ layer_shaped (snd a).

Definition prev_rel (p1 p2 : option (Tensor A)) : Prop :=
  match p1, p2 with
  | Some a, Some b => agree_upto t a b /\ length (shape a) = 4
  | None, None => True
  | _, _ => False
  end.
End Relations.

(** ** What the graph shows *)

(** The dilation of a convolution node. *)
Definition op_rate (o : Op) : list nat :=
  match o with
  | Conv2D => [1]
  | AtrousConv2D rate => [rate]
  | _ => []
  end.

(** The dilations of the convolutions of a graph, in creation order. *)
Definition conv_rates {A} (ns : list (Node A)) : list nat :=
  flat_map (fun nd => op_rate (op nd)) ns.



(** A [(batch, 1, time, channels)] shape. *)
Definition height_one (s : list nat) : Prop :=
  exists nb nw nc, s = [nb; 1; nw; nc].

(** A padding node leaves the height axis alone. *)
Definition no_height_padding (o : Op) : Prop :=
  match o with
  | Pad paddings => nth_error paddings 1 = Some (0, 0)%Z
  | _ => True
  end.

Definition skel_rates (l : list (Op * list nat)) : list nat :=
  flat_map (fun e => op_rate (fst e)) l.


(** The logits of a [(batch_size, n_samples, n_classes)] tensor seen as
    [batch_size * n_samples] rows. *)
Definition flattened (y : Tensor R) (batch_size n_samples n_classes : nat) : Tensor R :=
  mkTensor [batch_size * n_samples; n_classes] (data y).

(** ** The causal convolution in closed form *)

Section ClosedForm.
Context {A : Type} `{Dtype A}.

(** The products a causal convolution with dilation [d] sums for the output
    entry [(b, i, j, k)], read off the unpadded input: tap [dj] of the
    [fl] taps reads time [j - d * (fl - 1 - dj)], and zero before the
    start of the series. *)
Definition causal_terms (x w : Tensor A) (d fl cin b i j k : nat) : list A :=
  flat_map (fun dj =>
    map (fun q =>
           dmul (if j + d * dj <? d * (fl - 1) then dzero
                 else get x [b; i; j + d * dj - d * (fl - 1); q])
                (get w [0; dj; q; k]))
        (seq 0 cin))
    (seq 0 fl).
End ClosedForm.

(** ** What an output depends on *)

Section Dependence.
Context {A : Type} `{Dtype A}.

(** Two tensors of one shape agree on [P] when their entries at every
    batch index and time that satisfy [P] are equal. *)
Definition agree_on (P : nat -> nat -> Prop) (a b : Tensor A) : Prop :=
  shape a = shape b /\ wf a /\ wf b /\
  forall bi i j k, in_range [bi; i; j; k] (shape a) -> P bi j ->
    get a [bi; i; j; k] = get b [bi; i; j; k].

(** The same for [(batch, time, channels)] tensors. *)
Definition agree_on3 (P : nat -> nat -> Prop) (a b : Tensor A) : Prop :=
  shape a = shape b /\ wf a /\ wf b /\
  forall bi j k, in_range [bi; j; k] (shape a) -> P bi j ->
    get a [bi; j; k] = get b [bi; j; k].

(** The stages of the synthesis loop and its previous output, related
    in the same way. *)
Definition stage_rel_on (P : nat -> nat -> Prop) (fl : nat)
    (a b : Tensor A * (Tensor A * Tensor A)) : Prop :=
  agree_on P (fst a) (fst b) /\ snd a = snd b /\ layer_shaped fl (snd a).

Definition prev_rel_on (P : nat -> nat -> Prop) (p1 p2 : option (Tensor A)) : Prop :=
  match p1, p2 with
  | Some a, Some b => agree_on P a b /\ length (shape a) = 4
  | None, None => True
  | _, _ => False
  end.

(** Two tensors of equal batch, height and channel sizes agree with a
    delay of [s] from time [lo] to time [t] when each entry of the first
    at such a time [j] is the entry of the second at time [j + s]. *)
Definition delayed (s lo t : nat) (a b : Tensor A) : Prop :=
  exists nb nh wa wb nc,
    shape a = [nb; nh; wa; nc] /\ shape b = [nb; nh; wb; nc] /\ wf a /\ wf b /\
    forall bi i j k, bi < nb -> i < nh -> k < nc ->
      lo <= j -> j <= t -> j < wa -> j + s < wb ->
      get a [bi; i; j; k] = get b [bi; i; j + s; k].

(** The same for [(batch, time, channels)] tensors. *)
Definition delayed3 (s lo t : nat) (a b : Tensor A) : Prop :=
  exists nb wa wb nc,
    shape a = [nb; wa; nc] /\ shape b = [nb; wb; nc] /\ wf a /\ wf b /\
    forall bi j k, bi < nb -> k < nc ->
      lo <= j -> j <= t -> j < wa -> j + s < wb ->
      get a [bi; j; k] = get b [bi; j + s; k].

Definition stage_rel_delayed (s lo t fl : nat)
    (a b : Tensor A * (Tensor A * Tensor A)) : Prop :=
  delayed s lo t (fst a) (fst b) /\ snd a = snd b /\ layer_shaped fl (snd a).

Definition prev_rel_delayed (s lo t : nat) (p1 p2 : option (Tensor A)) : Prop :=
  match p1, p2 with
  | Some a, Some b => delayed s lo t a b
  | None, None => True
  | _, _ => False
  end.
End Dependence.

(** The times [j <= t] of batch element [b0] whose [m] predecessors
    [j - m, ..., j] all lie at or after [s]; the subtraction stops at 0,
    the start of the series, before which there is only padding. *)
Definition window (b0 s t m : nat) (bi j : nat) : Prop :=
  bi = b0 /\ s <= j - m /\ j <= t.

(** How far back the layers of the two loops reach: each layer adds
    [dilation * (filter_length - 1)] time steps. *)
Fixpoint analysis_reach (fl k d : nat) : nat :=
  match k with
  | 0 => 0
  | S k' => d * (fl - 1) + analysis_reach fl k' (d * 2)
  end.

Fixpoint synthesis_reach (fl k d : nat) : nat :=
  match k with
  | 0 => 0
  | S k' => d * (fl - 1) + synthesis_reach fl k' (d / 2)
  end.

(** ** A small network

    One input series, one output series, filters of length 2 over the
    integers, and a sampler that draws small positive weights. *)

#[export] Instance example_sampler : Sampler Z := {|
  tf_truncated_normal := fun g _ _ _ i => Z.of_nat (1 + (g + i) mod 3)
|}.

Definition example_net (n_levels : nat) : Ufcnn (A := Z) :=
  construct_ufcnn 1 1 n_levels 2 2 (Some 0%Z).

Definition example_x : Tensor Z := mkTensor [1; 3; 1] [1; 2; 3]%Z.
Definition example_x' : Tensor Z := mkTensor [1; 3; 1] [1; 2; 7]%Z.

Definition example_y : Tensor Z :=
  Eval vm_compute in
    match value (y_hat (example_net 1) example_x) with
    | Some y => y
    | None => mkTensor [] []
    end.

Definition example_activation : Tensor Z := mkTensor [1; 1; 4; 1] [1; 2; 3; 4]%Z.
Definition example_filter : Tensor Z := mkTensor [1; 3; 1; 1] [1; 10; 100]%Z.
Definition example_bias : Tensor Z := mkTensor [1] [5]%Z.

Definition example_logits : Tensor R := mkTensor [1; 1; 2] [0; 0]%R.




Definition example_floats : Tensor float32 :=
  mkTensor [3] [S754_finite false 12582912 (-23); S754_zero true;
                S754_finite true 8388608 (-22)].

(** A longer series and one that differs from it at time 0 only; a batch
    of two series and one that differs from it in the second series
    only. *)
Definition example_series : Tensor Z := mkTensor [1; 7; 1] [1; 2; 3; 4; 5; 6; 7]%Z.
Definition example_series' : Tensor Z := mkTensor [1; 7; 1] [9; 2; 3; 4; 5; 6; 7]%Z.

Definition example_series_y : Tensor Z :=
  Eval vm_compute in
    match value (y_hat (example_net 1) example_series) with
    | Some y => y
    | None => mkTensor [] []
    end.

(** The longer series two time steps later, after other values. *)
Definition example_delayed : Tensor Z :=
  mkTensor [1; 9; 1] [8; 9; 1; 2; 3; 4; 5; 6; 7]%Z.

Definition example_batch : Tensor Z := mkTensor [2; 3; 1] [1; 2; 3; 4; 5; 6]%Z.
Definition example_batch' : Tensor Z := mkTensor [2; 3; 1] [1; 2; 3; 9; 9; 9]%Z.

Definition example_batch_y : Tensor Z :=
  Eval vm_compute in
    match value (y_hat (example_net 1) example_batch) with
    | Some y => y
    | None => mkTensor [] []
    end.

Definition example_labels : Tensor Z := mkTensor [1; 1] [1]%Z.

Definition example_prediction : Tensor R := mkTensor [1; 2; 2] [1; 2; 3; 4]%R.
Definition example_target : Tensor R := mkTensor [1; 2; 2] [1; 2; 3; 5]%R.
Definition example_target1 : Tensor R := mkTensor [1; 2; 1] [1; 3]%R.

#[export] Instance example_sampler_R : Sampler R := {|
  tf_truncated_normal := fun g _ _ _ i => INR (1 + (g + i) mod 3)
|}.

Definition example_feed : Tensor R := mkTensor [1; 1; 1] [1]%R.
Definition example_feed_target : Tensor R := mkTensor [1; 1; 2] [0; 1]%R.
Definition example_scores : Tensor R := mkTensor [1; 2; 2] [0; 0; 1; 2]%R.
Definition example_scores' : Tensor R := mkTensor [1; 2; 2] [0; 0; 5; 6]%R.

Definition example_floats' : Tensor float32 :=
  mkTensor [3] [S754_finite false 8388608 (-23); S754_infinity true;
                S754_finite true 12582912 (-22)].

(** * Properties *)

(** *** Row-major layout *)

Lemma length_tabulate {A} (s : list nat) (f : list nat -> A) :
  length (tabulate s f) = numel s.
Proof.
  revert f; induction s as [|n s IH]; intros f; simpl; [reflexivity|].
  generalize 0 at 1.
  induction n as [|n IHn]; intros k; simpl; [reflexivity|].
  rewrite length_app, IH, IHn; reflexivity.
Qed.

Lemma wf_build {A} (s : list nat) (f : list nat -> A) : wf (build s f).
Proof. apply length_tabulate. Qed.

Lemma offset_lt (s idx : list nat) : in_range idx s -> offset s idx < numel s.
Proof.
  intros Hr; induction Hr as [|i n idx s Hi _ IH]; simpl; [lia|].
  nia.
Qed.

Lemma nth_flat_map_seq {A} (g : nat -> list A) (m : nat) (d : A) :
  (forall a, length (g a) = m) ->
  forall n s a r, a < n -> r < m ->
  nth (a * m + r) (flat_map g (seq s n)) d = nth r (g (s + a)) d.
Proof.
  intros Hg; induction n as [|n IH]; intros s a r Ha Hr; [lia|].
  simpl. destruct a as [|a].
  - rewrite app_nth1 by (rewrite Hg; simpl; lia).
    simpl; rewrite Nat.add_0_r; reflexivity.
  - rewrite app_nth2 by (rewrite Hg; simpl; lia).
    rewrite Hg.
    replace (S a * m + r - m) with (a * m + r) by (simpl; lia).
    rewrite IH by lia. f_equal; f_equal; lia.
Qed.

Lemma nth_tabulate {A} (s : list nat) :
  forall (f : list nat -> A) idx d,
  in_range idx s -> nth (offset s idx) (tabulate s f) d = f idx.
Proof.
  induction s as [|n s IH]; intros f idx d Hr; inversion Hr; subst; simpl.
  - reflexivity.
  - rewrite nth_flat_map_seq with (m := numel s).
    + simpl. apply (IH (fun idx => f (x :: idx))); assumption.
    + intros a; apply length_tabulate.
    + assumption.
    + apply offset_lt; assumption.
Qed.

Lemma get_build {A} `{Dtype A} (s : list nat) (f : list nat -> A) idx :
  in_range idx s -> get (build s f) idx = f idx.
Proof. intros Hr; unfold get; simpl; apply nth_tabulate; assumption. Qed.

Lemma in_range4 b i j k nb nh nw nc :
  in_range [b; i; j; k] [nb; nh; nw; nc] <-> b < nb /\ i < nh /\ j < nw /\ k < nc.
Proof.
  unfold in_range; split.
  - intros Hr. inversion Hr as [|? ? ? ? ? Hr1]; subst.
    inversion Hr1 as [|? ? ? ? ? Hr2]; subst.
    inversion Hr2 as [|? ? ? ? ? Hr3]; subst.
    inversion Hr3; subst. tauto.
  - intros (?&?&?&?). repeat constructor; assumption.
Qed.

Lemma in_range3 b j k nb nw nc :
  in_range [b; j; k] [nb; nw; nc] <-> b < nb /\ j < nw /\ k < nc.
Proof.
  unfold in_range; split.
  - intros Hr. inversion Hr as [|? ? ? ? ? Hr1]; subst.
    inversion Hr1 as [|? ? ? ? ? Hr2]; subst.
    inversion Hr2; subst. tauto.
  - intros (?&?&?). repeat constructor; assumption.
Qed.

Lemma length4_inv (s : list nat) :
  length s = 4 -> exists a b c d, s = [a; b; c; d].
Proof.
  destruct s as [|a [|b [|c [|d [|e s]]]]]; simpl; intros Hl; try discriminate.
  exists a, b, c, d; reflexivity.
Qed.

(** ** The operations at the shapes the module uses *)

Section OpFacts.
Context {A : Type} `{Dtype A}.

Lemma get_build4 nb nh nw nc (f : list nat -> A) b i j k :
  b < nb -> i < nh -> j < nw -> k < nc ->
  get (build [nb; nh; nw; nc] f) [b; i; j; k] = f [b; i; j; k].
Proof. intros; apply get_build, in_range4; tauto. Qed.

Lemma get_in_data (t : Tensor A) idx :
  wf t -> in_range idx (shape t) -> offset (shape t) idx < length (data t).
Proof. intros Hw Hr; rewrite Hw; apply offset_lt; assumption. Qed.

(** *** Padding of the time axis *)

Lemma tf_pad_time_inv (x xp : Tensor A) (p : Z) :
  tf_pad x (time_padding p) = Some xp ->
  exists nb nh nw nc,
    shape x = [nb; nh; nw; nc] /\ (0 <= p)%Z /\
    shape xp = [nb; nh; Z.to_nat p + nw; nc] /\ wf xp /\
    forall b i j k, b < nb -> i < nh -> j < Z.to_nat p + nw -> k < nc ->
      get xp [b; i; j; k]
      = if j <? Z.to_nat p then dzero else get x [b; i; j - Z.to_nat p; k].
Proof.
  unfold tf_pad, time_padding. simpl length.
  destruct (4 =? length (shape x)) eqn:Hlen; [|discriminate].
  apply Nat.eqb_eq in Hlen. symmetry in Hlen.
  destruct (length4_inv _ Hlen) as (nb & nh & nw & nc & Hs).
  simpl forallb. rewrite Bool.andb_true_r.
  destruct (0 <=? p)%Z eqn:Hp; simpl; [|discriminate].
  apply Z.leb_le in Hp.
  intros Heq; injection Heq as <-.
  exists nb, nh, nw, nc. rewrite Hs. simpl padded_shape. simpl shape.
  rewrite !Nat.add_0_r.
  repeat split; try assumption.
  - apply wf_build.
  - intros b i j k Hb Hi Hj Hk.
    rewrite get_build4 by assumption.
    simpl unpad. rewrite !Nat.sub_0_r.
    assert (Eb : (b <? nb) = true) by (apply Nat.ltb_lt; assumption).
    assert (Ei : (i <? nh) = true) by (apply Nat.ltb_lt; assumption).
    assert (Ek : (k <? nc) = true) by (apply Nat.ltb_lt; assumption).
    rewrite Eb, Ei, Ek. simpl.
    destruct (Nat.ltb_spec j (Z.to_nat p)) as [Hlt|Hge].
    + replace (Z.to_nat p <=? j) with false
        by (symmetry; apply Nat.leb_gt; assumption).
      reflexivity.
    + replace (Z.to_nat p <=? j) with true
        by (symmetry; apply Nat.leb_le; assumption).
      replace (j <? Z.to_nat p + nw) with true
        by (symmetry; apply Nat.ltb_lt; assumption).
      reflexivity.
Qed.

Lemma tf_pad_time_ok (x : Tensor A) (p : Z) nb nh nw nc :
  shape x = [nb; nh; nw; nc] -> (0 <= p)%Z ->
  exists xp, tf_pad x (time_padding p) = Some xp.
Proof.
  intros Hs Hp. unfold tf_pad, time_padding. rewrite Hs. simpl.
  replace (0 <=? p)%Z with true by (symmetry; apply Z.leb_le; assumption).
  simpl. eexists; reflexivity.
Qed.

(** *** Convolution *)

Lemma conv_terms_ext (x x' w : Tensor A) rate fh fw cin b i j k :
  (forall di dj q, di < fh -> dj < fw -> q < cin ->
     get x [b; i + rate * di; j + rate * dj; q]
     = get x' [b; i + rate * di; j + rate * dj; q]) ->
  conv_terms x w rate fh fw cin b i j k = conv_terms x' w rate fh fw cin b i j k.
Proof.
  intros Hext. unfold conv_terms.
  rewrite !flat_map_concat_map. f_equal.
  apply map_ext_in. intros di Hdi. apply in_seq in Hdi.
  rewrite !flat_map_concat_map. f_equal.
  apply map_ext_in. intros dj Hdj. apply in_seq in Hdj.
  apply map_ext_in. intros q Hq. apply in_seq in Hq.
  rewrite Hext by lia. reflexivity.
Qed.

Lemma valid_conv_inv (rate : nat) (x w xc : Tensor A) fh fw cin cout :
  valid_conv rate x w = Some xc ->
  shape w = [fh; fw; cin; cout] ->
  exists nb nh nw,
    shape x = [nb; nh; nw; cin] /\ 1 <= fh /\ 1 <= fw /\
    rate * (fh - 1) <= nh /\ rate * (fw - 1) <= nw /\
    shape xc = [nb; nh - rate * (fh - 1); nw - rate * (fw - 1); cout] /\
    wf xc /\
    forall b i j k,
      b < nb -> i < nh - rate * (fh - 1) -> j < nw - rate * (fw - 1) -> k < cout ->
      get xc [b; i; j; k] = dsum (conv_terms x w rate fh fw cin b i j k).
Proof.
  unfold valid_conv. intros Hc Hw. rewrite Hw in Hc.
  destruct (shape x) as [|nb [|nh [|nw [|nc [|? ?]]]]]; try discriminate.
  destruct ((nc =? cin) && (1 <=? fh) && (1 <=? fw)
            && (rate * (fh - 1) + 1 <=? nh + 1)
            && (rate * (fw - 1) + 1 <=? nw + 1)) eqn:Hcond; [|discriminate].
  repeat (apply andb_prop in Hcond; destruct Hcond as [Hcond ?]).
  apply Nat.eqb_eq in Hcond.
  repeat match goal with
         | Hle : (_ <=? _) = true |- _ => apply Nat.leb_le in Hle
         end.
  injection Hc as <-. subst nc.
  exists nb, nh, nw. repeat split; try lia.
  - simpl. f_equal. f_equal; [lia|]. f_equal; lia.
  - apply wf_build.
  - intros b i j k Hb Hi Hj Hk.
    rewrite get_build4 by lia. reflexivity.
Qed.

Lemma valid_conv_ok (rate : nat) (x w : Tensor A) nb nh nw fh fw cin cout :
  shape x = [nb; nh; nw; cin] -> shape w = [fh; fw; cin; cout] ->
  1 <= fh -> 1 <= fw -> rate * (fh - 1) <= nh -> rate * (fw - 1) <= nw ->
  exists xc, valid_conv rate x w = Some xc.
Proof.
  intros Hx Hw Hfh Hfw Hh Hwd. unfold valid_conv. rewrite Hx, Hw.
  rewrite Nat.eqb_refl.
  replace (1 <=? fh) with true by (symmetry; apply Nat.leb_le; lia).
  replace (1 <=? fw) with true by (symmetry; apply Nat.leb_le; lia).
  replace (rate * (fh - 1) + 1 <=? nh + 1) with true
    by (symmetry; apply Nat.leb_le; lia).
  replace (rate * (fw - 1) + 1 <=? nw + 1) with true
    by (symmetry; apply Nat.leb_le; lia).
  simpl. eexists; reflexivity.
Qed.

(** *** Adding a bias *)

Lemma clamp_index_id (s idx : list nat) :
  in_range idx s -> clamp_index s idx = idx.
Proof.
  intros Hr; induction Hr as [|i n idx s Hi _ IH]; simpl; [reflexivity|].
  rewrite IH. destruct (Nat.eqb_spec n 1); [|reflexivity].
  f_equal; lia.
Qed.

Lemma tf_add_bias (x b y : Tensor A) nb nh nw nc :
  shape x = [nb; nh; nw; nc] -> shape b = [nc] ->
  tf_add x b = Some y ->
  shape y = [nb; nh; nw; nc] /\ wf y /\
  forall bi i j k, bi < nb -> i < nh -> j < nw -> k < nc ->
    get y [bi; i; j; k] = dadd (get x [bi; i; j; k]) (get b [k]).
Proof.
  intros Hx Hb. unfold tf_add, broadcast_op, broadcast_shape.
  rewrite Hx, Hb. simpl. rewrite Nat.eqb_refl. simpl.
  intros Heq; injection Heq as <-.
  repeat split.
  - apply wf_build.
  - intros bi i j k Hbi Hi Hj Hk.
    rewrite get_build4 by assumption.
    unfold broadcast_index. simpl skipn.
    rewrite clamp_index_id by (apply in_range4; tauto).
    rewrite clamp_index_id by (repeat constructor; assumption).
    reflexivity.
Qed.

Lemma tf_add_bias_ok (x b : Tensor A) nb nh nw nc :
  shape x = [nb; nh; nw; nc] -> shape b = [nc] ->
  exists y, tf_add x b = Some y.
Proof.
  intros Hx Hb. unfold tf_add, broadcast_op, broadcast_shape.
  rewrite Hx, Hb. simpl. rewrite Nat.eqb_refl. simpl. eexists; reflexivity.
Qed.

(** *** Rectification *)

Lemma wf_relu (c : Tensor A) : wf c -> wf (tf_nn_relu c).
Proof. unfold wf; simpl; rewrite length_map; trivial. Qed.

Lemma get_relu (c : Tensor A) idx :
  wf c -> in_range idx (shape c) -> get (tf_nn_relu c) idx = drelu (get c idx).
Proof.
  intros Hw Hr. unfold get; simpl.
  rewrite (nth_indep _ dzero (drelu dzero))
    by (rewrite length_map; apply get_in_data; assumption).
  apply map_nth.
Qed.

(** *** Concatenation of channels *)

Lemma shape_eqb_eq (s1 s2 : list nat) : shape_eqb s1 s2 = true <-> s1 = s2.
Proof.
  revert s2; induction s1 as [|a s1 IH]; intros [|b s2]; simpl;
    try (split; [discriminate|discriminate]); [tauto|].
  rewrite Bool.andb_true_iff, Nat.eqb_eq, IH.
  split; [intros [-> ->]; reflexivity|intros [= -> ->]; split; reflexivity].
Qed.

Lemma tf_concat3_inv (p x c : Tensor A) nb nh nw c1 :
  tf_concat 3 [p; x] = Some c ->
  shape p = [nb; nh; nw; c1] ->
  exists c2,
    shape x = [nb; nh; nw; c2] /\ shape c = [nb; nh; nw; c1 + c2] /\ wf c /\
    forall b i j k, b < nb -> i < nh -> j < nw -> k < c1 + c2 ->
      get c [b; i; j; k]
      = if k <? c1 then get p [b; i; j; k] else get x [b; i; j; k - c1].
Proof.
  unfold tf_concat, concat2. simpl fold_left. unfold obind.
  intros Hc Hp. rewrite Hp in Hc.
  destruct (shape x) as [|xb [|xh [|xw [|c2 [|? ?]]]]]; simpl in Hc;
    try discriminate;
    try (rewrite !Bool.andb_false_r in Hc; discriminate).
  rewrite Bool.andb_true_r in Hc.
  destruct ((nb =? xb) && ((nh =? xh) && (nw =? xw))) eqn:Heq; [|discriminate].
  apply andb_prop in Heq; destruct Heq as [Eb Heq].
  apply andb_prop in Heq; destruct Heq as [Eh Ew].
  apply Nat.eqb_eq in Eb, Eh, Ew. subst xb xh xw.
  injection Hc as <-.
  exists c2. simpl. repeat split.
  - apply wf_build.
  - intros b i j k Hb Hi Hj Hk. rewrite get_build4 by assumption.
    reflexivity.
Qed.

Lemma tf_concat3_ok (p x : Tensor A) nb nh nw c1 c2 :
  shape p = [nb; nh; nw; c1] -> shape x = [nb; nh; nw; c2] ->
  exists c, tf_concat 3 [p; x] = Some c.
Proof.
  intros Hp Hx. unfold tf_concat, concat2. simpl fold_left. unfold obind.
  rewrite Hp, Hx. simpl. rewrite !Nat.eqb_refl. simpl.
  eexists; reflexivity.
Qed.

(** *** The height axis *)

Lemma tf_expand_dims_1 (x e : Tensor A) nb nw nc :
  tf_expand_dims x 1 = Some e -> shape x = [nb; nw; nc] ->
  shape e = [nb; 1; nw; nc] /\ data e = data x /\
  forall b j k, get e [b; 0; j; k] = get x [b; j; k].
Proof.
  unfold tf_expand_dims. intros He Hx. rewrite Hx in He. simpl in He.
  injection He as <-. simpl. repeat split.
  intros b j k. unfold get. simpl. rewrite Hx. simpl.
  f_equal. lia.
Qed.

Lemma tf_expand_dims_1_ok (x : Tensor A) nb nw nc :
  shape x = [nb; nw; nc] -> exists e, tf_expand_dims x 1 = Some e.
Proof.
  intros Hx. unfold tf_expand_dims. rewrite Hx. simpl. eexists; reflexivity.
Qed.

Lemma tf_squeeze_1 (y s : Tensor A) nb nh nw nc :
  tf_squeeze y [1] = Some s -> shape y = [nb; nh; nw; nc] ->
  nh = 1 /\ shape s = [nb; nw; nc] /\ data s = data y /\
  forall b j k, get s [b; j; k] = get y [b; 0; j; k].
Proof.
  unfold tf_squeeze. intros Hs Hy. rewrite Hy in Hs. simpl in Hs.
  destruct (Nat.eqb_spec nh 1) as [->|]; [|discriminate].
  simpl in Hs. injection Hs as <-. simpl. repeat split.
  intros b j k. unfold get. simpl. rewrite Hy. simpl.
  f_equal. lia.
Qed.

Lemma tf_squeeze_1_ok (y : Tensor A) nb nw nc :
  shape y = [nb; 1; nw; nc] -> exists s, tf_squeeze y [1] = Some s.
Proof.
  intros Hy. unfold tf_squeeze. rewrite Hy. simpl. eexists; reflexivity.
Qed.
End OpFacts.

(** ** Graph computations *)

Lemma bind_inv {A X Y} (m : Graph A X) (f : X -> Graph A Y) y l :
  bind m f = Some (y, l) ->
  exists x l1 l2, m = Some (x, l1) /\ f x = Some (y, l2) /\ l = l1 ++ l2.
Proof.
  unfold bind. destruct m as [[x l1]|]; [|discriminate].
  destruct (f x) as [[y' l2]|] eqn:Hf; [|discriminate].
  intros [= <- <-]. exists x, l1, l2. auto.
Qed.

Lemma node_inv {A} (o : Op) (r : option (Tensor A)) t l :
  node o r = Some (t, l) -> r = Some t /\ l = [mkNode o t].
Proof.
  unfold node. destruct r as [t'|]; [|discriminate].
  intros [= <- <-]. auto.
Qed.

Lemma pad_amount (d fl : nat) :
  1 <= fl -> Z.to_nat (Z.of_nat d * (Z.of_nat fl - 1)) = d * (fl - 1).
Proof.
  intros Hfl.
  replace (Z.of_nat fl - 1)%Z with (Z.of_nat (fl - 1)) by lia.
  rewrite <- Nat2Z.inj_mul. apply Nat2Z.id.
Qed.

(** ** The causal convolution *)

Section ConvFacts.
Context {A : Type} `{Dtype A}.

(** The convolution step of [conv] is the dilated window sum, whichever
    of the two operations is called. *)
Lemma conv_step (xp w : Tensor A) (d : nat) :
  (if d =? 1 then node Conv2D (tf_nn_conv2d xp w)
   else node (AtrousConv2D d) (tf_nn_atrous_conv2d xp w d))
  = if 1 <=? d
    then node (if d =? 1 then Conv2D else AtrousConv2D d) (valid_conv d xp w)
    else None.
Proof.
  destruct (Nat.eqb_spec d 1) as [->|Hd]; [reflexivity|].
  unfold tf_nn_atrous_conv2d. destruct (1 <=? d); reflexivity.
Qed.

Lemma conv_inv (x w b y : Tensor A) ns fl d cin cout :
  conv x w b fl d = Some (y, ns) ->
  shape w = [1; fl; cin; cout] -> shape b = [cout] ->
  exists nb nh nw xp xc,
    shape x = [nb; nh; nw; cin] /\ 1 <= fl /\ 1 <= d /\
    ns = [mkNode (Pad (time_padding (Z.of_nat d * (Z.of_nat fl - 1)))) xp;
          mkNode (if d =? 1 then Conv2D else AtrousConv2D d) xc;
          mkNode Add y] /\
    shape xp = [nb; nh; d * (fl - 1) + nw; cin] /\
    shape xc = [nb; nh; nw; cout] /\
    shape y = [nb; nh; nw; cout] /\ wf y /\
    (forall bi i j k, bi < nb -> i < nh -> j < d * (fl - 1) + nw -> k < cin ->
       get xp [bi; i; j; k]
       = if j <? d * (fl - 1) then dzero else get x [bi; i; j - d * (fl - 1); k]) /\
    (forall bi i j k, bi < nb -> i < nh -> j < nw -> k < cout ->
       get y [bi; i; j; k]
       = dadd (dsum (conv_terms xp w d 1 fl cin bi i j k)) (get b [k])).
Proof.
  unfold conv. intros Hc Hw Hb.
  apply bind_inv in Hc. destruct Hc as (xp & l1 & l2 & Hpad & Hc & ->).
  apply node_inv in Hpad. destruct Hpad as [Hpad ->].
  apply bind_inv in Hc. destruct Hc as (xc & l3 & l4 & Hcv & Hadd & ->).
  rewrite conv_step in Hcv.
  destruct (Nat.leb_spec 1 d) as [Hd|Hd]; [|discriminate].
  apply node_inv in Hcv. destruct Hcv as [Hcv ->].
  apply node_inv in Hadd. destruct Hadd as [Hadd ->].
  fold (time_padding (Z.of_nat d * (Z.of_nat fl - 1))) in Hpad.
  apply tf_pad_time_inv in Hpad.
  destruct Hpad as (nb & nh & nw & nc & Hx & Hp & Hxp & _ & Gxp).
  assert (Hfl : 1 <= fl) by nia.
  rewrite pad_amount in Hxp, Gxp by assumption.
  destruct (valid_conv_inv _ _ _ Hcv Hw)
    as (nb' & nh' & nw' & Hxp' & _ & _ & _ & _ & Hxc & _ & Gxc).
  rewrite Hxp in Hxp'. injection Hxp' as <- <- <- <-.
  replace (nh - d * (1 - 1)) with nh in * by lia.
  replace (d * (fl - 1) + nw - d * (fl - 1)) with nw in * by lia.
  destruct (tf_add_bias _ _ Hxc Hb Hadd) as (Hy & Wy & Gy).
  exists nb, nh, nw, xp, xc. repeat split; try assumption.
  intros bi i j k Hbi Hi Hj Hk.
  rewrite Gy, Gxc by assumption. reflexivity.
Qed.

Lemma conv_ok (x w b : Tensor A) fl d nb nh nw cin cout :
  shape x = [nb; nh; nw; cin] ->
  shape w = [1; fl; cin; cout] -> shape b = [cout] ->
  1 <= fl -> 1 <= d ->
  exists y ns, conv x w b fl d = Some (y, ns).
Proof.
  intros Hx Hw Hb Hfl Hd. unfold conv.
  fold (time_padding (Z.of_nat d * (Z.of_nat fl - 1))).
  destruct (tf_pad_time_ok x (p := Z.of_nat d * (Z.of_nat fl - 1)) Hx)
    as [xp Hpad]; [nia|].
  rewrite Hpad. simpl bind at 1.
  rewrite conv_step.
  replace (1 <=? d) with true by (symmetry; apply Nat.leb_le; assumption).
  apply tf_pad_time_inv in Hpad.
  destruct Hpad as (nb' & nh' & nw' & nc' & Hx' & _ & Hxp & _ & _).
  rewrite Hx in Hx'. injection Hx' as <- <- <- <-.
  rewrite pad_amount in Hxp by assumption.
  destruct (valid_conv_ok d xp w Hxp Hw) as [xc Hcv]; try lia.
  rewrite Hcv.
  destruct (valid_conv_inv _ _ _ Hcv Hw)
    as (nb' & nh' & nw' & Hxp' & _ & _ & _ & _ & Hxc & _ & _).
  destruct (tf_add_bias_ok xc b Hxc Hb) as [y Hadd].
  simpl. rewrite Hadd. simpl. eexists _, _; reflexivity.
Qed.
End ConvFacts.

(** ** Causality of the operations *)

Section Causality.
Context {A : Type} `{Dtype A}.

Lemma conv_causal (t : nat) (x x' w b y y' : Tensor A) ns ns' fl d cin cout :
  shape w = [1; fl; cin; cout] -> shape b = [cout] ->
  conv x w b fl d = Some (y, ns) -> conv x' w b fl d = Some (y', ns') ->
  agree_upto t x x' -> agree_upto t y y'.
Proof.
  intros Hw Hb Hc Hc' (Hs & Wx & Wx' & Hag).
  destruct (conv_inv _ _ _ _ Hc Hw Hb)
    as (nb & nh & nw & xp & xc & Hx & Hfl & Hd & _ & _ & _ & Hy & Wy & Gxp & Gy).
  destruct (conv_inv _ _ _ _ Hc' Hw Hb)
    as (nb' & nh' & nw' & xp' & xc' & Hx' & _ & _ & _ & _ & _ & Hy' & Wy' & Gxp' & Gy').
  rewrite Hs, Hx' in Hx. injection Hx as -> -> ->.
  rewrite <- Hs in Hx'.
  repeat split; try assumption; [congruence|].
  intros bi i j k Hr Hj. rewrite Hy in Hr. apply in_range4 in Hr.
  destruct Hr as (Hbi & Hi & Hjw & Hk).
  rewrite Gy, Gy' by assumption. f_equal. f_equal.
  apply conv_terms_ext. intros di dj q Hdi Hdj Hq.
  assert (di = 0) by lia; subst di.
  rewrite Gxp, Gxp' by nia.
  destruct (j + d * dj <? d * (fl - 1)); [reflexivity|].
  apply Hag; [|nia].
  rewrite Hx'. apply in_range4. repeat split; nia.
Qed.

Lemma relu_causal (t : nat) (c c' : Tensor A) :
  agree_upto t c c' -> agree_upto t (tf_nn_relu c) (tf_nn_relu c').
Proof.
  intros (Hs & Wc & Wc' & Hag).
  repeat split; try (apply wf_relu; assumption); [exact Hs|].
  intros bi i j k Hr Hj. simpl in Hr.
  rewrite !get_relu; try assumption; [|rewrite <- Hs; assumption].
  f_equal. apply Hag; assumption.
Qed.

Lemma concat_causal (t : nat) (p p' x x' c c' : Tensor A) nb nh nw c1 :
  shape p = [nb; nh; nw; c1] ->
  tf_concat 3 [p; x] = Some c -> tf_concat 3 [p'; x'] = Some c' ->
  agree_upto t p p' -> agree_upto t x x' -> agree_upto t c c'.
Proof.
  intros Hp Hc Hc' (Hsp & _ & _ & Hagp) (Hsx & _ & _ & Hagx).
  destruct (tf_concat3_inv _ _ Hc Hp) as (c2 & Hx & Hcs & Wc & Gc).
  assert (Hp' : shape p' = [nb; nh; nw; c1]) by congruence.
  destruct (tf_concat3_inv _ _ Hc' Hp') as (c2' & Hx' & Hcs' & Wc' & Gc').
  assert (c2' = c2) by congruence. subst c2'.
  repeat split; try assumption; [congruence|].
  intros bi i j k Hr Hj. rewrite Hcs in Hr. apply in_range4 in Hr.
  destruct Hr as (Hbi & Hi & Hjw & Hk).
  rewrite Gc, Gc' by assumption.
  destruct (Nat.ltb_spec k c1) as [Hlt|Hge].
  - apply Hagp; [|assumption]. rewrite Hp. apply in_range4; tauto.
  - apply Hagx; [|assumption]. rewrite Hx. apply in_range4.
    repeat split; try assumption; lia.
Qed.

Lemma expand_dims_causal (t : nat) (x x' e e' : Tensor A) nb nw nc :
  shape x = [nb; nw; nc] ->
  tf_expand_dims x 1 = Some e -> tf_expand_dims x' 1 = Some e' ->
  agree_upto3 t x x' -> agree_upto t e e'.
Proof.
  intros Hx He He' (Hs & Wx & Wx' & Hag).
  assert (Hx' : shape x' = [nb; nw; nc]) by congruence.
  destruct (tf_expand_dims_1 _ He Hx) as (Hes & Hed & Ge).
  destruct (tf_expand_dims_1 _ He' Hx') as (Hes' & Hed' & Ge').
  assert (Hn : numel [nb; 1; nw; nc] = numel [nb; nw; nc]) by (simpl; lia).
  repeat split.
  - congruence.
  - unfold wf. rewrite Hes, Hed, Hn, <- Hx. exact Wx.
  - unfold wf. rewrite Hes', Hed', Hn, <- Hx'. exact Wx'.
  - intros bi i j k Hr Hj. rewrite Hes in Hr. apply in_range4 in Hr.
    destruct Hr as (Hbi & Hi & Hjw & Hk).
    assert (i = 0) by lia; subst i.
    rewrite Ge, Ge'. apply Hag; [|assumption].
    rewrite Hx. apply in_range3; tauto.
Qed.

Lemma squeeze_causal (t : nat) (y y' s s' : Tensor A) nb nh nw nc :
  shape y = [nb; nh; nw; nc] ->
  tf_squeeze y [1] = Some s -> tf_squeeze y' [1] = Some s' ->
  agree_upto t y y' -> agree_upto3 t s s'.
Proof.
  intros Hy Hq Hq' (Hs & Wy & Wy' & Hag).
  assert (Hy' : shape y' = [nb; nh; nw; nc]) by congruence.
  destruct (tf_squeeze_1 _ Hq Hy) as (-> & Hss & Hsd & Gs).
  destruct (tf_squeeze_1 _ Hq' Hy') as (_ & Hss' & Hsd' & Gs').
  assert (Hn : numel [nb; nw; nc] = numel [nb; 1; nw; nc]) by (simpl; lia).
  repeat split.
  - congruence.
  - unfold wf. rewrite Hss, Hsd, Hn, <- Hy. exact Wy.
  - unfold wf. rewrite Hss', Hsd', Hn, <- Hy'. exact Wy'.
  - intros bi j k Hr Hj. rewrite Hss in Hr. apply in_range3 in Hr.
    rewrite Gs, Gs'. apply Hag; [|assumption].
    rewrite Hy. apply in_range4. repeat split; try tauto; lia.
Qed.
End Causality.

(** ** The variables of the network *)

Section VariableFacts.
Context {A : Type} `{Dtype A} `{Sampler A}.
Variables n_inputs n_levels n_filters filter_length : nat.
Variable random_seed : option Z.

Lemma shape_init_normal (s : list nat) (seed : option Z) (g : nat) :
  shape (fst (init_normal s seed g)) = s /\ snd (init_normal s seed g) = S g.
Proof. split; reflexivity. Qed.

Lemma wf_init_normal (s : list nat) (seed : option Z) (g : nat) :
  wf (fst (init_normal s seed g)).
Proof. unfold wf; simpl. rewrite length_map, length_seq. reflexivity. Qed.

Lemma create_level_shapes (v : Variables) (level : nat) :
  let v' := create_level n_inputs n_levels n_filters filter_length random_seed v level in
  map shape (H_weights v')
    = map shape (H_weights v) ++ [[1; filter_length; H_channels n_inputs n_filters level; n_filters]] /\
  map shape (H_biases v') = map shape (H_biases v) ++ [[n_filters]] /\
  map shape (G_weights v')
    = map shape (G_weights v) ++ [[1; filter_length; G_channels n_levels n_filters level; n_filters]] /\
  map shape (G_biases v') = map shape (G_biases v) ++ [[n_filters]] /\
  next_variable v' = 4 + next_variable v.
Proof.
  unfold create_level, H_channels, G_channels, init_normal.
  destruct (level =? 0); destruct (level =? n_levels - 1); simpl;
    rewrite !map_app; simpl; repeat split; reflexivity.
Qed.

Lemma create_variables_prefix (k : nat) :
  let v := fold_left (create_level n_inputs n_levels n_filters filter_length random_seed)
             (seq 0 k) (mkVariables [] [] [] [] 0) in
  map shape (H_weights v)
    = map (fun l => [1; filter_length; H_channels n_inputs n_filters l; n_filters]) (seq 0 k) /\
  map shape (H_biases v) = map (fun _ => [n_filters]) (seq 0 k) /\
  map shape (G_weights v)
    = map (fun l => [1; filter_length; G_channels n_levels n_filters l; n_filters]) (seq 0 k) /\
  map shape (G_biases v) = map (fun _ => [n_filters]) (seq 0 k) /\
  next_variable v = 4 * k.
Proof.
  induction k as [|k IH]; [simpl; repeat split; reflexivity|].
  rewrite seq_S, fold_left_app. simpl fold_left. simpl Nat.add.
  destruct IH as (Hw & Hb & Gw & Gb & Hn).
  destruct (create_level_shapes
              (fold_left (create_level n_inputs n_levels n_filters filter_length random_seed)
                 (seq 0 k) (mkVariables [] [] [] [] 0)) k)
    as (Hw' & Hb' & Gw' & Gb' & Hn').
  cbv zeta. rewrite Hw', Hb', Gw', Gb', Hn', Hw, Hb, Gw, Gb, Hn, !map_app.
  simpl. repeat split; try reflexivity. lia.
Qed.

Lemma create_variables_shapes :
  let v := create_variables n_inputs n_levels n_filters filter_length random_seed in
  map shape (H_weights v)
    = map (fun l => [1; filter_length; H_channels n_inputs n_filters l; n_filters]) (seq 0 n_levels) /\
  map shape (H_biases v) = map (fun _ => [n_filters]) (seq 0 n_levels) /\
  map shape (G_weights v)
    = map (fun l => [1; filter_length; G_channels n_levels n_filters l; n_filters]) (seq 0 n_levels) /\
  map shape (G_biases v) = map (fun _ => [n_filters]) (seq 0 n_levels) /\
  next_variable v = 4 * n_levels.
Proof. apply create_variables_prefix. Qed.

Lemma create_variables_lengths :
  let v := create_variables n_inputs n_levels n_filters filter_length random_seed in
  length (H_weights v) = n_levels /\ length (H_biases v) = n_levels /\
  length (G_weights v) = n_levels /\ length (G_biases v) = n_levels.
Proof.
  destruct create_variables_shapes as (Hw & Hb & Gw & Gb & _). cbv zeta.
  apply (f_equal (@length _)) in Hw, Hb, Gw, Gb.
  rewrite !length_map, length_seq in Hw, Hb, Gw, Gb. auto.
Qed.
End VariableFacts.

Section NetworkRun.
Context {A : Type} `{Dtype A}.
Variables nb nw fl nf : nat.
Hypothesis fl_pos : 1 <= fl.

Lemma conv_run (x w b : Tensor A) d cin cout :
  shape x = [nb; 1; nw; cin] ->
  shape w = [1; fl; cin; cout] -> shape b = [cout] -> 1 <= d ->
  exists y ns,
    conv x w b fl d = Some (y, ns) /\ shape y = [nb; 1; nw; cout] /\
    map skel ns = conv_skel nb nw fl d cin cout /\
    exists xp xc,
      ns = [mkNode (Pad (time_padding (Z.of_nat d * (Z.of_nat fl - 1)))) xp;
            mkNode (conv_op d) xc; mkNode Add y].
Proof.
  intros Hx Hw Hb Hd.
  destruct (conv_ok x w b Hx Hw Hb fl_pos Hd) as (y & ns & Hc).
  exists y, ns. split; [exact Hc|].
  destruct (conv_inv _ _ _ _ Hc Hw Hb)
    as (nb' & nh' & nw' & xp & xc & Hx' & _ & _ & -> & Hxp & Hxc & Hy & _).
  rewrite Hx in Hx'. injection Hx' as <- <- <-.
  split; [exact Hy|]. split.
  - unfold conv_skel, skel, conv_op. simpl. rewrite Hxp, Hxc, Hy. reflexivity.
  - exists xp, xc. reflexivity.
Qed.

Lemma analysis_run (wb : list (Tensor A * Tensor A)) :
  forall cins x Hs d c0,
  shape x = [nb; 1; nw; c0] -> feeds nf c0 cins -> 1 <= d ->
  map (fun p => shape (fst p)) wb = map (fun c => [1; fl; c; nf]) cins ->
  map (fun p => shape (snd p)) wb = map (fun _ : nat => [nf]) cins ->
  exists x' Hs' ns,
    analysis fl wb (x, Hs, d) = Some ((x', Hs ++ Hs', d * 2 ^ length wb), ns) /\
    shape x' = [nb; 1; nw; match cins with [] => c0 | _ => nf end] /\
    Forall (fun h => shape h = [nb; 1; nw; nf]) Hs' /\
    length Hs' = length wb /\
    (wb = [] -> x' = x) /\
    map skel ns = analysis_skel nb nw fl nf cins d.
Proof.
  induction wb as [|[w b] rest IH]; intros cins x Hs d c0 Hx Hf Hd Hws Hbs.
  - destruct cins; [|discriminate]. simpl.
    exists x, [], []. rewrite app_nil_r, Nat.mul_1_r.
    repeat split; [assumption|constructor].
  - destruct cins as [|c cins]; [discriminate|].
    simpl in Hws, Hbs, Hf. destruct Hf as [-> Hf].
    injection Hws as Hw Hws. injection Hbs as Hb Hbs.
    destruct (conv_run x w b Hx Hw Hb Hd) as (y & ns1 & Hc & Hy & Sk1 & _).
    destruct (IH cins (tf_nn_relu y) (Hs ++ [tf_nn_relu y]) (d * 2) nf)
      as (x' & Hs' & ns2 & Hrun & Hx' & HHs & Hlen & _ & Sk2);
      try assumption; [lia|].
    exists x', (tf_nn_relu y :: Hs'), (ns1 ++ mkNode Relu (tf_nn_relu y) :: ns2).
    repeat split.
    + cbn [analysis]. rewrite Hc. cbn [bind node]. rewrite Hrun.
      rewrite <- app_assoc. simpl app.
      do 3 f_equal. simpl. lia.
    + destruct cins; exact Hx' || exact Hx'.
    + constructor; [exact Hy|exact HHs].
    + simpl. congruence.
    + discriminate.
    + rewrite map_app. cbn [map]. rewrite Sk1, Sk2.
      unfold skel at 1. cbn [op out tf_nn_relu shape]. rewrite Hy. reflexivity.
Qed.

Lemma synthesis_run (xwb : list (Tensor A * (Tensor A * Tensor A))) :
  forall x0 x_prev,
  stages_ok nb nw fl nf (is_none x_prev) xwb ->
  (forall p, x_prev = Some p -> shape p = [nb; 1; nw; nf]) ->
  exists x' p' ns,
    synthesis fl xwb (x0, x_prev, 2 ^ length xwb) = Some ((x', p', 1), ns) /\
    (xwb <> [] -> shape x' = [nb; 1; nw; nf]) /\
    (xwb = [] -> x' = x0) /\
    map skel ns = synthesis_skel nb nw fl nf (is_none x_prev) (length xwb) (2 ^ length xwb).
Proof.
  induction xwb as [|[x [w b]] rest IH]; intros x0 x_prev Hok Hp.
  - exists x0, x_prev, []. simpl. repeat split. intros Hne; contradiction Hne; reflexivity.
  - simpl in Hok. destruct Hok as (Hx & Hw & Hb & Hok).
    assert (Hd : 1 <= 2 ^ length ((x, (w, b)) :: rest)).
    { pose proof (Nat.pow_nonzero 2 (length ((x, (w, b)) :: rest))). lia. }
    assert (Hhalf : 2 ^ length ((x, (w, b)) :: rest) / 2 = 2 ^ length rest).
    { simpl length. rewrite Nat.pow_succ_r', Nat.mul_comm. apply Nat.div_mul. lia. }
    assert (Hin : exists xi ns0,
               match x_prev with
               | Some p => node (Concat 3) (tf_concat 3 [p; x])
               | None => ret x
               end = Some (xi, ns0) /\
               shape xi = [nb; 1; nw; if is_none x_prev then nf else 2 * nf] /\
               map skel ns0
               = if is_none x_prev then [] else [(Concat 3, [nb; 1; nw; 2 * nf])]).
    { destruct x_prev as [p|]; cbn [is_none].
      - specialize (Hp p eq_refl).
        destruct (tf_concat3_ok p x Hp Hx) as [c Hc].
        destruct (tf_concat3_inv _ _ Hc Hp) as (c2 & Hx' & Hcs & _).
        rewrite Hx in Hx'. injection Hx' as <-.
        replace (nf + nf) with (2 * nf) in Hcs by lia.
        exists c, [mkNode (Concat 3) c]. rewrite Hc. cbn [node map].
        repeat split; [assumption|]. unfold skel; cbn [op out]. rewrite Hcs.
        reflexivity.
      - exists x, []. repeat split. assumption. }
    destruct Hin as (xi & ns0 & Hi & Hxi & Sk0).
    destruct (conv_run xi w b Hxi Hw Hb Hd) as (y & ns1 & Hc & Hy & Sk1 & _).
    destruct (IH (tf_nn_relu y) (Some (tf_nn_relu y)))
      as (x' & p' & ns2 & Hrun & Hx' & Hx'' & Sk2); [exact Hok| |].
    { intros p [= <-]. exact Hy. }
    exists (match rest with [] => tf_nn_relu y | _ => x' end), p',
      (ns0 ++ ns1 ++ mkNode Relu (tf_nn_relu y) :: ns2).
    repeat split.
    + cbn [synthesis]. rewrite Hi. cbn [bind]. rewrite Hc. cbn [bind node].
      rewrite Hhalf, Hrun.
      destruct rest; [rewrite Hx'' by reflexivity|]; reflexivity.
    + intros _. destruct rest; [exact Hy|]. apply Hx'. discriminate.
    + discriminate.
    + rewrite !map_app. cbn [map]. rewrite Sk0, Sk1, Sk2.
      unfold skel at 1. cbn [op out tf_nn_relu shape]. rewrite Hy.
      cbn [length] in *. cbn [synthesis_skel]. rewrite Hhalf. reflexivity.
Qed.
End NetworkRun.

Lemma map_fst_combine {X Y} (l1 : list X) (l2 : list Y) :
  length l1 = length l2 -> map fst (combine l1 l2) = l1.
Proof.
  revert l2; induction l1 as [|a l1 IH]; intros [|b l2] Hl; simpl in *;
    try discriminate; [reflexivity|].
  f_equal. apply IH. lia.
Qed.

Lemma map_snd_combine {X Y} (l1 : list X) (l2 : list Y) :
  length l1 = length l2 -> map snd (combine l1 l2) = l2.
Proof.
  revert l2; induction l1 as [|a l1 IH]; intros [|b l2] Hl; simpl in *;
    try discriminate; [reflexivity|].
  f_equal. apply IH. lia.
Qed.

Section StageShapes.
Context {A : Type} `{Dtype A}.
Variables nb nw fl nf : nat.

Lemma stages_ok_combine (xs ws bs : list (Tensor A)) :
  forall first,
  Forall (fun x => shape x = [nb; 1; nw; nf]) xs ->
  map shape ws = stage_filters fl nf first (length ws) ->
  Forall (fun b => shape b = [nf]) bs ->
  stages_ok nb nw fl nf first (combine xs (combine ws bs)).
Proof.
  revert ws bs; induction xs as [|x xs IH]; intros [|w ws] [|b bs] first Hxs Hws Hbs;
    simpl; try exact I.
  inversion Hxs; subst. inversion Hbs; subst.
  simpl in Hws. injection Hws as Hw Hws.
  repeat split; try assumption. apply IH; assumption.
Qed.

Lemma stage_filters_later (n_levels m : nat) :
  m <= n_levels - 1 ->
  map (fun l => [1; fl; G_channels n_levels nf l; nf]) (rev (seq 0 m))
  = stage_filters fl nf false m.
Proof.
  induction m as [|m IH]; intros Hm; [reflexivity|].
  rewrite seq_S, rev_app_distr. simpl. rewrite IH by lia.
  unfold G_channels. destruct (Nat.eqb_spec m (n_levels - 1)); [lia|reflexivity].
Qed.

Lemma stage_filters_rev (n_levels : nat) :
  map (fun l => [1; fl; G_channels n_levels nf l; nf]) (rev (seq 0 n_levels))
  = stage_filters fl nf true n_levels.
Proof.
  destruct n_levels as [|m]; [reflexivity|].
  rewrite seq_S, rev_app_distr. simpl.
  rewrite (stage_filters_later (S m)) by lia.
  unfold G_channels. simpl. rewrite Nat.sub_0_r, Nat.eqb_refl. reflexivity.
Qed.

Lemma feeds_inner (n_inputs m : nat) :
  forall s, 0 < s -> feeds nf nf (map (H_channels n_inputs nf) (seq s m)).
Proof.
  induction m as [|m IH]; intros s Hs; simpl; [exact I|].
  split; [unfold H_channels; destruct (Nat.eqb_spec s 0); [lia|reflexivity]|].
  apply IH. lia.
Qed.

Lemma feeds_H_channels (n_inputs n_levels : nat) :
  feeds nf n_inputs (map (H_channels n_inputs nf) (seq 0 n_levels)).
Proof.
  destruct n_levels as [|m]; simpl; [exact I|]. split; [reflexivity|].
  apply feeds_inner. lia.
Qed.
End StageShapes.

(** ** Running the network *)

Section UfcnnRun.
Context {A : Type} `{Dtype A} `{Sampler A}.
Variables n_inputs n_outputs n_levels n_filters filter_length : nat.
Variable random_seed : option Z.

Local Open Scope graph_scope.

Lemma y_hat_unfold (feed : Tensor A) :
  y_hat (construct_ufcnn n_inputs n_outputs n_levels n_filters filter_length random_seed) feed
  = let v := create_variables n_inputs n_levels n_filters filter_length random_seed in
    let C_weights :=
      fst (init_normal [1; filter_length; n_filters; n_outputs] random_seed
             (next_variable v)) in
    let C_biases := fst (init_normal [n_outputs] random_seed (S (next_variable v))) in
    if feedable [None; None; Some n_inputs] (shape feed) then
      x <- node (ExpandDims 1) (tf_expand_dims feed 1) ;;
      ' (x, H_outputs, dilation) <-
          analysis filter_length (combine (H_weights v) (H_biases v)) (x, [], 1) ;;
      ' (x, x_prev, dilation) <-
          synthesis filter_length
            (combine (rev H_outputs) (combine (rev (G_weights v)) (rev (G_biases v))))
            (x, None, dilation) ;;
      y_hat <- conv x C_weights C_biases filter_length 1 ;;
      node (Squeeze [1]) (tf_squeeze y_hat [1])
    else None.
Proof. reflexivity. Qed.

Lemma feedable_inv (feed : Tensor A) :
  feedable [None; None; Some n_inputs] (shape feed) = true ->
  exists nb nw, shape feed = [nb; nw; n_inputs].
Proof.
  destruct (shape feed) as [|nb [|nw [|nc [|? ?]]]]; simpl; try discriminate;
    try (rewrite Bool.andb_false_r; discriminate).
  rewrite Bool.andb_true_r. intros Hn. apply Nat.eqb_eq in Hn. subst nc.
  exists nb, nw. reflexivity.
Qed.

Lemma y_hat_run (feed : Tensor A) (nb nw : nat) :
  shape feed = [nb; nw; n_inputs] ->
  1 <= filter_length ->
  (n_levels = 0 -> n_inputs = n_filters) ->
  exists y c xp xc ns,
    let tail :=
      [mkNode (Pad (time_padding (Z.of_nat 1 * (Z.of_nat filter_length - 1)))) xp;
       mkNode Conv2D xc; mkNode Add c; mkNode (Squeeze [1]) y] in
    y_hat (construct_ufcnn n_inputs n_outputs n_levels n_filters filter_length random_seed)
          feed
    = Some (y, ns ++ tail) /\
    shape c = [nb; 1; nw; n_outputs] /\
    shape y = [nb; nw; n_outputs] /\
    tf_squeeze c [1] = Some y /\
    map skel (ns ++ tail)
    = ufcnn_skel nb nw filter_length n_filters n_inputs n_outputs n_levels.
Proof.
  intros Hfeed Hfl Hzero. rewrite y_hat_unfold. cbv zeta.
  destruct (create_variables_shapes n_inputs n_levels n_filters filter_length random_seed)
    as (SHw & SHb & SGw & SGb & _).
  destruct (create_variables_lengths n_inputs n_levels n_filters filter_length random_seed)
    as (LHw & LHb & LGw & LGb).
  cbv zeta in SHw, SHb, SGw, SGb, LHw, LHb, LGw, LGb.
  set (v := create_variables n_inputs n_levels n_filters filter_length random_seed) in *.
  rewrite Hfeed. simpl feedable. rewrite Nat.eqb_refl. simpl andb. cbv iota.
  (* expand_dims *)
  destruct (tf_expand_dims_1_ok feed Hfeed) as [e He].
  destruct (tf_expand_dims_1 _ He Hfeed) as (Hes & _ & _).
  rewrite He. cbn [node bind].
  (* analysis *)
  destruct (@analysis_run _ _ nb nw filter_length n_filters Hfl
              (combine (H_weights v) (H_biases v))
              (map (H_channels n_inputs n_filters) (seq 0 n_levels))
              e [] 1 n_inputs Hes)
    as (x1 & Hs & ns1 & Hrun1 & Hx1 & HHs & LHs & Hx1e & Sk1).
  { apply feeds_H_channels. }
  { lia. }
  { rewrite <- (map_map fst shape), map_fst_combine by congruence.
    rewrite SHw, map_map. reflexivity. }
  { rewrite <- (map_map snd shape), map_snd_combine by congruence.
    rewrite SHb, map_map. reflexivity. }
  rewrite Hrun1. cbn [bind app].
  rewrite length_combine, LHw, LHb, Nat.min_id in LHs, Hrun1 |- *.
  rewrite Nat.mul_1_l.
  (* synthesis *)
  set (xwb := combine (rev Hs) (combine (rev (G_weights v)) (rev (G_biases v)))).
  assert (Lxwb : length xwb = n_levels).
  { unfold xwb. rewrite !length_combine, !length_rev, LHs, LGw, LGb, !Nat.min_id.
    reflexivity. }
  destruct (@synthesis_run _ _ nb nw filter_length n_filters Hfl xwb x1 None)
    as (x2 & p2 & ns2 & Hrun2 & Hx2 & Hx2e & Sk2).
  { apply stages_ok_combine.
    - apply Forall_rev. exact HHs.
    - rewrite length_rev, LGw, map_rev, SGw, <- map_rev. apply stage_filters_rev.
    - apply Forall_rev. apply Forall_forall. intros b Hb.
      apply (in_map shape) in Hb. rewrite SGb in Hb. apply in_map_iff in Hb.
      destruct Hb as (l & Hl & _). congruence. }
  { intros p Hp; discriminate. }
  rewrite Lxwb in Hrun2, Sk2. rewrite Hrun2. cbn [bind].
  (* the final convolution *)
  assert (Sx2 : shape x2 = [nb; 1; nw; n_filters]).
  { destruct n_levels as [|m] eqn:En.
    - destruct xwb; [|discriminate]. rewrite Hx2e by reflexivity.
      rewrite Hx1. simpl. f_equal. f_equal. f_equal. f_equal. auto.
    - apply Hx2. intros Hnil. rewrite Hnil in Lxwb. discriminate. }
  destruct (@conv_run _ _ nb nw filter_length Hfl x2
              (fst (init_normal [1; filter_length; n_filters; n_outputs] random_seed
                      (next_variable v)))
              (fst (init_normal [n_outputs] random_seed (S (next_variable v))))
              1 n_filters n_outputs Sx2 eq_refl eq_refl (le_n 1))
    as (c & ns3 & Hc & Sc & Sk3 & xp & xc & Ens3).
  rewrite Hc. cbn [bind].
  destruct (tf_squeeze_1_ok c Sc) as [y Hy].
  destruct (tf_squeeze_1 _ Hy Sc) as (_ & Sy & _).
  pose proof Hy as Hsq.
  rewrite Hy. cbn [node].
  exists y, c, xp, xc, (mkNode (ExpandDims 1) e :: ns1 ++ ns2).
  cbv zeta.
  assert (Enodes :
    (mkNode (ExpandDims 1) e :: ns1 ++ ns2)
      ++ [mkNode (Pad (time_padding (Z.of_nat 1 * (Z.of_nat filter_length - 1)))) xp;
          mkNode Conv2D xc; mkNode Add c; mkNode (Squeeze [1]) y]
    = [mkNode (ExpandDims 1) e] ++ ns1 ++ ns2 ++ ns3 ++ [mkNode (Squeeze [1]) y]).
  { rewrite Ens3. simpl. rewrite <- !app_assoc. reflexivity. }
  rewrite Enodes. repeat split; try assumption.
  rewrite !map_app. rewrite Sk1, Sk2, Sk3. cbn [map]. unfold skel at 1 2.
  cbn [op out]. rewrite Hes, Sy. reflexivity.
Qed.
End UfcnnRun.

(** ** Causality of the network *)

Lemma Forall2_rev_both {X Y} (R : X -> Y -> Prop) (l1 : list X) (l2 : list Y) :
  Forall2 R l1 l2 -> Forall2 R (rev l1) (rev l2).
Proof.
  induction 1 as [|a b l1 l2 Hab _ IH]; simpl; [constructor|].
  apply Forall2_app; [exact IH|]. constructor; [exact Hab|constructor].
Qed.

Lemma ret_inv {A X} (x y : X) (l : list (Node A)) :
  ret x = Some (y, l) -> y = x /\ l = [].
Proof. unfold ret. intros [= <- <-]. auto. Qed.

Section NetworkCausal.
Context {A : Type} `{Dtype A}.
Variables (t fl : nat).

Lemma layer_shaped_combine (ws bs : list (Tensor A)) (nf : nat) :
  forall cs,
  map shape ws = map (fun c => [1; fl; c; nf]) cs ->
  map shape bs = map (fun _ : nat => [nf]) cs ->
  Forall (layer_shaped fl) (combine ws bs).
Proof.
  revert bs; induction ws as [|w ws IH]; intros [|b bs] [|c cs] Hw Hb;
    simpl in *; try discriminate; try constructor.
  - injection Hw as Hw _. injection Hb as Hb _. exists c, nf. auto.
  - injection Hw as _ Hw. injection Hb as _ Hb. apply (IH bs cs); assumption.
Qed.

Lemma stage_rel_combine (xs1 xs2 : list (Tensor A)) :
  Forall2 (agree_upto t) xs1 xs2 ->
  forall wbs, Forall (layer_shaped fl) wbs ->
  Forall2 (stage_rel t fl) (combine xs1 wbs) (combine xs2 wbs).
Proof.
  induction 1 as [|a b xs1 xs2 Hab _ IH]; intros [|wb wbs] Hwb; simpl;
    try constructor.
  - inversion Hwb; subst. unfold stage_rel; simpl.
    split; [exact Hab|]. split; [reflexivity|assumption].
  - inversion Hwb; subst. apply IH; assumption.
Qed.

Lemma analysis_causal (wb : list (Tensor A * Tensor A)) :
  forall x1 x2 Hs1 Hs2 d r1 r2 ns1 ns2,
  Forall (layer_shaped fl) wb ->
  agree_upto t x1 x2 -> Forall2 (agree_upto t) Hs1 Hs2 ->
  analysis fl wb (x1, Hs1, d) = Some (r1, ns1) ->
  analysis fl wb (x2, Hs2, d) = Some (r2, ns2) ->
  agree_upto t (fst (fst r1)) (fst (fst r2)) /\
  Forall2 (agree_upto t) (snd (fst r1)) (snd (fst r2)) /\
  snd r1 = snd r2.
Proof.
  induction wb as [|[w b] rest IH];
    intros x1 x2 Hs1 Hs2 d r1 r2 ns1 ns2 Hwb Hx HHs Hr1 Hr2.
  - simpl in Hr1, Hr2. apply ret_inv in Hr1, Hr2.
    destruct Hr1 as [-> _], Hr2 as [-> _]. simpl. auto.
  - cbn [analysis] in Hr1, Hr2.
    inversion Hwb as [|? ? (cin & cout & Hw & Hb) Hrest]; subst. simpl in Hw, Hb.
    apply bind_inv in Hr1. destruct Hr1 as (c1 & l1 & l1' & Hc1 & Hr1 & _).
    apply bind_inv in Hr1. destruct Hr1 as (y1 & l2 & l2' & Hy1 & Hr1 & _).
    apply node_inv in Hy1. destruct Hy1 as [[= <-] _].
    apply bind_inv in Hr2. destruct Hr2 as (c2 & m1 & m1' & Hc2 & Hr2 & _).
    apply bind_inv in Hr2. destruct Hr2 as (y2 & m2 & m2' & Hy2 & Hr2 & _).
    apply node_inv in Hy2. destruct Hy2 as [[= <-] _].
    assert (Hag : agree_upto t (tf_nn_relu c1) (tf_nn_relu c2)).
    { apply relu_causal.
      eapply conv_causal; [exact Hw|exact Hb|exact Hc1|exact Hc2|exact Hx]. }
    eapply IH; [exact Hrest|exact Hag| |exact Hr1|exact Hr2].
    apply Forall2_app; [exact HHs|]. constructor; [exact Hag|constructor].
Qed.

Lemma synthesis_causal (xwb1 xwb2 : list (Tensor A * (Tensor A * Tensor A))) :
  Forall2 (stage_rel t fl) xwb1 xwb2 ->
  forall x1 x2 p1 p2 d r1 r2 ns1 ns2,
  agree_upto t x1 x2 -> prev_rel t p1 p2 ->
  synthesis fl xwb1 (x1, p1, d) = Some (r1, ns1) ->
  synthesis fl xwb2 (x2, p2, d) = Some (r2, ns2) ->
  agree_upto t (fst (fst r1)) (fst (fst r2)).
Proof.
  induction 1 as [|[xa [w b]] [xb [w' b']] rest1 rest2 Hrel _ IH];
    intros x1 x2 p1 p2 d r1 r2 ns1 ns2 Hx Hp Hr1 Hr2.
  - simpl in Hr1, Hr2. apply ret_inv in Hr1, Hr2.
    destruct Hr1 as [-> _], Hr2 as [-> _]. exact Hx.
  - destruct Hrel as (Hxab & Heq & (cin & cout & Hw & Hb)).
    simpl in Hxab, Heq, Hw, Hb. injection Heq as <- <-.
    cbn [synthesis] in Hr1, Hr2.
    apply bind_inv in Hr1. destruct Hr1 as (i1 & l0 & l0' & Hi1 & Hr1 & _).
    apply bind_inv in Hr1. destruct Hr1 as (c1 & l1 & l1' & Hc1 & Hr1 & _).
    apply bind_inv in Hr1. destruct Hr1 as (y1 & l2 & l2' & Hy1 & Hr1 & _).
    apply node_inv in Hy1. destruct Hy1 as [[= <-] _].
    apply bind_inv in Hr2. destruct Hr2 as (i2 & m0 & m0' & Hi2 & Hr2 & _).
    apply bind_inv in Hr2. destruct Hr2 as (c2 & m1 & m1' & Hc2 & Hr2 & _).
    apply bind_inv in Hr2. destruct Hr2 as (y2 & m2 & m2' & Hy2 & Hr2 & _).
    apply node_inv in Hy2. destruct Hy2 as [[= <-] _].
    assert (Hi : agree_upto t i1 i2).
    { destruct p1 as [a|], p2 as [a'|]; simpl in Hp; try contradiction.
      - destruct Hp as [Hpa Hlen].
        destruct (length4_inv _ Hlen) as (nb & nh & nw & ca & Hsa).
        apply node_inv in Hi1, Hi2.
        destruct Hi1 as [Hi1 _], Hi2 as [Hi2 _].
        eapply concat_causal; [exact Hsa|exact Hi1|exact Hi2|exact Hpa|exact Hxab].
      - apply ret_inv in Hi1, Hi2. destruct Hi1 as [-> _], Hi2 as [-> _].
        exact Hxab. }
    assert (Hc : agree_upto t c1 c2).
    { eapply conv_causal; [exact Hw|exact Hb|exact Hc1|exact Hc2|exact Hi]. }
    assert (Hag : agree_upto t (tf_nn_relu c1) (tf_nn_relu c2))
      by (apply relu_causal; exact Hc).
    eapply IH; [exact Hag| |exact Hr1|exact Hr2].
    simpl. split; [exact Hag|].
    destruct (conv_inv _ _ _ _ Hc1 Hw Hb)
      as (nb & nh & nw & xp & xc & _ & _ & _ & _ & _ & _ & Hy & _).
    simpl. rewrite Hy. reflexivity.
Qed.
End NetworkCausal.

Section UfcnnCausal.
Context {A : Type} `{Dtype A} `{Sampler A}.
Variables n_inputs n_outputs n_levels n_filters filter_length : nat.
Variable random_seed : option Z.

Lemma y_hat_causal (t : nat) (feed1 feed2 y1 y2 : Tensor A) ns1 ns2 :
  agree_upto3 t feed1 feed2 ->
  y_hat (construct_ufcnn n_inputs n_outputs n_levels n_filters filter_length random_seed)
        feed1 = Some (y1, ns1) ->
  y_hat (construct_ufcnn n_inputs n_outputs n_levels n_filters filter_length random_seed)
        feed2 = Some (y2, ns2) ->
  agree_upto3 t y1 y2.
Proof.
  intros Hfeed Hr1 Hr2. rewrite y_hat_unfold in Hr1, Hr2. cbv zeta in Hr1, Hr2.
  destruct (create_variables_shapes n_inputs n_levels n_filters filter_length random_seed)
    as (SHw & SHb & SGw & SGb & _).
  cbv zeta in SHw, SHb, SGw, SGb.
  set (v := create_variables n_inputs n_levels n_filters filter_length random_seed) in *.
  destruct (feedable [None; None; Some n_inputs] (shape feed1)) eqn:Hf1; [|discriminate].
  destruct (feedable [None; None; Some n_inputs] (shape feed2)) eqn:Hf2; [|discriminate].
  destruct (feedable_inv _ _ Hf1) as (nb & nw & Hs1).
  (* first run *)
  apply bind_inv in Hr1. destruct Hr1 as (e1 & l0 & l0' & He1 & Hr1 & _).
  apply node_inv in He1. destruct He1 as [He1 _].
  apply bind_inv in Hr1. destruct Hr1 as ([[xa Hsa] da] & l1 & l1' & Ha1 & Hr1 & _).
  apply bind_inv in Hr1. destruct Hr1 as ([[xs ps] ds] & l2 & l2' & Hsy1 & Hr1 & _).
  apply bind_inv in Hr1. destruct Hr1 as (c1 & l3 & l3' & Hc1 & Hq1 & _).
  apply node_inv in Hq1. destruct Hq1 as [Hq1 _].
  (* second run *)
  apply bind_inv in Hr2. destruct Hr2 as (e2 & m0 & m0' & He2 & Hr2 & _).
  apply node_inv in He2. destruct He2 as [He2 _].
  apply bind_inv in Hr2. destruct Hr2 as ([[xa' Hsa'] da'] & m1 & m1' & Ha2 & Hr2 & _).
  apply bind_inv in Hr2. destruct Hr2 as ([[xs' ps'] ds'] & m2 & m2' & Hsy2 & Hr2 & _).
  apply bind_inv in Hr2. destruct Hr2 as (c2 & m3 & m3' & Hc2 & Hq2 & _).
  apply node_inv in Hq2. destruct Hq2 as [Hq2 _].
  (* the layers *)
  assert (He : agree_upto t e1 e2)
    by (eapply expand_dims_causal; [exact Hs1|exact He1|exact He2|exact Hfeed]).
  assert (LH : Forall (layer_shaped filter_length) (combine (H_weights v) (H_biases v))).
  { apply layer_shaped_combine
      with (nf := n_filters) (cs := map (H_channels n_inputs n_filters) (seq 0 n_levels)).
    - rewrite SHw, map_map. reflexivity.
    - rewrite SHb, map_map. reflexivity. }
  assert (LG : Forall (layer_shaped filter_length)
                 (combine (rev (G_weights v)) (rev (G_biases v)))).
  { apply layer_shaped_combine
      with (nf := n_filters)
           (cs := map (G_channels n_levels n_filters) (rev (seq 0 n_levels))).
    - rewrite map_rev, SGw, <- map_rev, map_map. reflexivity.
    - rewrite map_rev, SGb, <- map_rev, map_map. reflexivity. }
  destruct (analysis_causal (t := t) _ LH He (Forall2_nil _) Ha1 Ha2)
    as (Hxa & HHs & Hd).
  simpl in Hxa, HHs, Hd. subst da'.
  assert (Hxs : agree_upto t (fst (fst (xs, ps, ds))) (fst (fst (xs', ps', ds')))).
  { eapply (synthesis_causal (t := t) (fl := filter_length));
      [|exact Hxa| |exact Hsy1|exact Hsy2]; [|exact I].
    apply stage_rel_combine; [|exact LG].
    apply Forall2_rev_both. exact HHs. }
  simpl in Hxs.
  assert (Hc : agree_upto t c1 c2).
  { eapply conv_causal; [| |exact Hc1|exact Hc2|exact Hxs]; reflexivity. }
  destruct (conv_inv _ _ _ _ Hc1 eq_refl eq_refl)
    as (nb' & nh' & nw' & xp & xc & _ & _ & _ & _ & _ & _ & Hy & _).
  eapply squeeze_causal; [exact Hy|exact Hq1|exact Hq2|exact Hc].
Qed.
End UfcnnCausal.

(** ** Reading the graph *)

Lemma conv_rates_skel {A} (ns : list (Node A)) :
  conv_rates ns = skel_rates (map skel ns).
Proof.
  unfold conv_rates, skel_rates.
  induction ns as [|nd ns IH]; simpl; [reflexivity|]. rewrite IH. reflexivity.
Qed.


Lemma skel_rates_app (l1 l2 : list (Op * list nat)) :
  skel_rates (l1 ++ l2) = skel_rates l1 ++ skel_rates l2.
Proof. apply flat_map_app. Qed.


Section SkeletonFacts.
Variables nb nw fl nf : nat.

Lemma rates_conv_skel d cin cout :
  skel_rates (conv_skel nb nw fl d cin cout) = [d].
Proof.
  unfold conv_skel, skel_rates, conv_op. simpl.
  destruct (Nat.eqb_spec d 1) as [->|]; reflexivity.
Qed.

Lemma rates_analysis_skel (cins : list nat) :
  forall d,
  skel_rates (analysis_skel nb nw fl nf cins d)
  = map (fun l => d * 2 ^ l) (seq 0 (length cins)).
Proof.
  induction cins as [|c rest IH]; intros d; [reflexivity|].
  cbn [analysis_skel length]. rewrite skel_rates_app, rates_conv_skel.
  change (skel_rates ((Relu, [nb; 1; nw; nf]) :: analysis_skel nb nw fl nf rest (d * 2)))
    with (skel_rates (analysis_skel nb nw fl nf rest (d * 2))).
  rewrite IH. cbn [seq map app]. rewrite <- seq_shift, map_map.
  f_equal; [simpl; lia|]. apply map_ext. intros l. simpl. lia.
Qed.

Lemma rates_synthesis_skel (k : nat) :
  forall first,
  skel_rates (synthesis_skel nb nw fl nf first k (2 ^ k))
  = map (fun l => 2 ^ (l + 1)) (rev (seq 0 k)).
Proof.
  induction k as [|k IH]; intros first; [reflexivity|].
  cbn [synthesis_skel]. rewrite !skel_rates_app, rates_conv_skel.
  change (skel_rates ((Relu, [nb; 1; nw; nf])
                      :: synthesis_skel nb nw fl nf false k (2 ^ S k / 2)))
    with (skel_rates (synthesis_skel nb nw fl nf false k (2 ^ S k / 2))).
  replace (2 ^ S k / 2) with (2 ^ k)
    by (rewrite Nat.pow_succ_r', Nat.mul_comm, Nat.div_mul; lia).
  rewrite IH, seq_S, rev_app_distr. cbn [rev app map Nat.add].
  replace (skel_rates (if first then [] else [(Concat 3, [nb; 1; nw; 2 * nf])]))
    with (@nil nat) by (destruct first; reflexivity).
  cbn [app]. f_equal. f_equal. lia.
Qed.




Lemma heights_conv_skel d cin cout :
  Forall (fun e => height_one (snd e)) (conv_skel nb nw fl d cin cout).
Proof. repeat constructor; simpl; eexists _, _, _; reflexivity. Qed.

Lemma heights_analysis_skel (cins : list nat) :
  forall d, Forall (fun e => height_one (snd e)) (analysis_skel nb nw fl nf cins d).
Proof.
  induction cins as [|c rest IH]; intros d; [constructor|].
  cbn [analysis_skel]. apply Forall_app. split; [apply heights_conv_skel|].
  constructor; [eexists _, _, _; reflexivity|apply IH].
Qed.

Lemma heights_synthesis_skel (k : nat) :
  forall first d,
  Forall (fun e => height_one (snd e)) (synthesis_skel nb nw fl nf first k d).
Proof.
  induction k as [|k IH]; intros first d; [constructor|].
  cbn [synthesis_skel]. apply Forall_app. split.
  { destruct first; repeat constructor. eexists _, _, _; reflexivity. }
  apply Forall_app. split; [apply heights_conv_skel|].
  constructor; [eexists _, _, _; reflexivity|apply IH].
Qed.

Lemma pads_conv_skel d cin cout :
  Forall (fun e => no_height_padding (fst e)) (conv_skel nb nw fl d cin cout).
Proof.
  unfold conv_skel, conv_op. repeat constructor. destruct (d =? 1); exact I.
Qed.

Lemma pads_analysis_skel (cins : list nat) :
  forall d, Forall (fun e => no_height_padding (fst e)) (analysis_skel nb nw fl nf cins d).
Proof.
  induction cins as [|c rest IH]; intros d; [constructor|].
  cbn [analysis_skel]. apply Forall_app. split; [apply pads_conv_skel|].
  constructor; [exact I|apply IH].
Qed.

Lemma pads_synthesis_skel (k : nat) :
  forall first d,
  Forall (fun e => no_height_padding (fst e)) (synthesis_skel nb nw fl nf first k d).
Proof.
  induction k as [|k IH]; intros first d; [constructor|].
  cbn [synthesis_skel]. apply Forall_app. split.
  { destruct first; repeat constructor. }
  apply Forall_app. split; [apply pads_conv_skel|].
  constructor; [exact I|apply IH].
Qed.
End SkeletonFacts.

(** ** The parameters for which the network exists *)

Section UfcnnValid.
Context {A : Type} `{Dtype A} `{Sampler A}.
Variables n_inputs n_outputs n_levels n_filters filter_length : nat.
Variable random_seed : option Z.

(** A prediction is only ever returned for a positive filter length, and
    with no level only when the final filter fits the input itself. *)
Lemma y_hat_valid (feed y : Tensor A) (ns : list (Node A)) :
  y_hat (construct_ufcnn n_inputs n_outputs n_levels n_filters filter_length random_seed) feed
  = Some (y, ns) ->
  1 <= filter_length /\ (n_levels = 0 -> n_inputs = n_filters).
Proof.
  rewrite y_hat_unfold. cbv zeta. intros Hrun.
  destruct (feedable [None; None; Some n_inputs] (shape feed)) eqn:Hfeed;
    [|discriminate].
  apply feedable_inv in Hfeed. destruct Hfeed as (nb & nw & Hfeed).
  apply bind_inv in Hrun. destruct Hrun as (e & l1 & l2 & He & Hrun & _).
  apply node_inv in He. destruct He as [He _].
  destruct (tf_expand_dims_1 _ He Hfeed) as (Hes & _ & _).
  apply bind_inv in Hrun. destruct Hrun as ([[x Hs] d] & l3 & l4 & Han & Hrun & _).
  apply bind_inv in Hrun. destruct Hrun as ([[x' xp] d'] & l5 & l6 & Hsy & Hrun & _).
  apply bind_inv in Hrun. destruct Hrun as (c & l7 & l8 & Hc & _ & _).
  destruct (@conv_inv _ _ _ _ _ _ _ _ _ n_filters n_outputs Hc eq_refl eq_refl)
    as (nb' & nh' & nw' & _ & _ & Hx' & Hfl & _).
  split; [exact Hfl|]. intros Hz.
  destruct (create_variables_lengths n_inputs n_levels n_filters filter_length
              random_seed) as (LHw & _ & LGw & _).
  cbv zeta in LHw, LGw.
  apply (fun E => eq_trans E Hz) in LHw, LGw.
  apply length_zero_iff_nil in LHw, LGw.
  rewrite LHw in Han. simpl in Han.
  apply ret_inv in Han. destruct Han as [[= -> -> ->] _].
  rewrite LGw in Hsy. simpl in Hsy.
  apply ret_inv in Hsy. destruct Hsy as [[= -> _ _] _].
  rewrite Hes in Hx'. injection Hx' as _ _ _ E. exact E.
Qed.
End UfcnnValid.

(** * The claims *)

Section NetworkClaims.
Context {A : Type} `{Dtype A} `{Sampler A}.
Variables n_inputs n_outputs n_levels n_filters filter_length : nat.
Variable random_seed : option Z.


(** Stronger form of causality: outputs agree up to and including the
    last time at which the inputs agree. *)
Lemma ufcnn_causal_upto (t : nat) (x x' y1 y2 : Tensor A) :
  agree_upto3 t x x' ->
  value (y_hat (construct_ufcnn n_inputs n_outputs n_levels n_filters filter_length random_seed) x) = Some y1 ->
  value (y_hat (construct_ufcnn n_inputs n_outputs n_levels n_filters filter_length random_seed) x') = Some y2 ->
  agree_upto3 t y1 y2.
Proof.
  intros Hag Hv1 Hv2. unfold value in Hv1, Hv2.
  destruct (y_hat (construct_ufcnn n_inputs n_outputs n_levels n_filters filter_length random_seed) x) as [[r1 ns1]|] eqn:Hr1; [|discriminate].
  destruct (y_hat (construct_ufcnn n_inputs n_outputs n_levels n_filters filter_length random_seed) x') as [[r2 ns2]|] eqn:Hr2; [|discriminate].
  simpl in Hv1, Hv2. injection Hv1 as ->. injection Hv2 as ->.
  exact (y_hat_causal _ _ _ _ _ _ Hag Hr1 Hr2).
Qed.

(** C1. Causality: for every parameterization of [construct_ufcnn] and
    every two input sequences of one shape that agree at all time
    positions [<= t], whatever they are after [t]: when the network
    returns a prediction for the first it returns one for the second, and
    the two predictions agree at every time position [< t]. *)
Theorem ufcnn_is_causal (t : nat) (x x' y1 : Tensor A) :
  shape x = shape x' -> wf x -> wf x' ->
  (forall b j k, in_range [b; j; k] (shape x) -> j <= t ->
     get x [b; j; k] = get x' [b; j; k]) ->
  value (y_hat (construct_ufcnn n_inputs n_outputs n_levels n_filters filter_length random_seed) x) = Some y1 ->
  exists y2,
    value (y_hat (construct_ufcnn n_inputs n_outputs n_levels n_filters filter_length random_seed) x') = Some y2 /\
    shape y1 = shape y2 /\
    forall b j k, in_range [b; j; k] (shape y1) -> j < t ->
      get y1 [b; j; k] = get y2 [b; j; k].
Proof.
  intros Hs Wx Wx' Hag Hv1.
  assert (Hv2 : exists y2,
             value (y_hat (construct_ufcnn n_inputs n_outputs n_levels n_filters
                             filter_length random_seed) x') = Some y2).
  { unfold value in Hv1.
    destruct (y_hat (construct_ufcnn n_inputs n_outputs n_levels n_filters
                       filter_length random_seed) x) as [[r ns]|] eqn:Hr;
      [|discriminate].
    destruct (y_hat_valid _ _ _ _ _ _ _ Hr) as [Hfl Hz].
    rewrite y_hat_unfold in Hr. cbv zeta in Hr.
    destruct (feedable [None; None; Some n_inputs] (shape x)) eqn:Hfeed;
      [|discriminate].
    apply feedable_inv in Hfeed. destruct Hfeed as (nb & nw & Hfeed).
    rewrite Hs in Hfeed.
    destruct (y_hat_run n_outputs random_seed x' Hfeed Hfl Hz)
      as (y & c & xp & xc & ns' & Hrun & _).
    cbv zeta in Hrun. exists y. rewrite Hrun. reflexivity. }
  destruct Hv2 as [y2 Hv2]. exists y2. split; [exact Hv2|].
  assert (Hup : agree_upto3 t y1 y2).
  { eapply ufcnn_causal_upto; [|exact Hv1|exact Hv2]. repeat split; assumption. }
  destruct Hup as (Hsy & _ & _ & Hy).
  split; [exact Hsy|]. intros b j k Hr Hj. apply Hy; [exact Hr|lia].
Qed.

(** C6. For every input of shape [(batch_size, n_samples, n_inputs)] fed
    to the network, the prediction has shape
    [(batch_size, n_samples, n_outputs)]; it is the output of the final
    convolution, which has dilation 1 and shape
    [(batch_size, 1, n_samples, n_outputs)], with the height axis
    squeezed away.  The parameters are those for which the graph can be
    built. *)
Theorem y_hat_shape (feed : Tensor A) (batch_size n_samples : nat) :
  shape feed = [batch_size; n_samples; n_inputs] ->
  1 <= filter_length ->
  (n_levels = 0 -> n_inputs = n_filters) ->
  exists y c xp xc ns,
    y_hat (construct_ufcnn n_inputs n_outputs n_levels n_filters filter_length random_seed) feed
    = Some (y, ns ++ [mkNode (Pad (time_padding (Z.of_nat 1 * (Z.of_nat filter_length - 1)))) xp;
                      mkNode Conv2D xc; mkNode Add c; mkNode (Squeeze [1]) y]) /\
    shape c = [batch_size; 1; n_samples; n_outputs] /\
    tf_squeeze c [1] = Some y /\
    shape y = [batch_size; n_samples; n_outputs].
Proof.
  intros Hfeed Hfl Hz.
  destruct (y_hat_run n_outputs random_seed feed Hfeed Hfl Hz)
    as (y & c & xp & xc & ns & Hrun & Sc & Sy & Hsq & _).
  exists y, c, xp, xc, ns. auto.
Qed.

(** C10. Every filter of the network has height 1, and for every
    parameterization and every input of shape
    [(batch_size, n_samples, n_inputs)]: when the prediction evaluates,
    no padding node touches the height axis, every tensor the graph
    computes between adding the height axis and removing it, the output
    of the final convolution included, has height exactly 1, and the final
    squeeze of axis 1 succeeds; it fails to evaluate only for a filter
    length of 0, or with no level and [n_inputs <> n_filters], for which a
    convolution is refused. *)
Theorem height_stays_one (feed : Tensor A) (batch_size n_samples : nat) :
  shape feed = [batch_size; n_samples; n_inputs] ->
  Forall (fun w => exists cin cout, shape w = [1; filter_length; cin; cout])
    (weights (construct_ufcnn n_inputs n_outputs n_levels n_filters filter_length random_seed)) /\
  match y_hat (construct_ufcnn n_inputs n_outputs n_levels n_filters filter_length random_seed) feed with
  | Some (y, ns) =>
      exists c ns',
        ns = ns' ++ [mkNode Add c; mkNode (Squeeze [1]) y] /\
        Forall (fun nd => height_one (shape (out nd)) /\ no_height_padding (op nd))
          (ns' ++ [mkNode Add c]) /\
        tf_squeeze c [1] = Some y
  | None => filter_length = 0 \/ (n_levels = 0 /\ n_inputs <> n_filters)
  end.
Proof.
  intros Hfeed. split.
  { destruct (create_variables_shapes n_inputs n_levels n_filters filter_length
                random_seed) as (SHw & _ & SGw & _).
    cbv zeta in SHw, SGw.
    unfold construct_ufcnn. cbn [init_normal weights].
    apply Forall_app; split; [|apply Forall_app; split].
    - apply (Forall_map shape (fun s => exists cin cout, s = [1; filter_length; cin; cout])).
      rewrite SHw. apply Forall_forall. intros s Hs.
      apply in_map_iff in Hs. destruct Hs as (l & <- & _). eexists _, _; reflexivity.
    - apply (Forall_map shape (fun s => exists cin cout, s = [1; filter_length; cin; cout])).
      rewrite SGw. apply Forall_forall. intros s Hs.
      apply in_map_iff in Hs. destruct Hs as (l & <- & _). eexists _, _; reflexivity.
    - repeat constructor. eexists _, _; reflexivity. }
  destruct (y_hat (construct_ufcnn n_inputs n_outputs n_levels n_filters filter_length
                     random_seed) feed) as [[y0 ns0]|] eqn:Hrun0.
  - destruct (y_hat_valid _ _ _ _ _ _ _ Hrun0) as [Hfl Hz].
    destruct (y_hat_run n_outputs random_seed feed Hfeed Hfl Hz)
      as (y & c & xp & xc & ns & Hrun & Sc & Sy & Hsq & Sk).
    cbv zeta in Hrun, Sk. rewrite Hrun0 in Hrun. injection Hrun as -> ->.
    set (pd := mkNode (Pad (time_padding (Z.of_nat 1 * (Z.of_nat filter_length - 1)))) xp)
      in *.
    exists c, (ns ++ [pd; mkNode Conv2D xc]).
    split; [rewrite <- app_assoc; reflexivity|]. split; [|exact Hsq].
    replace (ns ++ [pd; mkNode Conv2D xc; mkNode Add c; mkNode (Squeeze [1]) y])
      with (((ns ++ [pd; mkNode Conv2D xc]) ++ [mkNode Add c])
              ++ [mkNode (Squeeze [1]) y]) in Sk
      by (rewrite <- !app_assoc; reflexivity).
    rewrite map_app in Sk. unfold ufcnn_skel in Sk.
    rewrite !app_comm_cons, !app_assoc in Sk.
    apply app_inj_tail in Sk. destruct Sk as [Sk _].
    apply (Forall_map skel (fun e => height_one (snd e) /\ no_height_padding (fst e))).
    rewrite Sk. rewrite <- !app_assoc, <- app_comm_cons.
    apply Forall_and.
    + constructor; [eexists _, _, _; reflexivity|].
      apply Forall_app; split; [apply heights_analysis_skel|].
      apply Forall_app; split; [apply heights_synthesis_skel|apply heights_conv_skel].
    + constructor; [exact I|].
      apply Forall_app; split; [apply pads_analysis_skel|].
      apply Forall_app; split; [apply pads_synthesis_skel|apply pads_conv_skel].
  - destruct filter_length as [|fl'] eqn:Efl; [left; reflexivity|right].
    destruct (Nat.eq_dec n_levels 0) as [Hz|Hz];
      [destruct (Nat.eq_dec n_inputs n_filters) as [Hn|Hn]; [|auto]|].
    + exfalso.
      destruct (y_hat_run n_outputs random_seed feed Hfeed
                  (filter_length := S fl') (n_levels := n_levels)
                  (n_filters := n_filters) ltac:(lia) ltac:(auto))
        as (y & c & xp & xc & ns & Hrun & _).
      cbv zeta in Hrun. rewrite Hrun0 in Hrun. discriminate Hrun.
    + exfalso.
      destruct (y_hat_run n_outputs random_seed feed Hfeed
                  (filter_length := S fl') (n_levels := n_levels)
                  (n_filters := n_filters) ltac:(lia) ltac:(intros; lia))
        as (y & c & xp & xc & ns & Hrun & _).
      cbv zeta in Hrun. rewrite Hrun0 in Hrun. discriminate Hrun.
Qed.

(** C2, as the code has it.  The analysis layers use the dilations
    1, 2, 4, ..., one doubling per level; the synthesis layers, walked
    deepest first, use [2 ^ n_levels], ..., 4, 2, halving at each step:
    the synthesis layer of level [l] (counted from 0) runs with dilation
    [2 ^ (l + 1)], twice that of the analysis layer of its level; the
    final convolution uses 1. *)
Theorem conv_dilations (feed : Tensor A) (batch_size n_samples : nat) :
  shape feed = [batch_size; n_samples; n_inputs] ->
  1 <= filter_length ->
  (n_levels = 0 -> n_inputs = n_filters) ->
  conv_rates (nodes (y_hat (construct_ufcnn n_inputs n_outputs n_levels n_filters filter_length random_seed) feed))
  = map (fun l => 2 ^ l) (seq 0 n_levels)
    ++ map (fun l => 2 ^ (l + 1)) (rev (seq 0 n_levels))
    ++ [1].
Proof.
  intros Hfeed Hfl Hz.
  destruct (y_hat_run n_outputs random_seed feed Hfeed Hfl Hz)
    as (y & c & xp & xc & ns & Hrun & _ & _ & _ & Sk).
  cbv zeta in Hrun, Sk. rewrite Hrun. cbn [nodes].
  rewrite conv_rates_skel, Sk. unfold ufcnn_skel.
  change (skel_rates ((ExpandDims 1, [batch_size; 1; n_samples; n_inputs]) :: ?l))
    with (skel_rates l).
  rewrite !skel_rates_app, rates_analysis_skel, rates_synthesis_skel, rates_conv_skel.
  rewrite length_map, length_seq. simpl skel_rates. rewrite app_nil_r.
  f_equal. apply map_ext. intros l. lia.
Qed.


(** C4. The weight list and the bias list that [construct_ufcnn] returns
    each have [2 * n_levels + 1] entries: the [n_levels] analysis
    entries, then the [n_levels] synthesis entries, then the entry of the
    final layer. *)
Theorem weights_and_biases_order :
  let v := create_variables n_inputs n_levels n_filters filter_length random_seed in
  length (weights (construct_ufcnn n_inputs n_outputs n_levels n_filters filter_length random_seed)) = 2 * n_levels + 1 /\
  length (biases (construct_ufcnn n_inputs n_outputs n_levels n_filters filter_length random_seed)) = 2 * n_levels + 1 /\
  length (H_weights v) = n_levels /\ length (G_weights v) = n_levels /\
  length (H_biases v) = n_levels /\ length (G_biases v) = n_levels /\
  exists C_weights C_biases,
    weights (construct_ufcnn n_inputs n_outputs n_levels n_filters filter_length random_seed) = H_weights v ++ G_weights v ++ [C_weights] /\
    biases (construct_ufcnn n_inputs n_outputs n_levels n_filters filter_length random_seed) = H_biases v ++ G_biases v ++ [C_biases] /\
    shape C_weights = [1; filter_length; n_filters; n_outputs] /\
    shape C_biases = [n_outputs].
Proof.
  destruct (create_variables_lengths n_inputs n_levels n_filters filter_length
              random_seed) as (LHw & LHb & LGw & LGb).
  cbv zeta in *.
  unfold construct_ufcnn. cbn [init_normal weights biases].
  rewrite !length_app, LHw, LHb, LGw, LGb. cbn [length].
  repeat split; try lia.
  eexists _, _. repeat split.
Qed.
End NetworkClaims.

Section ConvClaim.
Context {A : Type} `{Dtype A}.

(** C5. For every activation tensor, filter, bias, filter length [>= 1]
    and dilation [>= 1], [conv] first pads the time axis with exactly
    [dilation * (filter_length - 1)] zeros on the left and nothing on
    the right, then convolves the padded tensor, with [tf.nn.conv2d]
    (taps next to each other) when the dilation is 1 and with
    [tf.nn.atrous_conv2d] (taps [dilation] apart) otherwise, and finally
    adds the bias, which is broadcast over batch, height and time. *)
Theorem conv_pads_then_convolves (x w b : Tensor A)
    (filter_length dilation nb nh nw nc : nat) :
  shape x = [nb; nh; nw; nc] -> 1 <= filter_length -> 1 <= dilation ->
  let p := dilation * (filter_length - 1) in
  let padding := time_padding (Z.of_nat dilation * (Z.of_nat filter_length - 1)) in
  exists xp,
    tf_pad x padding = Some xp /\
    shape xp = [nb; nh; p + nw; nc] /\
    (forall bi i j k, bi < nb -> i < nh -> k < nc ->
       (j < p -> get xp [bi; i; j; k] = dzero) /\
       (j < nw -> get xp [bi; i; p + j; k] = get x [bi; i; j; k])) /\
    conv x w b filter_length dilation
    = bind (node (Pad padding) (Some xp))
        (fun xp =>
           bind (if dilation =? 1
                 then node Conv2D (tf_nn_conv2d xp w)
                 else node (AtrousConv2D dilation) (tf_nn_atrous_conv2d xp w dilation))
             (fun xc => node Add (tf_add xc b))) /\
    tf_nn_conv2d xp w = valid_conv 1 xp w /\
    tf_nn_atrous_conv2d xp w dilation = valid_conv dilation xp w /\
    (forall xc y mb mh mw cout,
       shape xc = [mb; mh; mw; cout] -> shape b = [cout] ->
       tf_add xc b = Some y ->
       shape y = [mb; mh; mw; cout] /\
       forall bi i j k, bi < mb -> i < mh -> j < mw -> k < cout ->
         get y [bi; i; j; k] = dadd (get xc [bi; i; j; k]) (get b [k])).
Proof.
  intros Hx Hfl Hd p padding.
  destruct (tf_pad_time_ok x (p := Z.of_nat dilation * (Z.of_nat filter_length - 1)) Hx)
    as [xp Hpad]; [nia|].
  exists xp. fold padding in Hpad. split; [exact Hpad|].
  destruct (tf_pad_time_inv _ _ Hpad)
    as (nb' & nh' & nw' & nc' & Hx' & _ & Hxp & _ & Gxp).
  rewrite Hx in Hx'. injection Hx' as <- <- <- <-.
  rewrite pad_amount in Hxp, Gxp by assumption. fold p in Hxp, Gxp.
  split; [exact Hxp|]. split; [|split; [|split; [|split]]].
  - intros bi i j k Hbi Hi Hk. split; intros Hj.
    + rewrite Gxp by lia.
      replace (j <? p) with true by (symmetry; apply Nat.ltb_lt; exact Hj).
      reflexivity.
    + rewrite Gxp by lia.
      replace (p + j <? p) with false by (symmetry; apply Nat.ltb_ge; lia).
      replace (p + j - p) with j by lia. reflexivity.
  - unfold conv. fold (time_padding (Z.of_nat dilation * (Z.of_nat filter_length - 1))).
    fold padding. rewrite Hpad. reflexivity.
  - reflexivity.
  - unfold tf_nn_atrous_conv2d.
    replace (1 <=? dilation) with true by (symmetry; apply Nat.leb_le; exact Hd).
    reflexivity.
  - intros xc y mb mh mw cout Hxc Hb Hadd.
    destruct (tf_add_bias _ _ Hxc Hb Hadd) as (Hy & _ & Gy). auto.
Qed.
End ConvClaim.

(** ** Softmax *)

Lemma reshape_sizes_of_shape (s : list nat) :
  existsb (fun z => z <? -1)%Z (map Z.of_nat s) = false /\
  count_occ Z.eq_dec (map Z.of_nat s) (-1)%Z = 0 /\
  map Z.to_nat (map Z.of_nat s) = s.
Proof.
  induction s as [|n s (IH1 & IH3 & IH4)]; simpl; [auto|].
  rewrite IH1, IH4, Nat2Z.id.
  replace (Z.of_nat n <? -1)%Z with false by (symmetry; apply Z.ltb_ge; lia).
  destruct (Z.eq_dec (Z.of_nat n) (-1)) as [E|_]; [lia|]. simpl. auto.
Qed.

Lemma tf_reshape_to_shape {A} (x : Tensor A) (s : list nat) :
  tf_reshape x (map Z.of_nat s)
  = if numel s =? numel (shape x) then Some (mkTensor s (data x)) else None.
Proof.
  unfold tf_reshape.
  destruct (reshape_sizes_of_shape s) as (E1 & E3 & E4).
  rewrite E1, E3, E4. reflexivity.
Qed.

(** Flattening to rows of [c >= 1] entries. *)
Lemma tf_reshape_rows {A} (x : Tensor A) (c : nat) :
  1 <= c ->
  tf_reshape x [(-1)%Z; Z.of_nat c]
  = if c * (numel (shape x) / c) =? numel (shape x)
    then Some (mkTensor [numel (shape x) / c; c] (data x))
    else None.
Proof.
  intros Hc. unfold tf_reshape. cbn [existsb filter count_occ map].
  replace (Z.of_nat c <? -1)%Z with false by (symmetry; apply Z.ltb_ge; lia).
  replace (Z.of_nat c =? -1)%Z with false by (symmetry; apply Z.eqb_neq; lia).
  replace (Z.of_nat c =? 0)%Z with false by (symmetry; apply Z.eqb_neq; lia).
  replace (0 <? Z.of_nat c)%Z with true by (symmetry; apply Z.ltb_lt; lia).
  destruct (Z.eq_dec (-1) (-1)) as [_|N]; [|contradiction N; reflexivity].
  destruct (Z.eq_dec (Z.of_nat c) (-1)) as [E|_]; [lia|].
  change (-1 <? -1)%Z with false. change (-1 =? 0)%Z with false.
  change (0 <? -1)%Z with false. change (-1 =? -1)%Z with true.
  cbn [orb andb map filter].
  change (numel [Z.to_nat (Z.of_nat c)]) with (Z.to_nat (Z.of_nat c) * 1).
  rewrite Nat2Z.id, Nat.mul_1_r.
  change (numel [numel (shape x) / c; c]) with (numel (shape x) / c * (c * 1)).
  destruct (Nat.eqb_spec (c * (numel (shape x) / c)) (numel (shape x))) as [E|E];
    [|reflexivity].
  replace (numel (shape x) / c * (c * 1) =? numel (shape x)) with true
    by (symmetry; apply Nat.eqb_eq; lia).
  reflexivity.
Qed.

Lemma numel_zero (s : list nat) :
  existsb (fun n => n =? 0) s = true -> numel s = 0.
Proof.
  induction s as [|n s IH]; simpl; [discriminate|].
  destruct (Nat.eqb_spec n 0) as [->|_]; simpl; [reflexivity|].
  intros E. rewrite (IH E). lia.
Qed.

Lemma numel_live_pos (s : list nat) :
  1 <= numel (filter (fun n => negb (n =? 0)) s).
Proof.
  induction s as [|n s IH]; simpl; [lia|].
  destruct (Nat.eqb_spec n 0) as [->|Hn]; simpl; [exact IH|nia].
Qed.

(** Flattening an empty tensor to rows of no entry: the number of rows is
    the product of the axes that are not empty. *)
Lemma tf_reshape_rows_empty {A} (x : Tensor A) :
  existsb (fun n => n =? 0) (shape x) = true ->
  tf_reshape x [(-1)%Z; Z.of_nat 0]
  = Some (mkTensor [numel (filter (fun n => negb (n =? 0)) (shape x)); 0] (data x)).
Proof.
  intros Hz. unfold tf_reshape.
  cbn [existsb filter count_occ map Z.of_nat Z.eqb Z.ltb Z.compare orb andb].
  destruct (Z.eq_dec (-1) (-1)) as [_|N]; [|contradiction N; reflexivity].
  destruct (Z.eq_dec 0 (-1)) as [E|_]; [discriminate E|].
  rewrite Hz. cbn [orb andb map numel fold_right Z.to_nat].
  rewrite Nat.div_1_r, (numel_zero _ Hz), Nat.mul_0_l, Nat.mul_0_r.
  reflexivity.
Qed.

Lemma fold_left_Rplus_div (l : list R) (s a : R) :
  fold_left Rplus (map (fun v => v / s)%R l) (a / s)%R = (fold_left Rplus l a / s)%R.
Proof.
  revert a; induction l as [|v l IH]; intros a; simpl; [reflexivity|].
  rewrite <- IH. f_equal. unfold Rdiv. ring.
Qed.

Lemma dsum_div (l : list R) (s : R) :
  dsum (map (fun v => v / s)%R l) = (dsum l / s)%R.
Proof.
  unfold dsum. simpl. rewrite <- fold_left_Rplus_div. f_equal. unfold Rdiv. ring.
Qed.

Lemma fold_left_Rplus_pos (g : nat -> R) (l : list nat) :
  (forall x, 0 < g x)%R -> forall a, (0 < a)%R -> (0 < fold_left Rplus (map g l) a)%R.
Proof.
  intros Hg. induction l as [|x l IH]; intros a Ha; simpl; [exact Ha|].
  apply IH. specialize (Hg x). lra.
Qed.

Lemma dsum_exp_pos (g : nat -> R) (n : nat) :
  1 <= n -> (0 < dsum (map (fun j => exp (g j)) (seq 0 n)))%R.
Proof.
  intros Hn. destruct n as [|n]; [lia|]. unfold dsum. simpl.
  apply (fold_left_Rplus_pos (fun j => exp (g j))).
  - intros x. apply exp_pos.
  - rewrite Rplus_0_l. apply exp_pos.
Qed.

(** In exact arithmetic a softmax does not change when all scores are
    shifted by one number. *)
Lemma softmax_shift (g : nat -> R) (m : R) (n : nat) :
  1 <= n -> forall j,
  (exp (g j - m) / dsum (map (fun j' => exp (g j' - m)) (seq 0 n))
   = exp (g j) / dsum (map (fun j' => exp (g j')) (seq 0 n)))%R.
Proof.
  intros Hn j.
  pose proof (dsum_exp_pos g Hn) as HS. pose proof (exp_pos m) as Hm.
  assert (E : forall x, exp (x - m) = (exp x / exp m)%R).
  { intros x. unfold Rminus, Rdiv. rewrite exp_plus, exp_Ropp. reflexivity. }
  rewrite (map_ext _ (fun j' => (exp (g j') / exp m)%R)) by (intros j'; apply E).
  rewrite <- (map_map (fun j' => exp (g j')) (fun v => (v / exp m)%R)).
  rewrite dsum_div, E. field. split; lra.
Qed.

Section SoftmaxShape.
Context {A : Type} `{Dtype A} `{Exponential A}.
Variables (y : Tensor A) (batch_size n_samples n_classes : nat).
Hypothesis shape_y : shape y = [batch_size; n_samples; n_classes].

Lemma numel_rank3 :
  numel (shape y) = batch_size * n_samples * n_classes.
Proof. rewrite shape_y. simpl. lia. Qed.

(** The flattening inside [softmax]: on a 3-D tensor it always succeeds,
    and gives [batch_size * n_samples] rows unless the tensor has neither
    a class nor an entry. *)
Lemma softmax_flattens :
  exists rows,
    tf_reshape y [(-1)%Z; Z.of_nat n_classes] = Some (mkTensor [rows; n_classes] (data y)) /\
    rows * n_classes = batch_size * n_samples * n_classes /\
    (1 <= n_classes \/ 1 <= batch_size * n_samples -> rows = batch_size * n_samples).
Proof.
  destruct (Nat.eq_dec n_classes 0) as [E|E].
  - exists (numel (filter (fun n => negb (n =? 0)) (shape y))).
    rewrite E at 1. rewrite tf_reshape_rows_empty
      by (rewrite shape_y, E; simpl; rewrite !orb_true_r; reflexivity).
    rewrite E. split; [reflexivity|]. split; [lia|].
    intros [Hc|Hp]; [lia|]. rewrite shape_y, E.
    destruct batch_size as [|b]; [lia|]. destruct n_samples as [|t]; [lia|].
    simpl. lia.
  - exists (batch_size * n_samples).
    rewrite tf_reshape_rows, numel_rank3 by lia.
    rewrite Nat.div_mul by lia.
    replace (n_classes * (batch_size * n_samples) =? batch_size * n_samples * n_classes)
      with true by (symmetry; apply Nat.eqb_eq; lia).
    auto.
Qed.

Lemma softmax_unfolds :
  exists rows sf,
    tf_reshape y [(-1)%Z; Z.of_nat n_classes] = Some (mkTensor [rows; n_classes] (data y)) /\
    (1 <= n_classes \/ 1 <= batch_size * n_samples -> rows = batch_size * n_samples) /\
    tf_nn_softmax (mkTensor [rows; n_classes] (data y)) = Some sf /\
    shape sf = [rows; n_classes] /\
    (forall i j, i < rows -> j < n_classes ->
       get sf [i; j]
       = let flat := mkTensor [rows; n_classes] (data y) in
         let m := dmaximum (map (fun j' => get flat [i; j']) (seq 0 n_classes)) in
         ddiv (dexp (dsub (get flat [i; j]) m))
           (dsum (map (fun j' => dexp (dsub (get flat [i; j']) m)) (seq 0 n_classes)))) /\
    tf_reshape sf (map Z.of_nat (shape y)) = Some (mkTensor (shape y) (data sf)) /\
    softmax y = Some (mkTensor (shape y) (data sf)).
Proof.
  destruct softmax_flattens as (rows & Hflat & Hn & Hrows).
  exists rows. eexists. split; [exact Hflat|]. split; [exact Hrows|].
  split; [reflexivity|]. split; [reflexivity|]. split; [|split].
  - intros i j Hi Hj. rewrite get_build by (repeat constructor; assumption).
    reflexivity.
  - rewrite tf_reshape_to_shape. simpl shape at 2. rewrite numel_rank3.
    replace (batch_size * n_samples * n_classes =? numel [rows; n_classes])
      with true by (symmetry; apply Nat.eqb_eq; simpl; lia).
    reflexivity.
  - unfold softmax, tf_shape. rewrite shape_y at 1. cbn [nth_error].
    rewrite Hflat. cbn [obind tf_nn_softmax shape].
    rewrite tf_reshape_to_shape. simpl shape at 2. rewrite numel_rank3.
    replace (batch_size * n_samples * n_classes =? numel [rows; n_classes])
      with true by (symmetry; apply Nat.eqb_eq; simpl; lia).
    reflexivity.
Qed.
End SoftmaxShape.

Section SoftmaxFacts.
Variables (y : Tensor R) (batch_size n_samples n_classes : nat).
Hypothesis shape_y : shape y = [batch_size; n_samples; n_classes].

Lemma softmax_steps :
  1 <= n_classes ->
  exists sf,
    tf_reshape y [(-1)%Z; Z.of_nat n_classes] = Some (flattened y batch_size n_samples n_classes) /\
    tf_nn_softmax (flattened y batch_size n_samples n_classes) = Some sf /\
    shape sf = [batch_size * n_samples; n_classes] /\
    (forall i j, i < batch_size * n_samples -> j < n_classes ->
       get sf [i; j]
       = (exp (get (flattened y batch_size n_samples n_classes) [i; j])
          / dsum (map (fun j' => exp (get (flattened y batch_size n_samples n_classes) [i; j'])) (seq 0 n_classes)))%R) /\
    tf_reshape sf (map Z.of_nat (shape y)) = Some (mkTensor (shape y) (data sf)) /\
    softmax y = Some (mkTensor (shape y) (data sf)).
Proof.
  intros Hc.
  destruct (@softmax_unfolds R _ _ y batch_size n_samples n_classes shape_y)
    as (rows & sf & Hflat & Hrows & Hsf & Ssf & Gsf & Hback & Hsoft).
  rewrite (Hrows (or_introl Hc)) in *.
  exists sf. unfold flattened. repeat split; try assumption.
  intros i j Hi Hj. rewrite (Gsf i j Hi Hj). cbv zeta.
  exact (softmax_shift
           (fun j' => get (mkTensor [batch_size * n_samples; n_classes] (data y)) [i; j'])
           (dmaximum (map (fun j' => get (mkTensor [batch_size * n_samples; n_classes] (data y)) [i; j'])
                        (seq 0 n_classes)))
           Hc j).
Qed.

Lemma get_flattened b t c :
  get (flattened y batch_size n_samples n_classes) [b * n_samples + t; c] = get y [b; t; c].
Proof.
  unfold get, flattened. rewrite shape_y. simpl. f_equal. lia.
Qed.

Lemma softmax_entry (sf : Tensor R) b t c :
  softmax y = Some sf ->
  b < batch_size -> t < n_samples -> c < n_classes ->
  get sf [b; t; c]
  = (exp (get y [b; t; c])
     / dsum (map (fun j => exp (get y [b; t; j])) (seq 0 n_classes)))%R.
Proof.
  intros Hsf Hb Ht Hc.
  destruct softmax_steps as (sf2 & _ & _ & Hs2 & Gs2 & _ & Hsoft); [lia|].
  rewrite Hsoft in Hsf. injection Hsf as <-.
  assert (Hget : get (mkTensor (shape y) (data sf2)) [b; t; c]
                 = get sf2 [b * n_samples + t; c]).
  { unfold get. rewrite Hs2. simpl shape. rewrite shape_y. simpl. f_equal. lia. }
  rewrite Hget, Gs2 by nia.
  rewrite get_flattened. f_equal. f_equal.
  apply map_ext. intros j. rewrite get_flattened. reflexivity.
Qed.
End SoftmaxFacts.

Lemma nth_error_zero (s : list nat) :
  forall i, nth_error s i = Some 0 -> existsb (fun n => n =? 0) s = true.
Proof.
  induction s as [|n s IH]; intros [|i] Hi; simpl in Hi; try discriminate.
  - injection Hi as ->. reflexivity.
  - simpl. rewrite (IH _ Hi). apply orb_true_r.
Qed.

(** The same when the third axis is empty: the result is empty. *)
Lemma softmax_flat_empty {A} `{Dtype A} `{Exponential A} (y : Tensor A) :
  nth_error (shape y) 2 = Some 0 ->
  softmax y = Some (mkTensor (shape y) []).
Proof.
  intros Hc. pose proof (nth_error_zero _ _ Hc) as Hz.
  unfold softmax, tf_shape. rewrite Hc.
  rewrite tf_reshape_rows_empty by exact Hz.
  cbn [obind tf_nn_softmax shape].
  rewrite tf_reshape_to_shape. simpl shape at 2.
  replace (numel (shape y) =? numel [numel (filter (fun n => negb (n =? 0)) (shape y)); 0])
    with true by (symmetry; apply Nat.eqb_eq; rewrite (numel_zero _ Hz); simpl; lia).
  f_equal. f_equal. unfold build. cbn [data].
  generalize (numel (filter (fun n => negb (n =? 0)) (shape y))). intros n.
  simpl. generalize 0 at 1. induction n as [|n IH]; intros a; simpl; [reflexivity|].
  apply IH.
Qed.


Lemma softmax_preserves_shape {A} `{Dtype A} `{Exponential A} (y r : Tensor A) :
  softmax y = Some r -> shape r = shape y.
Proof.
  unfold softmax, tf_shape.
  destruct (nth_error (shape y) 2) as [c|]; [|discriminate].
  destruct (tf_reshape y [(-1)%Z; Z.of_nat c]) as [flat|]; [|discriminate].
  cbn [obind]. destruct (tf_nn_softmax flat) as [sf|]; [|discriminate].
  cbn [obind]. rewrite tf_reshape_to_shape.
  destruct (numel (shape y) =? numel (shape sf)); [|discriminate].
  intros [= <-]. reflexivity.
Qed.

(** C8.  For every 3-D tensor, in every arithmetic, [softmax] flattens the
    two leading axes into one, applies the softmax over the last axis of
    the flattened tensor, and restores the original shape: the returned
    tensor has the shape of the input and the entries of the flat
    softmax.  The flattened tensor has [batch_size * n_samples] rows; only
    for a tensor with neither a class nor an entry is the number of rows
    that of the positions on its non-empty axis. *)
Theorem softmax_round_trip {A} `{Dtype A} `{Exponential A}
    (y : Tensor A) (batch_size n_samples n_classes : nat) :
  shape y = [batch_size; n_samples; n_classes] ->
  exists rows flat sf r,
    tf_reshape y [(-1)%Z; Z.of_nat n_classes] = Some flat /\
    shape flat = [rows; n_classes] /\ data flat = data y /\
    (1 <= n_classes \/ 1 <= batch_size * n_samples -> rows = batch_size * n_samples) /\
    tf_nn_softmax flat = Some sf /\
    (forall i j, i < rows -> j < n_classes ->
       get sf [i; j]
       = let m := dmaximum (map (fun j' => get flat [i; j']) (seq 0 n_classes)) in
         ddiv (dexp (dsub (get flat [i; j]) m))
           (dsum (map (fun j' => dexp (dsub (get flat [i; j']) m)) (seq 0 n_classes)))) /\
    tf_reshape sf (map Z.of_nat (shape y)) = Some r /\
    data r = data sf /\
    softmax y = Some r /\
    shape r = shape y.
Proof.
  intros Hy.
  destruct (@softmax_unfolds A _ _ y batch_size n_samples n_classes Hy)
    as (rows & sf & Hflat & Hrows & Hsf & _ & Gsf & Hback & Hsoft).
  exists rows, (mkTensor [rows; n_classes] (data y)), sf, (mkTensor (shape y) (data sf)).
  repeat split; assumption.
Qed.

(** ** Mean squared error *)

Lemma map_tabulate {A B} (g : A -> B) (s : list nat) :
  forall f : list nat -> A,
  map g (tabulate s f) = tabulate s (fun idx => g (f idx)).
Proof.
  induction s as [|n s IH]; intros f; simpl; [reflexivity|].
  rewrite !flat_map_concat_map, concat_map, map_map. f_equal.
  apply map_ext. intros i. apply IH.
Qed.

Lemma tabulate_ext {A} (s : list nat) :
  forall f g : list nat -> A,
  (forall idx, in_range idx s -> f idx = g idx) -> tabulate s f = tabulate s g.
Proof.
  induction s as [|n s IH]; intros f g Hfg; simpl.
  - rewrite Hfg by constructor. reflexivity.
  - rewrite !flat_map_concat_map. f_equal.
    apply map_ext_in. intros i Hi. apply in_seq in Hi.
    apply IH. intros idx Hr. apply Hfg. constructor; [lia|exact Hr].
Qed.

Lemma Forall_tabulate {A} (P : A -> Prop) (s : list nat) :
  forall f : list nat -> A,
  (forall idx, in_range idx s -> P (f idx)) -> Forall P (tabulate s f).
Proof.
  induction s as [|n s IH]; intros f Hf; simpl.
  - constructor; [apply Hf; constructor|constructor].
  - apply Forall_flat_map. apply Forall_forall. intros i Hi. apply in_seq in Hi.
    apply IH. intros idx Hr. apply Hf. constructor; [lia|exact Hr].
Qed.

Lemma broadcast_rev_same (l : list nat) : broadcast_rev l l = Some l.
Proof.
  induction l as [|a l IH]; simpl; [reflexivity|].
  rewrite IH, Nat.eqb_refl. reflexivity.
Qed.

Lemma broadcast_shape_same (s : list nat) : broadcast_shape s s = Some s.
Proof.
  unfold broadcast_shape. rewrite broadcast_rev_same. simpl.
  rewrite rev_involutive. reflexivity.
Qed.

Lemma in_range_length (idx s : list nat) : in_range idx s -> length idx = length s.
Proof. induction 1; simpl; congruence. Qed.

Section MseFacts.
Context {A : Type} `{Dtype A}.

Lemma broadcast_index_same (s idx : list nat) :
  in_range idx s -> broadcast_index s idx = idx.
Proof.
  intros Hr. unfold broadcast_index.
  rewrite (in_range_length Hr), Nat.sub_diag. simpl.
  apply clamp_index_id. exact Hr.
Qed.

Lemma mse_loss_same_shape (y_hat y : Tensor A) :
  shape y_hat = shape y ->
  mse_loss y_hat y = Some (mkTensor [] [mean_squared_difference y_hat y]).
Proof.
  intros Hs. unfold mse_loss, tf_sub, broadcast_op.
  rewrite <- Hs, broadcast_shape_same. cbn [obind].
  unfold tf_reduce_mean, tf_square, build, mean_squared_difference.
  cbn [shape data]. rewrite map_tabulate.
  do 5 f_equal. apply tabulate_ext. intros idx Hr.
  rewrite broadcast_index_same by exact Hr. reflexivity.
Qed.
End MseFacts.

(** ** binary32 arithmetic *)

Section Rounding.
Variables prec emax : Z.
Hypothesis prec_pos : (0 < prec)%Z.

Local Open Scope Z_scope.

Lemma digits2_pos_size (p : positive) : digits2_pos p = Pos.size p.
Proof. induction p as [p IH|p IH|]; simpl; congruence. Qed.

Lemma Zdigits2_log2 (p : positive) : Zdigits2 (Zpos p) = Z.log2 (Zpos p) + 1.
Proof.
  unfold Zdigits2. rewrite digits2_pos_size.
  destruct p as [p|p|]; simpl; try reflexivity; rewrite Pos.add_1_r; reflexivity.
Qed.

Lemma shr_1_m (r : shr_record) :
  0 <= shr_m r -> shr_m (shr_1 r) = Z.shiftr (shr_m r) 1.
Proof.
  destruct r as [m rr ss]. simpl. intros Hm.
  destruct m as [|p|p]; [reflexivity| |lia].
  rewrite Z.shiftr_div_pow2 by lia. change (2 ^ 1) with 2.
  destruct p as [p|p|]; simpl shr_m.
  - rewrite Pos2Z.inj_xI. apply Z.div_unique with (r := 1); lia.
  - rewrite Pos2Z.inj_xO. apply Z.div_unique with (r := 0); lia.
  - reflexivity.
Qed.

Lemma iter_shr_1_m (n : positive) :
  forall r, 0 <= shr_m r ->
  shr_m (iter_pos shr_1 n r) = Z.shiftr (shr_m r) (Zpos n).
Proof.
  induction n as [n IH|n IH|]; intros r Hr; simpl iter_pos.
  - assert (H1 : 0 <= shr_m (shr_1 r))
      by (rewrite shr_1_m by exact Hr; apply Z.shiftr_nonneg; exact Hr).
    assert (H2 : 0 <= shr_m (iter_pos shr_1 n (shr_1 r)))
      by (rewrite IH by exact H1; apply Z.shiftr_nonneg; exact H1).
    rewrite IH by exact H2. rewrite IH by exact H1. rewrite shr_1_m by exact Hr.
    rewrite !Z.shiftr_shiftr by lia. f_equal. lia.
  - assert (H1 : 0 <= shr_m (iter_pos shr_1 n r))
      by (rewrite IH by exact Hr; apply Z.shiftr_nonneg; exact Hr).
    rewrite IH by exact H1. rewrite IH by exact Hr.
    rewrite Z.shiftr_shiftr by lia. f_equal. lia.
  - apply shr_1_m. exact Hr.
Qed.

Lemma shr_m_of_loc (m : Z) (l : location) : shr_m (shr_record_of_loc m l) = m.
Proof. destruct l as [|[| |]]; reflexivity. Qed.

(** Shifting to the exponent of the format keeps a mantissa positive
    when the number is not below the smallest subnormal. *)
Lemma shr_fexp_pos (m e : Z) (l : location) :
  0 < m -> emin prec emax <= e + Z.log2 m ->
  0 < shr_m (fst (shr_fexp prec emax m e l)) /\
  snd (shr_fexp prec emax m e l) + Z.log2 (shr_m (fst (shr_fexp prec emax m e l)))
  = e + Z.log2 m.
Proof.
  intros Hm He. unfold shr_fexp, shr.
  destruct m as [|p|p]; try lia.
  rewrite Zdigits2_log2.
  set (n := fexp prec emax (Z.log2 (Z.pos p) + 1 + e) - e).
  assert (Hn : n <= Z.log2 (Z.pos p)) by (unfold n, fexp; lia).
  destruct n as [|q|q] eqn:En; cbn [fst snd]; rewrite ?shr_m_of_loc; try (split; lia).
  rewrite iter_shr_1_m by (rewrite shr_m_of_loc; lia).
  rewrite shr_m_of_loc.
  assert (Hne : Z.shiftr (Z.pos p) (Z.pos q) <> 0).
  { intros E0. apply Z.shiftr_eq_0_iff in E0. destruct E0 as [E0|[_ E0]]; lia. }
  pose proof (proj2 (Z.shiftr_nonneg (Z.pos p) (Z.pos q)) (Pos2Z.is_nonneg p)).
  split; [lia|].
  rewrite Z.log2_shiftr by lia. lia.
Qed.

Lemma round_nearest_even_bounds (m : Z) (l : location) :
  m <= round_nearest_even m l <= m + 1.
Proof.
  destruct l as [|[| |]]; simpl; try lia. destruct (Z.even m); lia.
Qed.

(** Rounding a positive number that is not below the smallest subnormal
    gives a finite number or an infinity of the same sign. *)
Lemma binary_round_aux_kind (sx : bool) (m e : Z) (l : location) :
  0 < m -> emin prec emax <= e + Z.log2 m ->
  match binary_round_aux prec emax sx m e l with
  | S754_finite s _ _ | S754_infinity s => s = sx
  | _ => False
  end.
Proof.
  intros Hm He. unfold binary_round_aux.
  destruct (@shr_fexp_pos m e l Hm He) as [H1 E1].
  destruct (shr_fexp prec emax m e l) as [r1 e1]. cbn [fst snd] in H1, E1.
  pose proof (round_nearest_even_bounds (shr_m r1) (loc_of_shr_record r1)) as Hb.
  set (m2 := round_nearest_even (shr_m r1) (loc_of_shr_record r1)) in *.
  assert (Hm2 : 0 < m2) by lia.
  assert (He2 : emin prec emax <= e1 + Z.log2 m2).
  { pose proof (Z.log2_le_mono (shr_m r1) m2). lia. }
  destruct (@shr_fexp_pos m2 e1 loc_Exact Hm2 He2) as [H2 _].
  destruct (shr_fexp prec emax m2 e1 loc_Exact) as [r2 e2]. cbn [fst] in H2.
  destruct (shr_m r2) as [|p|p]; try lia.
  destruct (e2 <=? emax - prec); reflexivity.
Qed.

Lemma binary_round_kind (sx : bool) (p : positive) (e : Z) :
  emin prec emax <= e ->
  match binary_round prec emax sx p e with
  | S754_finite s _ _ | S754_infinity s => s = sx
  | _ => False
  end.
Proof.
  intros He. unfold binary_round, shl_align.
  set (e' := fexp prec emax (Z.pos (digits2_pos p) + e)).
  assert (He' : emin prec emax <= e') by (unfold e', fexp; lia).
  destruct (e' - e) as [|d|d]; apply binary_round_aux_kind;
    try reflexivity;
    match goal with
    | |- _ <= _ + Z.log2 (Z.pos ?q) => pose proof (Z.log2_nonneg (Z.pos q)); lia
    end.
Qed.
End Rounding.

Lemma f32_count_kind (n : nat) :
  1 <= n ->
  match (dcount n : float32) with
  | S754_finite s _ _ | S754_infinity s => s = false
  | _ => False
  end.
Proof.
  intros Hn. cbn [dcount float32_dtype]. unfold binary_normalize.
  destruct (Z.of_nat n) as [|p|p] eqn:En; try lia.
  apply binary_round_kind; [reflexivity|].
  unfold emin, f32_emax, f32_prec. lia.
Qed.

Lemma f32_sub_self (x : float32) :
  f32_finite x = true -> dsub x x = S754_zero false.
Proof.
  destruct x as [s|s| |s m e]; simpl; try discriminate; intros _.
  - destruct s; reflexivity.
  - unfold SFsub. rewrite Z.sub_diag. reflexivity.
Qed.

Lemma f32_sum_zeros (l : list float32) :
  Forall (fun v => v = S754_zero false) l -> dsum l = S754_zero false.
Proof.
  unfold dsum. cbn [dzero dadd float32_dtype].
  induction 1 as [|v l -> _ IH]; simpl; [reflexivity|exact IH].
Qed.

Lemma f32_zero_over_count (n : nat) :
  1 <= n -> ddiv (S754_zero false) (dcount n : float32) = S754_zero false.
Proof.
  intros Hn. pose proof (f32_count_kind Hn) as Hk.
  cbn [ddiv float32_dtype].
  destruct (dcount n : float32) as [s|s| |s m e]; try contradiction; subst s;
    reflexivity.
Qed.

Lemma f32_mean_squared_self (y : Tensor float32) :
  wf y -> 1 <= numel (shape y) -> forallb f32_finite (data y) = true ->
  mean_squared_difference y y = S754_zero false.
Proof.
  intros Wy Hn Hfin. unfold mean_squared_difference.
  rewrite f32_sum_zeros; [apply f32_zero_over_count; exact Hn|].
  apply Forall_tabulate. intros idx Hr. cbv zeta.
  rewrite f32_sub_self; [reflexivity|].
  rewrite forallb_forall in Hfin. apply Hfin.
  unfold get. apply nth_In. apply get_in_data; assumption.
Qed.

(** C9, amended.  [mse_loss] returns the scalar mean of the squared
    elementwise differences of its two same-shaped arguments, whatever the
    element type; and on binary32 tensors [mse_loss(y, y)] is zero for
    every tensor [y] that has at least one entry and whose entries are all
    finite. *)
Theorem mse_loss_mean_and_zero :
  (forall (A : Type) (D : Dtype A) (y_hat y : Tensor A),
     shape y_hat = shape y ->
     mse_loss y_hat y = Some (mkTensor [] [mean_squared_difference y_hat y])) /\
  (forall y : Tensor float32,
     wf y -> 1 <= numel (shape y) -> forallb f32_finite (data y) = true ->
     mse_loss y y = Some (mkTensor [] [S754_zero false])).
Proof.
  split.
  - intros A D y_hat y Hs. apply mse_loss_same_shape. exact Hs.
  - intros y Wy Hn Hfin. rewrite mse_loss_same_shape by reflexivity.
    rewrite f32_mean_squared_self by assumption. reflexivity.
Qed.

(** C9 as stated fails: the mean squared error of a tensor holding an
    infinity with itself is NaN, which is not equal to zero, and so is that
    of the empty tensor. *)
Lemma mse_loss_self_not_zero :
  let inf := mkTensor [1] [S754_infinity false] : Tensor float32 in
  let empty := mkTensor [0] [] : Tensor float32 in
  wf inf /\ wf empty /\
  ~ (exists r, mse_loss inf inf = Some (mkTensor [] [r])
               /\ SFeqb r (S754_zero false) = true) /\
  ~ (exists r, mse_loss empty empty = Some (mkTensor [] [r])
               /\ SFeqb r (S754_zero false) = true).
Proof.
  cbv zeta. repeat split.
  - intros (r & Hr & Hz). vm_compute in Hr. injection Hr as <-. discriminate Hz.
  - intros (r & Hr & Hz). vm_compute in Hr. injection Hr as <-. discriminate Hz.
Qed.


(** * Further properties of the module *)

(** ** [conv] *)

Section ConvFurther.
Context {A : Type} `{Dtype A}.

Lemma conv_terms_causal (x xp w : Tensor A) (d fl cin nb nh nw b i j k : nat) :
  b < nb -> i < nh -> j < nw ->
  (forall bi i' j' q, bi < nb -> i' < nh -> j' < d * (fl - 1) + nw -> q < cin ->
     get xp [bi; i'; j'; q]
     = if j' <? d * (fl - 1) then dzero else get x [bi; i'; j' - d * (fl - 1); q]) ->
  conv_terms xp w d 1 fl cin b i j k = causal_terms x w d fl cin b i j k.
Proof.
  intros Hb Hi Hj Gxp. unfold conv_terms, causal_terms.
  cbn [seq flat_map]. rewrite app_nil_r.
  rewrite !flat_map_concat_map. f_equal.
  apply map_ext_in. intros dj Hdj. apply in_seq in Hdj.
  apply map_ext_in. intros q Hq. apply in_seq in Hq.
  rewrite Nat.mul_0_r, Nat.add_0_r.
  rewrite Gxp by nia. reflexivity.
Qed.

(** X1.  Given a filter of shape [(1, filter_length, cin, cout)] and a bias
    of shape [(cout)], [conv] returns only if the filter length and the
    dilation are at least 1 and the input is a 4-D tensor with [cin]
    channels: with a filter length or a dilation of 0, an input of another
    rank or another number of channels, it fails.  Its result has the batch,
    height and time sizes of the input and [cout] channels, and the graph
    got three nodes.  On every such input with no empty axis, and a filter
    with at least one output channel, it does return. *)
Theorem conv_domain (x w b : Tensor A) (filter_length dilation cin cout : nat) :
  shape w = [1; filter_length; cin; cout] -> shape b = [cout] ->
  (forall y ns, conv x w b filter_length dilation = Some (y, ns) ->
     1 <= filter_length /\ 1 <= dilation /\
     exists nb nh nw,
       shape x = [nb; nh; nw; cin] /\ shape y = [nb; nh; nw; cout] /\
       length ns = 3) /\
  (forall nb nh nw,
     shape x = [nb; nh; nw; cin] -> 1 <= filter_length -> 1 <= dilation ->
     1 <= nb -> 1 <= nh -> 1 <= nw -> 1 <= cin -> 1 <= cout ->
     exists y ns, conv x w b filter_length dilation = Some (y, ns)).
Proof.
  intros Hw Hb. split.
  - intros y ns Hc.
    destruct (conv_inv _ _ _ _ Hc Hw Hb)
      as (nb & nh & nw & xp & xc & Hx & Hfl & Hd & -> & _ & _ & Hy & _).
    split; [exact Hfl|]. split; [exact Hd|]. exists nb, nh, nw. auto.
  - intros nb nh nw Hx Hfl Hd _ _ _ _ _.
    exact (conv_ok x w b Hx Hw Hb Hfl Hd).
Qed.

(** X2.  The result of [conv] in closed form: the output at time [j] is the
    bias plus the sum over the taps [dj] and the input channels [q] of the
    filter value times the input at time [j - d * (filter_length - 1 - dj)],
    which is never after [j], and zero when that is before the start. *)
Theorem conv_closed_form (x w b : Tensor A)
    (filter_length dilation nb nh nw cin cout : nat) :
  shape x = [nb; nh; nw; cin] ->
  shape w = [1; filter_length; cin; cout] -> shape b = [cout] ->
  1 <= filter_length -> 1 <= dilation ->
  exists y ns,
    conv x w b filter_length dilation = Some (y, ns) /\
    shape y = [nb; nh; nw; cout] /\
    forall bi i j k, bi < nb -> i < nh -> j < nw -> k < cout ->
      get y [bi; i; j; k]
      = dadd (dsum (causal_terms x w dilation filter_length cin bi i j k))
             (get b [k]).
Proof.
  intros Hx Hw Hb Hfl Hd.
  destruct (conv_ok x w b Hx Hw Hb Hfl Hd) as (y & ns & Hc).
  exists y, ns. split; [exact Hc|].
  destruct (conv_inv _ _ _ _ Hc Hw Hb)
    as (nb' & nh' & nw' & xp & xc & Hx' & _ & _ & _ & _ & _ & Hy & _ & Gxp & Gy).
  rewrite Hx in Hx'. injection Hx' as <- <- <-.
  split; [exact Hy|].
  intros bi i j k Hbi Hi Hj Hk. rewrite Gy by assumption.
  f_equal. f_equal. eapply conv_terms_causal; eassumption.
Qed.
End ConvFurther.

(** ** What an output entry depends on *)

Section Locality.
Context {A : Type} `{Dtype A}.

Lemma agree_on_weaken (P Q : nat -> nat -> Prop) (a b : Tensor A) :
  (forall bi j, Q bi j -> P bi j) -> agree_on P a b -> agree_on Q a b.
Proof.
  intros HQP (Hs & Wa & Wb & Hag). repeat split; try assumption.
  intros bi i j k Hr HQ. apply Hag; [exact Hr|apply HQP; exact HQ].
Qed.

(** The output of [conv] at a time depends on the input of the same batch
    element at that time and the [d * (fl - 1)] time steps before it. *)
Lemma conv_local (P Q : nat -> nat -> Prop) (x x' w b y y' : Tensor A)
    ns ns' fl d cin cout :
  shape w = [1; fl; cin; cout] -> shape b = [cout] ->
  conv x w b fl d = Some (y, ns) -> conv x' w b fl d = Some (y', ns') ->
  (forall bi j j', Q bi j -> j' <= j -> j <= j' + d * (fl - 1) -> P bi j') ->
  agree_on P x x' -> agree_on Q y y'.
Proof.
  intros Hw Hb Hc Hc' HQP (Hs & Wx & Wx' & Hag).
  destruct (conv_inv _ _ _ _ Hc Hw Hb)
    as (nb & nh & nw & xp & xc & Hx & Hfl & Hd & _ & _ & _ & Hy & Wy & Gxp & Gy).
  destruct (conv_inv _ _ _ _ Hc' Hw Hb)
    as (nb' & nh' & nw' & xp' & xc' & Hx' & _ & _ & _ & _ & _ & Hy' & Wy' & Gxp' & Gy').
  rewrite Hs, Hx' in Hx. injection Hx as -> -> ->.
  rewrite <- Hs in Hx'.
  repeat split; try assumption; [congruence|].
  intros bi i j k Hr HQ. rewrite Hy in Hr. apply in_range4 in Hr.
  destruct Hr as (Hbi & Hi & Hjw & Hk).
  rewrite Gy, Gy' by assumption. f_equal. f_equal.
  apply conv_terms_ext. intros di dj q Hdi Hdj Hq.
  assert (di = 0) by lia; subst di.
  rewrite Gxp, Gxp' by nia.
  destruct (Nat.ltb_spec (j + d * dj) (d * (fl - 1))) as [Hlt|Hge]; [reflexivity|].
  apply Hag.
  - rewrite Hx'. apply in_range4. repeat split; nia.
  - apply (HQP bi j); [exact HQ|nia|nia].
Qed.

Lemma relu_local (P : nat -> nat -> Prop) (c c' : Tensor A) :
  agree_on P c c' -> agree_on P (tf_nn_relu c) (tf_nn_relu c').
Proof.
  intros (Hs & Wc & Wc' & Hag).
  repeat split; try (apply wf_relu; assumption); [exact Hs|].
  intros bi i j k Hr HP. simpl in Hr.
  rewrite !get_relu; try assumption; [|rewrite <- Hs; assumption].
  f_equal. apply Hag; assumption.
Qed.

Lemma concat_local (P : nat -> nat -> Prop) (p p' x x' c c' : Tensor A) nb nh nw c1 :
  shape p = [nb; nh; nw; c1] ->
  tf_concat 3 [p; x] = Some c -> tf_concat 3 [p'; x'] = Some c' ->
  agree_on P p p' -> agree_on P x x' -> agree_on P c c'.
Proof.
  intros Hp Hc Hc' (Hsp & _ & _ & Hagp) (Hsx & _ & _ & Hagx).
  destruct (tf_concat3_inv _ _ Hc Hp) as (c2 & Hx & Hcs & Wc & Gc).
  assert (Hp' : shape p' = [nb; nh; nw; c1]) by congruence.
  destruct (tf_concat3_inv _ _ Hc' Hp') as (c2' & Hx' & Hcs' & Wc' & Gc').
  assert (c2' = c2) by congruence. subst c2'.
  repeat split; try assumption; [congruence|].
  intros bi i j k Hr HP. rewrite Hcs in Hr. apply in_range4 in Hr.
  destruct Hr as (Hbi & Hi & Hjw & Hk).
  rewrite Gc, Gc' by assumption.
  destruct (Nat.ltb_spec k c1) as [Hlt|Hge].
  - apply Hagp; [|assumption]. rewrite Hp. apply in_range4; tauto.
  - apply Hagx; [|assumption]. rewrite Hx. apply in_range4.
    repeat split; try assumption; lia.
Qed.

Lemma expand_dims_local (P : nat -> nat -> Prop) (x x' e e' : Tensor A) nb nw nc :
  shape x = [nb; nw; nc] ->
  tf_expand_dims x 1 = Some e -> tf_expand_dims x' 1 = Some e' ->
  agree_on3 P x x' -> agree_on P e e'.
Proof.
  intros Hx He He' (Hs & Wx & Wx' & Hag).
  assert (Hx' : shape x' = [nb; nw; nc]) by congruence.
  destruct (tf_expand_dims_1 _ He Hx) as (Hes & Hed & Ge).
  destruct (tf_expand_dims_1 _ He' Hx') as (Hes' & Hed' & Ge').
  assert (Hn : numel [nb; 1; nw; nc] = numel [nb; nw; nc]) by (simpl; lia).
  repeat split.
  - congruence.
  - unfold wf. rewrite Hes, Hed, Hn, <- Hx. exact Wx.
  - unfold wf. rewrite Hes', Hed', Hn, <- Hx'. exact Wx'.
  - intros bi i j k Hr HP. rewrite Hes in Hr. apply in_range4 in Hr.
    destruct Hr as (Hbi & Hi & Hjw & Hk).
    assert (i = 0) by lia; subst i.
    rewrite Ge, Ge'. apply Hag; [|assumption].
    rewrite Hx. apply in_range3; tauto.
Qed.

Lemma squeeze_local (P : nat -> nat -> Prop) (y y' s s' : Tensor A) nb nh nw nc :
  shape y = [nb; nh; nw; nc] ->
  tf_squeeze y [1] = Some s -> tf_squeeze y' [1] = Some s' ->
  agree_on P y y' -> agree_on3 P s s'.
Proof.
  intros Hy Hq Hq' (Hs & Wy & Wy' & Hag).
  assert (Hy' : shape y' = [nb; nh; nw; nc]) by congruence.
  destruct (tf_squeeze_1 _ Hq Hy) as (-> & Hss & Hsd & Gs).
  destruct (tf_squeeze_1 _ Hq' Hy') as (_ & Hss' & Hsd' & Gs').
  assert (Hn : numel [nb; nw; nc] = numel [nb; 1; nw; nc]) by (simpl; lia).
  repeat split.
  - congruence.
  - unfold wf. rewrite Hss, Hsd, Hn, <- Hy. exact Wy.
  - unfold wf. rewrite Hss', Hsd', Hn, <- Hy'. exact Wy'.
  - intros bi j k Hr HP. rewrite Hss in Hr. apply in_range3 in Hr.
    rewrite Gs, Gs'. apply Hag; [|assumption].
    rewrite Hy. apply in_range4. repeat split; try tauto; lia.
Qed.

Variables (b0 s t fl : nat).

Lemma window_conv (m d : nat) (bi j j' : nat) :
  window b0 s t (m + d * (fl - 1)) bi j -> j' <= j -> j <= j' + d * (fl - 1) ->
  window b0 s t m bi j'.
Proof. unfold window. intros (Hb & Hlo & Hhi) H1 H2. repeat split; lia. Qed.

Lemma window_later (m m' : nat) (bi j : nat) :
  m <= m' -> window b0 s t m' bi j -> window b0 s t m bi j.
Proof. unfold window. intros Hm (Hb & Hlo & Hhi). repeat split; lia. Qed.

Lemma stage_rel_on_combine (P : nat -> nat -> Prop) (xs1 xs2 : list (Tensor A)) :
  Forall2 (agree_on P) xs1 xs2 ->
  forall wbs, Forall (layer_shaped fl) wbs ->
  Forall2 (stage_rel_on P fl) (combine xs1 wbs) (combine xs2 wbs).
Proof.
  induction 1 as [|a b xs1 xs2 Hab _ IH]; intros [|wb wbs] Hwb; simpl;
    try constructor.
  - inversion Hwb; subst. unfold stage_rel_on; simpl.
    split; [exact Hab|]. split; [reflexivity|assumption].
  - inversion Hwb; subst. apply IH; assumption.
Qed.

Lemma analysis_local (M : nat) (wb : list (Tensor A * Tensor A)) :
  forall x1 x2 Hs1 Hs2 d m r1 r2 ns1 ns2,
  Forall (layer_shaped fl) wb ->
  agree_on (window b0 s t m) x1 x2 ->
  Forall2 (agree_on (window b0 s t M)) Hs1 Hs2 ->
  m + analysis_reach fl (length wb) d <= M ->
  analysis fl wb (x1, Hs1, d) = Some (r1, ns1) ->
  analysis fl wb (x2, Hs2, d) = Some (r2, ns2) ->
  agree_on (window b0 s t (m + analysis_reach fl (length wb) d))
    (fst (fst r1)) (fst (fst r2)) /\
  Forall2 (agree_on (window b0 s t M)) (snd (fst r1)) (snd (fst r2)) /\
  length (snd (fst r1)) = length Hs1 + length wb /\
  snd r1 = d * 2 ^ length wb /\ snd r2 = d * 2 ^ length wb.
Proof.
  induction wb as [|[w b] rest IH];
    intros x1 x2 Hs1 Hs2 d m r1 r2 ns1 ns2 Hwb Hx HHs HM Hr1 Hr2.
  - simpl in Hr1, Hr2. apply ret_inv in Hr1, Hr2.
    destruct Hr1 as [-> _], Hr2 as [-> _]. simpl.
    rewrite !Nat.add_0_r, Nat.mul_1_r. auto.
  - cbn [analysis] in Hr1, Hr2. cbn [length analysis_reach] in HM |- *.
    inversion Hwb as [|? ? (cin & cout & Hw & Hb) Hrest]; subst. simpl in Hw, Hb.
    apply bind_inv in Hr1. destruct Hr1 as (c1 & l1 & l1' & Hc1 & Hr1 & _).
    apply bind_inv in Hr1. destruct Hr1 as (y1 & l2 & l2' & Hy1 & Hr1 & _).
    apply node_inv in Hy1. destruct Hy1 as [[= <-] _].
    apply bind_inv in Hr2. destruct Hr2 as (c2 & m1 & m1' & Hc2 & Hr2 & _).
    apply bind_inv in Hr2. destruct Hr2 as (y2 & m2 & m2' & Hy2 & Hr2 & _).
    apply node_inv in Hy2. destruct Hy2 as [[= <-] _].
    assert (Hag : agree_on (window b0 s t (m + d * (fl - 1)))
                    (tf_nn_relu c1) (tf_nn_relu c2)).
    { apply relu_local.
      eapply conv_local; [exact Hw|exact Hb|exact Hc1|exact Hc2| |exact Hx].
      intros bi j j'. apply window_conv. }
    assert (HHs2 : Forall2 (agree_on (window b0 s t M))
                     (Hs1 ++ [tf_nn_relu c1]) (Hs2 ++ [tf_nn_relu c2])).
    { apply Forall2_app; [exact HHs|]. constructor; [|constructor].
      eapply agree_on_weaken; [|exact Hag].
      intros bi j. apply window_later. lia. }
    assert (HM2 : m + d * (fl - 1) + analysis_reach fl (length rest) (d * 2) <= M)
      by lia.
    destruct (IH _ _ _ _ _ _ _ _ _ _ Hrest Hag HHs2 HM2 Hr1 Hr2)
      as (Hx' & HHs' & Hlen & Hd1 & Hd2).
    rewrite Nat.add_assoc. split; [exact Hx'|]. split; [exact HHs'|].
    rewrite Hlen, Hd1, Hd2, length_app. simpl length.
    rewrite Nat.pow_succ_r'. repeat split; lia.
Qed.

Lemma synthesis_local (M0 : nat) (xwb1 xwb2 : list (Tensor A * (Tensor A * Tensor A))) :
  Forall2 (stage_rel_on (window b0 s t M0) fl) xwb1 xwb2 ->
  forall x1 x2 p1 p2 d m r1 r2 ns1 ns2,
  M0 <= m ->
  agree_on (window b0 s t m) x1 x2 -> prev_rel_on (window b0 s t m) p1 p2 ->
  synthesis fl xwb1 (x1, p1, d) = Some (r1, ns1) ->
  synthesis fl xwb2 (x2, p2, d) = Some (r2, ns2) ->
  agree_on (window b0 s t (m + synthesis_reach fl (length xwb1) d))
    (fst (fst r1)) (fst (fst r2)).
Proof.
  induction 1 as [|[xa [w b]] [xb [w' b']] rest1 rest2 Hrel _ IH];
    intros x1 x2 p1 p2 d m r1 r2 ns1 ns2 HM Hx Hp Hr1 Hr2.
  - simpl in Hr1, Hr2. apply ret_inv in Hr1, Hr2.
    destruct Hr1 as [-> _], Hr2 as [-> _]. simpl. rewrite Nat.add_0_r. exact Hx.
  - destruct Hrel as (Hxab & Heq & (cin & cout & Hw & Hb)).
    simpl in Hxab, Heq, Hw, Hb. injection Heq as <- <-.
    cbn [synthesis] in Hr1, Hr2. cbn [length synthesis_reach].
    apply bind_inv in Hr1. destruct Hr1 as (i1 & l0 & l0' & Hi1 & Hr1 & _).
    apply bind_inv in Hr1. destruct Hr1 as (c1 & l1 & l1' & Hc1 & Hr1 & _).
    apply bind_inv in Hr1. destruct Hr1 as (y1 & l2 & l2' & Hy1 & Hr1 & _).
    apply node_inv in Hy1. destruct Hy1 as [[= <-] _].
    apply bind_inv in Hr2. destruct Hr2 as (i2 & m0 & m0' & Hi2 & Hr2 & _).
    apply bind_inv in Hr2. destruct Hr2 as (c2 & m1 & m1' & Hc2 & Hr2 & _).
    apply bind_inv in Hr2. destruct Hr2 as (y2 & m2 & m2' & Hy2 & Hr2 & _).
    apply node_inv in Hy2. destruct Hy2 as [[= <-] _].
    assert (Hxab' : agree_on (window b0 s t m) xa xb).
    { eapply agree_on_weaken; [|exact Hxab]. intros bi j. apply window_later. exact HM. }
    assert (Hi : agree_on (window b0 s t m) i1 i2).
    { destruct p1 as [a|], p2 as [a'|]; simpl in Hp; try contradiction.
      - destruct Hp as [Hpa Hlen].
        destruct (length4_inv _ Hlen) as (nb & nh & nw & ca & Hsa).
        apply node_inv in Hi1, Hi2.
        destruct Hi1 as [Hi1 _], Hi2 as [Hi2 _].
        eapply concat_local; [exact Hsa|exact Hi1|exact Hi2|exact Hpa|exact Hxab'].
      - apply ret_inv in Hi1, Hi2. destruct Hi1 as [-> _], Hi2 as [-> _].
        exact Hxab'. }
    assert (Hag : agree_on (window b0 s t (m + d * (fl - 1)))
                    (tf_nn_relu c1) (tf_nn_relu c2)).
    { apply relu_local.
      eapply conv_local; [exact Hw|exact Hb|exact Hc1|exact Hc2| |exact Hi].
      intros bi j j'. apply window_conv. }
    rewrite Nat.add_assoc.
    eapply (IH _ _ _ _ _ (m + d * (fl - 1)));
      [apply Nat.le_trans with m; [exact HM|apply Nat.le_add_r]
      |exact Hag| |exact Hr1|exact Hr2].
    simpl. split; [exact Hag|].
    destruct (conv_inv _ _ _ _ Hc1 Hw Hb)
      as (nb & nh & nw & xp & xc & _ & _ & _ & _ & _ & _ & Hy & _).
    simpl. rewrite Hy. reflexivity.
Qed.
End Locality.

Lemma analysis_reach_closed (fl k : nat) :
  forall d, analysis_reach fl k d + d * (fl - 1) = d * (fl - 1) * 2 ^ k.
Proof.
  induction k as [|k IH]; intros d; cbn [analysis_reach].
  - rewrite Nat.pow_0_r. lia.
  - rewrite Nat.pow_succ_r'. specialize (IH (d * 2)). nia.
Qed.

Lemma synthesis_reach_closed (fl k : nat) :
  forall m, k <= m ->
  synthesis_reach fl k (2 ^ m) + (fl - 1) * 2 ^ (m - k + 1) = (fl - 1) * 2 ^ (m + 1).
Proof.
  induction k as [|k IH]; intros m Hk; cbn [synthesis_reach].
  - rewrite Nat.sub_0_r. reflexivity.
  - destruct m as [|m]; [lia|].
    replace (2 ^ S m / 2) with (2 ^ m)
      by (rewrite Nat.pow_succ_r', Nat.mul_comm, Nat.div_mul by lia; reflexivity).
    specialize (IH m ltac:(lia)).
    replace (S m - S k + 1) with (m - k + 1) by lia.
    replace (S m + 1) with (S (m + 1)) by lia.
    rewrite (Nat.pow_succ_r' 2 (m + 1)).
    replace (2 ^ (m + 1)) with (2 * 2 ^ m) in *
      by (rewrite Nat.add_1_r, Nat.pow_succ_r'; reflexivity).
    rewrite (Nat.pow_succ_r' 2 m). nia.
Qed.

(** The reach of the whole network: the layers on the longest path,
    [H1 ... Hn], [Gn ... G1] and [C]. *)
Lemma network_reach (fl n : nat) :
  analysis_reach fl n 1 + synthesis_reach fl n (2 ^ n) + 1 * (fl - 1)
  = (fl - 1) * (3 * 2 ^ n - 2).
Proof.
  pose proof (analysis_reach_closed fl n 1) as Ha.
  pose proof (@synthesis_reach_closed fl n n (le_n n)) as Hs.
  rewrite Nat.sub_diag in Hs. simpl (2 ^ (0 + 1)) in Hs.
  rewrite Nat.add_1_r, Nat.pow_succ_r' in Hs.
  assert (1 <= 2 ^ n) by (apply Nat.neq_0_lt_0, Nat.pow_nonzero; lia).
  nia.
Qed.

(** ** [construct_ufcnn] *)

Lemma map_const_seq {X} (x : X) (n : nat) :
  forall a, map (fun _ : nat => x) (seq a n) = repeat x n.
Proof.
  induction n as [|n IH]; intros a; simpl; [reflexivity|]. f_equal. apply IH.
Qed.

Section NetworkFurther.
Context {A : Type} `{Dtype A} `{Sampler A}.
Variables n_inputs n_outputs n_levels n_filters filter_length : nat.
Variable random_seed : option Z.

Lemma y_hat_local (b0 s t : nat) (feed1 feed2 y1 y2 : Tensor A) ns1 ns2 :
  agree_on3 (window b0 s t 0) feed1 feed2 ->
  y_hat (construct_ufcnn n_inputs n_outputs n_levels n_filters filter_length random_seed)
        feed1 = Some (y1, ns1) ->
  y_hat (construct_ufcnn n_inputs n_outputs n_levels n_filters filter_length random_seed)
        feed2 = Some (y2, ns2) ->
  agree_on3 (window b0 s t ((filter_length - 1) * (3 * 2 ^ n_levels - 2))) y1 y2.
Proof.
  intros Hfeed Hr1 Hr2. rewrite y_hat_unfold in Hr1, Hr2. cbv zeta in Hr1, Hr2.
  destruct (create_variables_shapes n_inputs n_levels n_filters filter_length random_seed)
    as (SHw & SHb & SGw & SGb & _).
  destruct (create_variables_lengths n_inputs n_levels n_filters filter_length random_seed)
    as (LHw & LHb & LGw & LGb).
  cbv zeta in SHw, SHb, SGw, SGb, LHw, LHb, LGw, LGb.
  set (v := create_variables n_inputs n_levels n_filters filter_length random_seed) in *.
  destruct (feedable [None; None; Some n_inputs] (shape feed1)) eqn:Hf1; [|discriminate].
  destruct (feedable [None; None; Some n_inputs] (shape feed2)) eqn:Hf2; [|discriminate].
  destruct (feedable_inv _ _ Hf1) as (nb & nw & Hs1).
  (* first run *)
  apply bind_inv in Hr1. destruct Hr1 as (e1 & l0 & l0' & He1 & Hr1 & _).
  apply node_inv in He1. destruct He1 as [He1 _].
  apply bind_inv in Hr1. destruct Hr1 as ([[xa Hsa] da] & l1 & l1' & Ha1 & Hr1 & _).
  apply bind_inv in Hr1. destruct Hr1 as ([[xs ps] ds] & l2 & l2' & Hsy1 & Hr1 & _).
  apply bind_inv in Hr1. destruct Hr1 as (c1 & l3 & l3' & Hc1 & Hq1 & _).
  apply node_inv in Hq1. destruct Hq1 as [Hq1 _].
  (* second run *)
  apply bind_inv in Hr2. destruct Hr2 as (e2 & m0 & m0' & He2 & Hr2 & _).
  apply node_inv in He2. destruct He2 as [He2 _].
  apply bind_inv in Hr2. destruct Hr2 as ([[xa' Hsa'] da'] & m1 & m1' & Ha2 & Hr2 & _).
  apply bind_inv in Hr2. destruct Hr2 as ([[xs' ps'] ds'] & m2 & m2' & Hsy2 & Hr2 & _).
  apply bind_inv in Hr2. destruct Hr2 as (c2 & m3 & m3' & Hc2 & Hq2 & _).
  apply node_inv in Hq2. destruct Hq2 as [Hq2 _].
  (* the layers *)
  assert (He : agree_on (window b0 s t 0) e1 e2)
    by (eapply expand_dims_local; [exact Hs1|exact He1|exact He2|exact Hfeed]).
  assert (LH : Forall (layer_shaped filter_length) (combine (H_weights v) (H_biases v))).
  { apply layer_shaped_combine
      with (nf := n_filters) (cs := map (H_channels n_inputs n_filters) (seq 0 n_levels)).
    - rewrite SHw, map_map. reflexivity.
    - rewrite SHb, map_map. reflexivity. }
  assert (LG : Forall (layer_shaped filter_length)
                 (combine (rev (G_weights v)) (rev (G_biases v)))).
  { apply layer_shaped_combine
      with (nf := n_filters)
           (cs := map (G_channels n_levels n_filters) (rev (seq 0 n_levels))).
    - rewrite map_rev, SGw, <- map_rev, map_map. reflexivity.
    - rewrite map_rev, SGb, <- map_rev, map_map. reflexivity. }
  assert (Llen : length (combine (H_weights v) (H_biases v)) = n_levels)
    by (rewrite length_combine, LHw, LHb; apply Nat.min_id).
  set (M := analysis_reach filter_length n_levels 1).
  assert (HM : 0 + analysis_reach filter_length
                     (length (combine (H_weights v) (H_biases v))) 1 <= M)
    by (rewrite Llen; apply Nat.le_refl).
  destruct (@analysis_local A _ b0 s t filter_length M _ _ _ _ _ _ _ _ _ _ _
              LH He (Forall2_nil _) HM Ha1 Ha2)
    as (Hxa & HHs & Hlen & Hd1 & Hd2).
  cbn [fst snd length Nat.add] in Hxa, HHs, Hlen, Hd1, Hd2.
  rewrite Llen in Hxa, Hlen, Hd1, Hd2.
  fold M in Hxa. subst da da'.
  assert (Hstages : Forall2 (stage_rel_on (window b0 s t M) filter_length)
            (combine (rev Hsa) (combine (rev (G_weights v)) (rev (G_biases v))))
            (combine (rev Hsa') (combine (rev (G_weights v)) (rev (G_biases v))))).
  { apply stage_rel_on_combine; [|exact LG]. apply Forall2_rev_both. exact HHs. }
  assert (Slen : length (combine (rev Hsa)
                           (combine (rev (G_weights v)) (rev (G_biases v))))
                 = n_levels).
  { rewrite !length_combine, !length_rev, Hlen, LGw, LGb, !Nat.min_id. reflexivity. }
  assert (Hxs : agree_on
                  (window b0 s t
                     (M + synthesis_reach filter_length n_levels (2 ^ n_levels)))
                  (fst (fst (xs, ps, ds))) (fst (fst (xs', ps', ds')))).
  { rewrite Nat.mul_1_l in Hsy1, Hsy2. rewrite <- Slen at 1.
    eapply (@synthesis_local A _ b0 s t filter_length M);
      [exact Hstages|apply Nat.le_refl|exact Hxa| |exact Hsy1|exact Hsy2].
    exact I. }
  simpl in Hxs.
  assert (Hc : agree_on
                 (window b0 s t
                    (M + synthesis_reach filter_length n_levels (2 ^ n_levels)
                     + 1 * (filter_length - 1))) c1 c2).
  { eapply conv_local; [| |exact Hc1|exact Hc2| |exact Hxs]; try reflexivity.
    intros bi j j'. apply window_conv. }
  unfold M in Hc. rewrite network_reach in Hc.
  destruct (conv_inv _ _ _ _ Hc1 eq_refl eq_refl)
    as (nb' & nh' & nw' & xp & xc & _ & _ & _ & _ & _ & _ & Hy & _).
  eapply squeeze_local; [exact Hy|exact Hq1|exact Hq2|exact Hc].
Qed.

Lemma y_hat_returns_alike (x x' y1 : Tensor A) ns1 :
  shape x = shape x' ->
  y_hat (construct_ufcnn n_inputs n_outputs n_levels n_filters filter_length random_seed) x
  = Some (y1, ns1) ->
  exists y2 ns2,
    y_hat (construct_ufcnn n_inputs n_outputs n_levels n_filters filter_length
             random_seed) x' = Some (y2, ns2).
Proof.
  intros Hs Hr.
  destruct (y_hat_valid _ _ _ _ _ _ _ Hr) as [Hfl Hz].
  rewrite y_hat_unfold in Hr. cbv zeta in Hr.
  destruct (feedable [None; None; Some n_inputs] (shape x)) eqn:Hfeed;
    [|discriminate].
  apply feedable_inv in Hfeed. destruct Hfeed as (nb & nw & Hfeed).
  rewrite Hs in Hfeed.
  destruct (y_hat_run n_outputs random_seed x' Hfeed Hfl Hz)
    as (y & c & xp & xc & ns' & Hrun & _).
  cbv zeta in Hrun. eexists _, _. exact Hrun.
Qed.

(** X3.  The network returns a prediction only if the filter length is at
    least 1, the input is a 3-D tensor whose last axis has [n_inputs]
    entries, and, when there is no level, [n_inputs = n_filters]: in every
    other case evaluating [y_hat] fails.  It does return one whenever these
    hold and the input has at least one series of at least one time step,
    with [n_inputs], [n_filters] and [n_outputs] at least 1. *)
Theorem y_hat_domain (feed : Tensor A) :
  (forall y ns,
     y_hat (construct_ufcnn n_inputs n_outputs n_levels n_filters filter_length
              random_seed) feed = Some (y, ns) ->
     1 <= filter_length /\ (n_levels = 0 -> n_inputs = n_filters) /\
     exists batch_size n_samples, shape feed = [batch_size; n_samples; n_inputs]) /\
  (forall batch_size n_samples,
     shape feed = [batch_size; n_samples; n_inputs] ->
     1 <= filter_length -> (n_levels = 0 -> n_inputs = n_filters) ->
     1 <= batch_size -> 1 <= n_samples ->
     1 <= n_inputs -> 1 <= n_filters -> 1 <= n_outputs ->
     exists y ns,
       y_hat (construct_ufcnn n_inputs n_outputs n_levels n_filters filter_length
                random_seed) feed = Some (y, ns)).
Proof.
  split.
  - intros y ns Hr.
    destruct (y_hat_valid _ _ _ _ _ _ _ Hr) as [Hfl Hz].
    split; [exact Hfl|]. split; [exact Hz|].
    rewrite y_hat_unfold in Hr. cbv zeta in Hr.
    destruct (feedable [None; None; Some n_inputs] (shape feed)) eqn:Hfeed;
      [|discriminate].
    apply feedable_inv in Hfeed. exact Hfeed.
  - intros nb nw Hfeed Hfl Hz _ _ _ _ _.
    destruct (y_hat_run n_outputs random_seed feed Hfeed Hfl Hz)
      as (y & c & xp & xc & ns' & Hrun & _).
    cbv zeta in Hrun. eexists _, _. exact Hrun.
Qed.

(** X4.  The shapes of the variables in the returned lists: the analysis
    filter of level 0 takes [n_inputs] channels and the others [n_filters];
    the synthesis filters take [2 * n_filters] channels but for the deepest,
    which takes [n_filters]; the final filter maps [n_filters] channels to
    [n_outputs]; every bias has one entry per output channel of its filter. *)
Theorem variable_shapes :
  map shape (weights (construct_ufcnn n_inputs n_outputs n_levels n_filters filter_length random_seed))
  = map (fun level => [1; filter_length; (if level =? 0 then n_inputs else n_filters); n_filters])
      (seq 0 n_levels)
    ++ map (fun level => [1; filter_length;
                          (if level =? n_levels - 1 then n_filters else 2 * n_filters);
                          n_filters])
         (seq 0 n_levels)
    ++ [[1; filter_length; n_filters; n_outputs]] /\
  map shape (biases (construct_ufcnn n_inputs n_outputs n_levels n_filters filter_length random_seed))
  = repeat [n_filters] (2 * n_levels) ++ [[n_outputs]].
Proof.
  destruct (create_variables_shapes n_inputs n_levels n_filters filter_length
              random_seed) as (SHw & SHb & SGw & SGb & _).
  cbv zeta in SHw, SHb, SGw, SGb.
  unfold construct_ufcnn. cbn [init_normal weights biases].
  rewrite !map_app, SHw, SHb, SGw, SGb. cbn [map shape]. split; [reflexivity|].
  rewrite app_assoc. f_equal.
  replace (2 * n_levels) with (n_levels + n_levels) by lia.
  rewrite repeat_app. f_equal.
  - apply map_const_seq.
  - apply map_const_seq.
Qed.

(** X5.  Finite memory: the prediction for a batch element at time [j]
    depends only on the input of that batch element at the times
    [j - (filter_length - 1) * (3 * 2 ^ n_levels - 2)] to [j], the
    subtraction stopping at time 0. Inputs of one shape that agree for a
    batch element at the times [s] to [t], whatever they are elsewhere, give
    predictions that agree for it at every time [j <= t] with
    [s <= j - (filter_length - 1) * (3 * 2 ^ n_levels - 2)]. *)
Theorem ufcnn_finite_memory (b0 s t : nat) (x x' y1 : Tensor A) :
  shape x = shape x' -> wf x -> wf x' ->
  (forall j k, in_range [b0; j; k] (shape x) -> s <= j -> j <= t ->
     get x [b0; j; k] = get x' [b0; j; k]) ->
  value (y_hat (construct_ufcnn n_inputs n_outputs n_levels n_filters filter_length random_seed) x) = Some y1 ->
  exists y2,
    value (y_hat (construct_ufcnn n_inputs n_outputs n_levels n_filters filter_length random_seed) x') = Some y2 /\
    shape y1 = shape y2 /\
    forall j k, in_range [b0; j; k] (shape y1) ->
      s <= j - (filter_length - 1) * (3 * 2 ^ n_levels - 2) -> j <= t ->
      get y1 [b0; j; k] = get y2 [b0; j; k].
Proof.
  intros Hs Wx Wx' Hag Hv1. unfold value in Hv1.
  destruct (y_hat (construct_ufcnn n_inputs n_outputs n_levels n_filters
                     filter_length random_seed) x) as [[r ns]|] eqn:Hr;
    [|discriminate].
  simpl in Hv1. injection Hv1 as ->.
  destruct (@y_hat_returns_alike x x' _ _ Hs Hr) as (y2 & ns2 & Hr2).
  exists y2. split; [unfold value; rewrite Hr2; reflexivity|].
  assert (Hfeed : agree_on3 (window b0 s t 0) x x').
  { repeat split; try assumption.
    intros bi j k Hin (-> & Hlo & Hhi). apply Hag; [exact Hin|lia|exact Hhi]. }
  destruct (y_hat_local Hfeed Hr Hr2) as (Hsy & _ & _ & Hy).
  split; [exact Hsy|]. intros j k Hin Hlo Hhi.
  apply Hy; [exact Hin|]. repeat split; assumption.
Qed.

(** X6.  The batch elements do not mix: the prediction for a batch element
    depends only on the input of that batch element. *)
Theorem ufcnn_batch_independent (b0 : nat) (x x' y1 : Tensor A) :
  shape x = shape x' -> wf x -> wf x' ->
  (forall j k, in_range [b0; j; k] (shape x) ->
     get x [b0; j; k] = get x' [b0; j; k]) ->
  value (y_hat (construct_ufcnn n_inputs n_outputs n_levels n_filters filter_length random_seed) x) = Some y1 ->
  exists y2,
    value (y_hat (construct_ufcnn n_inputs n_outputs n_levels n_filters filter_length random_seed) x') = Some y2 /\
    shape y1 = shape y2 /\
    forall j k, in_range [b0; j; k] (shape y1) ->
      get y1 [b0; j; k] = get y2 [b0; j; k].
Proof.
  intros Hs Wx Wx' Hag Hv1. unfold value in Hv1.
  destruct (y_hat (construct_ufcnn n_inputs n_outputs n_levels n_filters
                     filter_length random_seed) x) as [[r ns]|] eqn:Hr;
    [|discriminate].
  simpl in Hv1. injection Hv1 as ->.
  destruct (@y_hat_returns_alike x x' _ _ Hs Hr) as (y2 & ns2 & Hr2).
  exists y2. split; [unfold value; rewrite Hr2; reflexivity|].
  assert (Hsy : shape y1 = shape y2).
  { assert (Hfeed : agree_on3 (window b0 0 0 0) x x').
    { repeat split; try assumption.
      intros bi j k Hin (-> & _ & _). apply Hag. exact Hin. }
    destruct (y_hat_local Hfeed Hr Hr2) as (Hsy & _). exact Hsy. }
  split; [exact Hsy|]. intros j k Hin.
  assert (Hfeed : agree_on3 (window b0 0 j 0) x x').
  { repeat split; try assumption.
    intros bi j' k' Hin' (-> & _ & _). apply Hag. exact Hin'. }
  destruct (y_hat_local Hfeed Hr Hr2) as (_ & _ & _ & Hy).
  apply Hy; [exact Hin|].
  unfold window. repeat split; lia.
Qed.
End NetworkFurther.

(** ** Time invariance *)

Section Delay.
Context {A : Type} `{Dtype A}.

Lemma conv_terms_shift (x x' w : Tensor A) rate fh fw cin b i j j' k :
  (forall di dj q, di < fh -> dj < fw -> q < cin ->
     get x [b; i + rate * di; j + rate * dj; q]
     = get x' [b; i + rate * di; j' + rate * dj; q]) ->
  conv_terms x w rate fh fw cin b i j k = conv_terms x' w rate fh fw cin b i j' k.
Proof.
  intros Hext. unfold conv_terms.
  rewrite !flat_map_concat_map. f_equal.
  apply map_ext_in. intros di Hdi. apply in_seq in Hdi.
  rewrite !flat_map_concat_map. f_equal.
  apply map_ext_in. intros dj Hdj. apply in_seq in Hdj.
  apply map_ext_in. intros q Hq. apply in_seq in Hq.
  rewrite Hext by lia. reflexivity.
Qed.

Lemma delayed_later (s lo lo' t : nat) (a b : Tensor A) :
  lo <= lo' -> delayed s lo t a b -> delayed s lo' t a b.
Proof.
  intros Hlo (nb & nh & wa & wb & nc & Ha & Hb & Wa & Wb & Hag).
  exists nb, nh, wa, wb, nc. repeat split; try assumption.
  intros bi i j k Hbi Hi Hk Hj1 Hj2 Hj3 Hj4. apply Hag; try assumption. lia.
Qed.

(** Away from the start of the series, where no padding is read, [conv]
    commutes with delays. *)
Lemma conv_delayed (s lo t : nat) (x x' w b y y' : Tensor A) ns ns' fl d cin cout :
  shape w = [1; fl; cin; cout] -> shape b = [cout] ->
  conv x w b fl d = Some (y, ns) -> conv x' w b fl d = Some (y', ns') ->
  delayed s lo t x x' -> delayed s (lo + d * (fl - 1)) t y y'.
Proof.
  intros Hw Hb Hc Hc' (nb & nh & wa & wb & nc & Hx & Hx' & Wx & Wx' & Hag).
  destruct (conv_inv _ _ _ _ Hc Hw Hb)
    as (nb1 & nh1 & nw1 & xp & xc & Hx1 & Hfl & Hd & _ & _ & _ & Hy & Wy & Gxp & Gy).
  destruct (conv_inv _ _ _ _ Hc' Hw Hb)
    as (nb2 & nh2 & nw2 & xp' & xc' & Hx2 & _ & _ & _ & _ & _ & Hy' & Wy' & Gxp' & Gy').
  rewrite Hx in Hx1. injection Hx1 as <- <- <- <-.
  rewrite Hx' in Hx2. injection Hx2 as <- <- <-.
  exists nb, nh, wa, wb, cout. repeat split; try assumption.
  intros bi i j k Hbi Hi Hk Hlo Ht Hj Hjs.
  rewrite Gy, Gy' by assumption. f_equal. f_equal.
  apply conv_terms_shift. intros di dj q Hdi Hdj Hq.
  assert (di = 0) by lia; subst di.
  rewrite Gxp, Gxp' by nia.
  replace (j + d * dj <? d * (fl - 1)) with false
    by (symmetry; apply Nat.ltb_ge; nia).
  replace (j + s + d * dj <? d * (fl - 1)) with false
    by (symmetry; apply Nat.ltb_ge; nia).
  replace (j + s + d * dj - d * (fl - 1)) with (j + d * dj - d * (fl - 1) + s) by nia.
  rewrite Nat.mul_0_r, Nat.add_0_r.
  apply Hag; try assumption; nia.
Qed.

Lemma relu_delayed (s lo t : nat) (c c' : Tensor A) :
  delayed s lo t c c' -> delayed s lo t (tf_nn_relu c) (tf_nn_relu c').
Proof.
  intros (nb & nh & wa & wb & nc & Hc & Hc' & Wc & Wc' & Hag).
  exists nb, nh, wa, wb, nc.
  repeat split; try (apply wf_relu; assumption); try assumption.
  intros bi i j k Hbi Hi Hk Hlo Ht Hj Hjs.
  rewrite !get_relu; try assumption.
  - f_equal. apply Hag; assumption.
  - rewrite Hc'. apply in_range4. repeat split; assumption.
  - rewrite Hc. apply in_range4. repeat split; assumption.
Qed.

Lemma concat_delayed (s lo t : nat) (p p' x x' c c' : Tensor A) :
  tf_concat 3 [p; x] = Some c -> tf_concat 3 [p'; x'] = Some c' ->
  delayed s lo t p p' -> delayed s lo t x x' -> delayed s lo t c c'.
Proof.
  intros Hc Hc' (nb & nh & wa & wb & c1 & Hp & Hp' & _ & _ & Hagp)
    (nb2 & nh2 & wa2 & wb2 & c2 & Hx & Hx' & _ & _ & Hagx).
  destruct (tf_concat3_inv _ _ Hc Hp) as (c2a & Hxa & Hcs & Wc & Gc).
  destruct (tf_concat3_inv _ _ Hc' Hp') as (c2b & Hxb & Hcs' & Wc' & Gc').
  rewrite Hx in Hxa. injection Hxa as -> -> -> <-.
  rewrite Hx' in Hxb. injection Hxb as -> <-.
  exists nb, nh, wa, wb, (c1 + c2). repeat split; try assumption.
  intros bi i j k Hbi Hi Hk Hlo Ht Hj Hjs.
  rewrite Gc, Gc' by assumption.
  destruct (Nat.ltb_spec k c1) as [Hlt|Hge].
  - apply Hagp; assumption.
  - apply Hagx; try assumption. lia.
Qed.

Lemma expand_dims_delayed (s lo t : nat) (x x' e e' : Tensor A) :
  tf_expand_dims x 1 = Some e -> tf_expand_dims x' 1 = Some e' ->
  delayed3 s lo t x x' -> delayed s lo t e e'.
Proof.
  intros He He' (nb & wa & wb & nc & Hx & Hx' & Wx & Wx' & Hag).
  destruct (tf_expand_dims_1 _ He Hx) as (Hes & Hed & Ge).
  destruct (tf_expand_dims_1 _ He' Hx') as (Hes' & Hed' & Ge').
  exists nb, 1, wa, wb, nc. repeat split; try assumption.
  - unfold wf. rewrite Hes, Hed. unfold wf in Wx. rewrite Wx, Hx. simpl. lia.
  - unfold wf. rewrite Hes', Hed'. unfold wf in Wx'. rewrite Wx', Hx'. simpl. lia.
  - intros bi i j k Hbi Hi Hk Hlo Ht Hj Hjs.
    assert (i = 0) by lia; subst i.
    rewrite Ge, Ge'. apply Hag; assumption.
Qed.

Lemma squeeze_delayed (s lo t : nat) (y y' q q' : Tensor A) :
  tf_squeeze y [1] = Some q -> tf_squeeze y' [1] = Some q' ->
  delayed s lo t y y' -> delayed3 s lo t q q'.
Proof.
  intros Hq Hq' (nb & nh & wa & wb & nc & Hy & Hy' & Wy & Wy' & Hag).
  destruct (tf_squeeze_1 _ Hq Hy) as (-> & Hss & Hsd & Gs).
  destruct (tf_squeeze_1 _ Hq' Hy') as (_ & Hss' & Hsd' & Gs').
  exists nb, wa, wb, nc. repeat split; try assumption.
  - unfold wf. rewrite Hss, Hsd. unfold wf in Wy. rewrite Wy, Hy. simpl. lia.
  - unfold wf. rewrite Hss', Hsd'. unfold wf in Wy'. rewrite Wy', Hy'. simpl. lia.
  - intros bi j k Hbi Hk Hlo Ht Hj Hjs.
    rewrite Gs, Gs'. apply Hag; try assumption. lia.
Qed.

Variables (s lo t fl : nat).

Lemma stage_rel_delayed_combine (M : nat) (xs1 xs2 : list (Tensor A)) :
  Forall2 (delayed s M t) xs1 xs2 ->
  forall wbs, Forall (layer_shaped fl) wbs ->
  Forall2 (stage_rel_delayed s M t fl) (combine xs1 wbs) (combine xs2 wbs).
Proof.
  induction 1 as [|a b xs1 xs2 Hab _ IH]; intros [|wb wbs] Hwb; simpl;
    try constructor.
  - inversion Hwb; subst. unfold stage_rel_delayed; simpl.
    split; [exact Hab|]. split; [reflexivity|assumption].
  - inversion Hwb; subst. apply IH; assumption.
Qed.

Lemma analysis_delayed (M : nat) (wb : list (Tensor A * Tensor A)) :
  forall x1 x2 Hs1 Hs2 d m r1 r2 ns1 ns2,
  Forall (layer_shaped fl) wb ->
  delayed s (lo + m) t x1 x2 ->
  Forall2 (delayed s (lo + M) t) Hs1 Hs2 ->
  m + analysis_reach fl (length wb) d <= M ->
  analysis fl wb (x1, Hs1, d) = Some (r1, ns1) ->
  analysis fl wb (x2, Hs2, d) = Some (r2, ns2) ->
  delayed s (lo + (m + analysis_reach fl (length wb) d)) t
    (fst (fst r1)) (fst (fst r2)) /\
  Forall2 (delayed s (lo + M) t) (snd (fst r1)) (snd (fst r2)) /\
  length (snd (fst r1)) = length Hs1 + length wb /\
  snd r1 = d * 2 ^ length wb /\ snd r2 = d * 2 ^ length wb.
Proof.
  induction wb as [|[w b] rest IH];
    intros x1 x2 Hs1 Hs2 d m r1 r2 ns1 ns2 Hwb Hx HHs HM Hr1 Hr2.
  - simpl in Hr1, Hr2. apply ret_inv in Hr1, Hr2.
    destruct Hr1 as [-> _], Hr2 as [-> _]. simpl.
    rewrite !Nat.add_0_r, Nat.mul_1_r. auto.
  - cbn [analysis] in Hr1, Hr2. cbn [length analysis_reach] in HM |- *.
    inversion Hwb as [|? ? (cin & cout & Hw & Hb) Hrest]; subst. simpl in Hw, Hb.
    apply bind_inv in Hr1. destruct Hr1 as (c1 & l1 & l1' & Hc1 & Hr1 & _).
    apply bind_inv in Hr1. destruct Hr1 as (y1 & l2 & l2' & Hy1 & Hr1 & _).
    apply node_inv in Hy1. destruct Hy1 as [[= <-] _].
    apply bind_inv in Hr2. destruct Hr2 as (c2 & m1 & m1' & Hc2 & Hr2 & _).
    apply bind_inv in Hr2. destruct Hr2 as (y2 & m2 & m2' & Hy2 & Hr2 & _).
    apply node_inv in Hy2. destruct Hy2 as [[= <-] _].
    assert (Hag : delayed s (lo + (m + d * (fl - 1))) t
                    (tf_nn_relu c1) (tf_nn_relu c2)).
    { apply relu_delayed. rewrite Nat.add_assoc.
      eapply conv_delayed; [exact Hw|exact Hb|exact Hc1|exact Hc2|exact Hx]. }
    assert (HHs2 : Forall2 (delayed s (lo + M) t)
                     (Hs1 ++ [tf_nn_relu c1]) (Hs2 ++ [tf_nn_relu c2])).
    { apply Forall2_app; [exact HHs|]. constructor; [|constructor].
      eapply delayed_later; [|exact Hag]. lia. }
    assert (HM2 : m + d * (fl - 1) + analysis_reach fl (length rest) (d * 2) <= M)
      by lia.
    destruct (IH _ _ _ _ _ _ _ _ _ _ Hrest Hag HHs2 HM2 Hr1 Hr2)
      as (Hx' & HHs' & Hlen & Hd1 & Hd2).
    rewrite (Nat.add_assoc m). split; [exact Hx'|]. split; [exact HHs'|].
    rewrite Hlen, Hd1, Hd2, length_app. simpl length.
    rewrite Nat.pow_succ_r'. repeat split; lia.
Qed.

Lemma synthesis_delayed (M0 : nat) (xwb1 xwb2 : list (Tensor A * (Tensor A * Tensor A))) :
  Forall2 (stage_rel_delayed s (lo + M0) t fl) xwb1 xwb2 ->
  forall x1 x2 p1 p2 d m r1 r2 ns1 ns2,
  M0 <= m ->
  delayed s (lo + m) t x1 x2 -> prev_rel_delayed s (lo + m) t p1 p2 ->
  synthesis fl xwb1 (x1, p1, d) = Some (r1, ns1) ->
  synthesis fl xwb2 (x2, p2, d) = Some (r2, ns2) ->
  delayed s (lo + (m + synthesis_reach fl (length xwb1) d)) t
    (fst (fst r1)) (fst (fst r2)).
Proof.
  induction 1 as [|[xa [w b]] [xb [w' b']] rest1 rest2 Hrel _ IH];
    intros x1 x2 p1 p2 d m r1 r2 ns1 ns2 HM Hx Hp Hr1 Hr2.
  - simpl in Hr1, Hr2. apply ret_inv in Hr1, Hr2.
    destruct Hr1 as [-> _], Hr2 as [-> _]. simpl. rewrite Nat.add_0_r. exact Hx.
  - destruct Hrel as (Hxab & Heq & (cin & cout & Hw & Hb)).
    simpl in Hxab, Heq, Hw, Hb. injection Heq as <- <-.
    cbn [synthesis] in Hr1, Hr2. cbn [length synthesis_reach].
    apply bind_inv in Hr1. destruct Hr1 as (i1 & l0 & l0' & Hi1 & Hr1 & _).
    apply bind_inv in Hr1. destruct Hr1 as (c1 & l1 & l1' & Hc1 & Hr1 & _).
    apply bind_inv in Hr1. destruct Hr1 as (y1 & l2 & l2' & Hy1 & Hr1 & _).
    apply node_inv in Hy1. destruct Hy1 as [[= <-] _].
    apply bind_inv in Hr2. destruct Hr2 as (i2 & m0 & m0' & Hi2 & Hr2 & _).
    apply bind_inv in Hr2. destruct Hr2 as (c2 & m1 & m1' & Hc2 & Hr2 & _).
    apply bind_inv in Hr2. destruct Hr2 as (y2 & m2 & m2' & Hy2 & Hr2 & _).
    apply node_inv in Hy2. destruct Hy2 as [[= <-] _].
    assert (Hxab' : delayed s (lo + m) t xa xb)
      by (eapply delayed_later; [|exact Hxab]; lia).
    assert (Hi : delayed s (lo + m) t i1 i2).
    { destruct p1 as [a|], p2 as [a'|]; simpl in Hp; try contradiction.
      - apply node_inv in Hi1, Hi2.
        destruct Hi1 as [Hi1 _], Hi2 as [Hi2 _].
        eapply concat_delayed; [exact Hi1|exact Hi2|exact Hp|exact Hxab'].
      - apply ret_inv in Hi1, Hi2. destruct Hi1 as [-> _], Hi2 as [-> _].
        exact Hxab'. }
    assert (Hag : delayed s (lo + (m + d * (fl - 1))) t
                    (tf_nn_relu c1) (tf_nn_relu c2)).
    { apply relu_delayed. rewrite Nat.add_assoc.
      eapply conv_delayed; [exact Hw|exact Hb|exact Hc1|exact Hc2|exact Hi]. }
    rewrite (Nat.add_assoc m).
    eapply (IH _ _ _ _ _ (m + d * (fl - 1)));
      [apply Nat.le_trans with m; [exact HM|apply Nat.le_add_r]
      |exact Hag| |exact Hr1|exact Hr2].
    exact Hag.
Qed.
End Delay.

Section TimeInvariance.
Context {A : Type} `{Dtype A} `{Sampler A}.
Variables n_inputs n_outputs n_levels n_filters filter_length : nat.
Variable random_seed : option Z.

Lemma y_hat_delayed (s lo t : nat) (feed1 feed2 y1 y2 : Tensor A) ns1 ns2 :
  delayed3 s lo t feed1 feed2 ->
  y_hat (construct_ufcnn n_inputs n_outputs n_levels n_filters filter_length random_seed)
        feed1 = Some (y1, ns1) ->
  y_hat (construct_ufcnn n_inputs n_outputs n_levels n_filters filter_length random_seed)
        feed2 = Some (y2, ns2) ->
  delayed3 s (lo + (filter_length - 1) * (3 * 2 ^ n_levels - 2)) t y1 y2.
Proof.
  intros Hfeed Hr1 Hr2. rewrite y_hat_unfold in Hr1, Hr2. cbv zeta in Hr1, Hr2.
  destruct (create_variables_shapes n_inputs n_levels n_filters filter_length random_seed)
    as (SHw & SHb & SGw & SGb & _).
  destruct (create_variables_lengths n_inputs n_levels n_filters filter_length random_seed)
    as (LHw & LHb & LGw & LGb).
  cbv zeta in SHw, SHb, SGw, SGb, LHw, LHb, LGw, LGb.
  set (v := create_variables n_inputs n_levels n_filters filter_length random_seed) in *.
  destruct (feedable [None; None; Some n_inputs] (shape feed1)); [|discriminate].
  destruct (feedable [None; None; Some n_inputs] (shape feed2)); [|discriminate].
  (* first run *)
  apply bind_inv in Hr1. destruct Hr1 as (e1 & l0 & l0' & He1 & Hr1 & _).
  apply node_inv in He1. destruct He1 as [He1 _].
  apply bind_inv in Hr1. destruct Hr1 as ([[xa Hsa] da] & l1 & l1' & Ha1 & Hr1 & _).
  apply bind_inv in Hr1. destruct Hr1 as ([[xs ps] ds] & l2 & l2' & Hsy1 & Hr1 & _).
  apply bind_inv in Hr1. destruct Hr1 as (c1 & l3 & l3' & Hc1 & Hq1 & _).
  apply node_inv in Hq1. destruct Hq1 as [Hq1 _].
  (* second run *)
  apply bind_inv in Hr2. destruct Hr2 as (e2 & m0 & m0' & He2 & Hr2 & _).
  apply node_inv in He2. destruct He2 as [He2 _].
  apply bind_inv in Hr2. destruct Hr2 as ([[xa' Hsa'] da'] & m1 & m1' & Ha2 & Hr2 & _).
  apply bind_inv in Hr2. destruct Hr2 as ([[xs' ps'] ds'] & m2 & m2' & Hsy2 & Hr2 & _).
  apply bind_inv in Hr2. destruct Hr2 as (c2 & m3 & m3' & Hc2 & Hq2 & _).
  apply node_inv in Hq2. destruct Hq2 as [Hq2 _].
  (* the layers *)
  assert (He : delayed s (lo + 0) t e1 e2).
  { rewrite Nat.add_0_r.
    eapply expand_dims_delayed; [exact He1|exact He2|exact Hfeed]. }
  assert (LH : Forall (layer_shaped filter_length) (combine (H_weights v) (H_biases v))).
  { apply layer_shaped_combine
      with (nf := n_filters) (cs := map (H_channels n_inputs n_filters) (seq 0 n_levels)).
    - rewrite SHw, map_map. reflexivity.
    - rewrite SHb, map_map. reflexivity. }
  assert (LG : Forall (layer_shaped filter_length)
                 (combine (rev (G_weights v)) (rev (G_biases v)))).
  { apply layer_shaped_combine
      with (nf := n_filters)
           (cs := map (G_channels n_levels n_filters) (rev (seq 0 n_levels))).
    - rewrite map_rev, SGw, <- map_rev, map_map. reflexivity.
    - rewrite map_rev, SGb, <- map_rev, map_map. reflexivity. }
  assert (Llen : length (combine (H_weights v) (H_biases v)) = n_levels)
    by (rewrite length_combine, LHw, LHb; apply Nat.min_id).
  set (M := analysis_reach filter_length n_levels 1).
  assert (HM : 0 + analysis_reach filter_length
                     (length (combine (H_weights v) (H_biases v))) 1 <= M)
    by (rewrite Llen; apply Nat.le_refl).
  destruct (@analysis_delayed A _ s lo t filter_length M _ _ _ _ _ _ _ _ _ _ _
              LH He (Forall2_nil _) HM Ha1 Ha2)
    as (Hxa & HHs & Hlen & Hd1 & Hd2).
  cbn [fst snd length Nat.add] in Hxa, HHs, Hlen, Hd1, Hd2.
  rewrite Llen in Hxa, Hlen, Hd1, Hd2.
  fold M in Hxa. subst da da'.
  assert (Hstages : Forall2 (stage_rel_delayed s (lo + M) t filter_length)
            (combine (rev Hsa) (combine (rev (G_weights v)) (rev (G_biases v))))
            (combine (rev Hsa') (combine (rev (G_weights v)) (rev (G_biases v))))).
  { apply stage_rel_delayed_combine; [|exact LG]. apply Forall2_rev_both. exact HHs. }
  assert (Slen : length (combine (rev Hsa)
                           (combine (rev (G_weights v)) (rev (G_biases v))))
                 = n_levels).
  { rewrite !length_combine, !length_rev, Hlen, LGw, LGb, !Nat.min_id. reflexivity. }
  assert (Hxs : delayed s
                  (lo + (M + synthesis_reach filter_length n_levels (2 ^ n_levels))) t
                  (fst (fst (xs, ps, ds))) (fst (fst (xs', ps', ds')))).
  { rewrite Nat.mul_1_l in Hsy1, Hsy2. rewrite <- Slen at 1.
    eapply (@synthesis_delayed A _ s lo t filter_length M);
      [exact Hstages|apply Nat.le_refl|exact Hxa| |exact Hsy1|exact Hsy2].
    exact I. }
  simpl in Hxs.
  assert (Hc : delayed s
                 (lo + (M + synthesis_reach filter_length n_levels (2 ^ n_levels))
                  + 1 * (filter_length - 1)) t c1 c2).
  { eapply conv_delayed; [| |exact Hc1|exact Hc2|exact Hxs]; reflexivity. }
  rewrite <- Nat.add_assoc in Hc. unfold M in Hc. rewrite network_reach in Hc.
  eapply squeeze_delayed; [exact Hq1|exact Hq2|exact Hc].
Qed.

(** X19.  Time invariance: away from the start of the series the network
    treats every time alike.  When an input, from time [lo] to time [t], is
    another input delayed by [s] time steps, so is its prediction, from time
    [lo + (filter_length - 1) * (3 * 2 ^ n_levels - 2)] to time [t]: the
    zero padding at the start is all that tells one time from another. *)
Theorem ufcnn_time_invariant (s lo t : nat) (x x' y1 : Tensor A)
    (batch_size n_samples n_samples' : nat) :
  shape x = [batch_size; n_samples; n_inputs] ->
  shape x' = [batch_size; n_samples'; n_inputs] ->
  wf x -> wf x' ->
  (forall b j k, b < batch_size -> k < n_inputs ->
     lo <= j -> j <= t -> j < n_samples -> j + s < n_samples' ->
     get x [b; j; k] = get x' [b; j + s; k]) ->
  value (y_hat (construct_ufcnn n_inputs n_outputs n_levels n_filters filter_length random_seed) x) = Some y1 ->
  exists y2,
    value (y_hat (construct_ufcnn n_inputs n_outputs n_levels n_filters filter_length random_seed) x') = Some y2 /\
    forall b j k, b < batch_size -> k < n_outputs ->
      lo + (filter_length - 1) * (3 * 2 ^ n_levels - 2) <= j -> j <= t ->
      j < n_samples -> j + s < n_samples' ->
      get y1 [b; j; k] = get y2 [b; j + s; k].
Proof.
  intros Hx Hx' Wx Wx' Hag Hv1. unfold value in Hv1.
  destruct (y_hat (construct_ufcnn n_inputs n_outputs n_levels n_filters
                     filter_length random_seed) x) as [[r ns]|] eqn:Hr;
    [|discriminate].
  simpl in Hv1. injection Hv1 as ->.
  destruct (y_hat_valid _ _ _ _ _ _ _ Hr) as [Hfl Hz].
  destruct (y_hat_run n_outputs random_seed x Hx Hfl Hz)
    as (ya & ca & xpa & xca & nsa & Hruna & _ & Sya & _).
  destruct (y_hat_run n_outputs random_seed x' Hx' Hfl Hz)
    as (y2 & cb & xpb & xcb & nsb & Hrunb & _ & Syb & _).
  cbv zeta in Hruna, Hrunb. rewrite Hr in Hruna. injection Hruna as <- _.
  exists y2. split; [unfold value; rewrite Hrunb; reflexivity|].
  assert (Hfeed : delayed3 s lo t x x').
  { exists batch_size, n_samples, n_samples', n_inputs.
    repeat split; assumption. }
  destruct (y_hat_delayed Hfeed Hr Hrunb)
    as (nb & wa & wb & nc & Hy1 & Hy2 & _ & _ & Hy).
  rewrite Sya in Hy1. injection Hy1 as <- <- <-.
  rewrite Syb in Hy2. injection Hy2 as <-.
  exact Hy.
Qed.
End TimeInvariance.

(** ** The skip connections *)




Section GraphLog.
Context {A : Type} `{Dtype A}.
Variable fl : nat.



End GraphLog.

Section SkipConnections.
Context {A : Type} `{Dtype A} `{Sampler A}.
Variables n_inputs n_outputs n_levels n_filters filter_length : nat.
Variable random_seed : option Z.

End SkipConnections.

(** ** [softmax] *)

Lemma numel_nth_error (s : list nat) :
  forall i c, nth_error s i = Some c -> exists k, numel s = c * k.
Proof.
  induction s as [|n s IH]; intros [|i] c Hc; simpl in Hc; try discriminate.
  - injection Hc as ->. exists (numel s). reflexivity.
  - destruct (IH _ _ Hc) as [k Hk]. exists (n * k). simpl. rewrite Hk. lia.
Qed.

(** What [softmax] computes, whatever the rank: the entries of the input
    in row-major order, cut into rows of [shape[2]] entries. *)
Lemma softmax_flat {A} `{Dtype A} `{Exponential A} (y : Tensor A) (c k : nat) :
  nth_error (shape y) 2 = Some c -> 1 <= c -> numel (shape y) = c * k ->
  exists sf,
    tf_nn_softmax (mkTensor [k; c] (data y)) = Some sf /\
    softmax y = Some (mkTensor (shape y) (data sf)).
Proof.
  intros Hc Hpos Hk. unfold softmax, tf_shape. rewrite Hc.
  rewrite tf_reshape_rows, Hk by exact Hpos.
  replace (c * k / c) with k
    by (rewrite (Nat.mul_comm c k), Nat.div_mul by lia; reflexivity).
  rewrite Nat.eqb_refl. cbn [obind tf_nn_softmax shape].
  eexists. split; [reflexivity|].
  rewrite tf_reshape_to_shape. simpl shape at 2.
  replace (numel (shape y) =? numel [k; c]) with true
    by (symmetry; apply Nat.eqb_eq; simpl; lia).
  reflexivity.
Qed.

(** X8.  In every arithmetic, [softmax] returns exactly for the tensors of
    rank at least 3; its result has the shape of the input and one entry per
    position, whatever the input held.  A tensor whose third axis is empty
    comes back empty. *)
Theorem softmax_returns_iff {A} `{Dtype A} `{Exponential A} (y : Tensor A) :
  ((exists sf, softmax y = Some sf) <-> 3 <= length (shape y)) /\
  (forall sf, softmax y = Some sf -> shape sf = shape y /\ wf sf) /\
  (nth_error (shape y) 2 = Some 0 -> softmax y = Some (mkTensor (shape y) [])).
Proof.
  assert (Hall : forall c, nth_error (shape y) 2 = Some c ->
            exists sf, softmax y = Some sf /\ wf sf).
  { intros c Hc. destruct (Nat.eq_dec c 0) as [->|Hpos].
    - eexists. split; [apply softmax_flat_empty; exact Hc|].
      unfold wf. cbn [data shape]. rewrite (numel_zero _ (nth_error_zero _ _ Hc)).
      reflexivity.
    - destruct (numel_nth_error _ _ Hc) as [k Hk].
      destruct (@softmax_flat _ _ _ y c k Hc ltac:(lia) Hk) as (sf & Hflat & Hsoft).
      eexists. split; [exact Hsoft|].
      injection Hflat as <-. unfold wf. cbn [data shape build].
      rewrite length_tabulate, Hk. simpl. lia. }
  split; [split|split].
  - intros (sf & Hsf). unfold softmax, tf_shape in Hsf.
    destruct (nth_error (shape y) 2) as [c|] eqn:Hc; [|discriminate].
    assert (Hlt : 2 < length (shape y))
      by (apply nth_error_Some; rewrite Hc; discriminate).
    lia.
  - intros Hlen.
    destruct (nth_error (shape y) 2) as [c|] eqn:Hc.
    + destruct (Hall c eq_refl) as (sf & Hsf & _). exists sf. exact Hsf.
    + apply nth_error_None in Hc. lia.
  - intros sf Hsf. split; [apply softmax_preserves_shape; exact Hsf|].
    pose proof Hsf as Hsoft.
    unfold softmax, tf_shape in Hsf.
    destruct (nth_error (shape y) 2) as [c|] eqn:Hc; [|discriminate].
    destruct (Hall c eq_refl) as (sf2 & Hsf2 & Hwf).
    rewrite Hsoft in Hsf2. injection Hsf2 as <-. exact Hwf.
  - apply softmax_flat_empty.
Qed.

(** X9.  In row-major order [softmax] normalises each run of [shape[2]]
    consecutive entries: these are the class scores of a position for a 3-D
    tensor; for a tensor of higher rank they are the last axis only when
    that has [shape[2]] entries too. *)
Theorem softmax_groups (y : Tensor R) (n_classes : nat) :
  nth_error (shape y) 2 = Some n_classes -> 1 <= n_classes ->
  exists sf,
    softmax y = Some sf /\
    forall i j, i * n_classes + j < numel (shape y) -> j < n_classes ->
      nth (i * n_classes + j) (data sf) 0%R
      = (exp (nth (i * n_classes + j) (data y) 0%R)
         / dsum (map (fun j' => exp (nth (i * n_classes + j') (data y) 0%R))
                   (seq 0 n_classes)))%R.
Proof.
  intros Hc Hpos.
  destruct (numel_nth_error _ _ Hc) as [k Hk].
  destruct (@softmax_flat _ _ _ y n_classes k Hc Hpos Hk) as (sf2 & Hflat & Hsoft).
  eexists. split; [exact Hsoft|]. intros i j Hij Hj.
  injection Hflat as <-. cbn [data build].
  assert (Hi : i < k) by nia.
  assert (Hoff : forall j', offset [k; n_classes] [i; j'] = i * n_classes + j')
    by (intros j'; simpl; lia).
  rewrite <- (Hoff j).
  rewrite nth_tabulate by (repeat constructor; assumption).
  cbv zeta.
  etransitivity;
    [exact (softmax_shift
              (fun j' => get (mkTensor [k; n_classes] (data y)) [i; j'])
              (dmaximum (map (fun j' => get (mkTensor [k; n_classes] (data y)) [i; j'])
                           (seq 0 n_classes)))
              Hpos j)|].
  unfold get. cbn [shape data]. rewrite Hoff. f_equal. f_equal.
  apply map_ext. intros j'. rewrite Hoff. reflexivity.
Qed.

(** X10.  In exact arithmetic, [softmax] keeps the order of the class
    scores of a position, so the most probable class is the one with the
    largest score, and every probability is strictly positive.  (Binary32
    rounds: there a probability can come out as 0.) *)
Theorem softmax_monotone (y : Tensor R) (batch_size n_samples n_classes : nat) :
  shape y = [batch_size; n_samples; n_classes] -> 1 <= n_classes ->
  exists sf,
    softmax y = Some sf /\
    forall b t c1 c2, b < batch_size -> t < n_samples ->
      c1 < n_classes -> c2 < n_classes ->
      (0 < get sf [b; t; c1])%R /\
      ((get y [b; t; c1] <= get y [b; t; c2])%R ->
       (get sf [b; t; c1] <= get sf [b; t; c2])%R).
Proof.
  intros Hy Hpos.
  destruct (@softmax_steps _ _ _ _ Hy Hpos) as (sf2 & _ & _ & _ & _ & _ & Hsf).
  eexists. split; [exact Hsf|].
  intros b t c1 c2 Hb Ht Hc1 Hc2.
  rewrite (@softmax_entry _ _ _ _ Hy _ _ _ _ Hsf Hb Ht Hc1).
  rewrite (@softmax_entry _ _ _ _ Hy _ _ _ _ Hsf Hb Ht Hc2).
  set (S := dsum (map (fun j => exp (get y [b; t; j])) (seq 0 n_classes))).
  assert (HS : (0 < S)%R) by (apply dsum_exp_pos; lia).
  split.
  - apply Rdiv_lt_0_compat; [apply exp_pos|exact HS].
  - intros Hle. unfold Rdiv. apply Rmult_le_compat_r.
    + apply Rlt_le, Rinv_0_lt_compat. exact HS.
    + destruct Hle as [Hlt|Heq]; [apply Rlt_le, exp_increasing; exact Hlt|].
      rewrite Heq. apply Rle_refl.
Qed.

(** X11.  [softmax] works position by position: the probabilities at a
    position depend on the scores at that position only, the flattening and
    its undoing mix nothing. *)
Theorem softmax_positionwise (y y' : Tensor R) (batch_size n_samples n_classes : nat)
    (b t : nat) :
  shape y = [batch_size; n_samples; n_classes] ->
  shape y' = [batch_size; n_samples; n_classes] ->
  1 <= n_classes -> b < batch_size -> t < n_samples ->
  (forall c, c < n_classes -> get y [b; t; c] = get y' [b; t; c]) ->
  exists sf sf',
    softmax y = Some sf /\ softmax y' = Some sf' /\
    forall c, c < n_classes -> get sf [b; t; c] = get sf' [b; t; c].
Proof.
  intros Hy Hy' Hpos Hb Ht Heq.
  destruct (@softmax_steps _ _ _ _ Hy Hpos) as (sf2 & _ & _ & _ & _ & _ & Hsf).
  destruct (@softmax_steps _ _ _ _ Hy' Hpos) as (sf2' & _ & _ & _ & _ & _ & Hsf').
  eexists _, _. split; [exact Hsf|]. split; [exact Hsf'|].
  intros c Hc.
  rewrite (@softmax_entry _ _ _ _ Hy _ _ _ _ Hsf Hb Ht Hc).
  rewrite (@softmax_entry _ _ _ _ Hy' _ _ _ _ Hsf' Hb Ht Hc).
  rewrite (Heq c Hc). f_equal. f_equal.
  apply map_ext_in. intros j Hj. apply in_seq in Hj. rewrite Heq by lia.
  reflexivity.
Qed.

(** ** [mse_loss] *)

Lemma Forall_tabulate_inv {A} (P : A -> Prop) (s : list nat) (f : list nat -> A) :
  Forall P (tabulate s f) -> forall idx, in_range idx s -> P (f idx).
Proof.
  intros HP idx Hr.
  rewrite <- (nth_tabulate f (f idx) Hr).
  apply (proj1 (Forall_forall P _) HP). apply nth_In.
  rewrite length_tabulate. apply offset_lt. exact Hr.
Qed.

Lemma fold_left_Rplus_zero_iff (l : list R) :
  Forall (fun v => 0 <= v)%R l ->
  forall a, (0 <= a)%R ->
  (a <= fold_left Rplus l a)%R /\
  (fold_left Rplus l a = 0%R <-> a = 0%R /\ Forall (fun v => v = 0%R) l).
Proof.
  induction 1 as [|v l Hv _ IH]; intros a Ha; simpl.
  - split; [apply Rle_refl|]. split; [intros ->; auto|intros [-> _]; reflexivity].
  - destruct (IH (a + v)%R ltac:(lra)) as [Hle Hiff]. split; [lra|].
    rewrite Hiff. split.
    + intros [Hz Hl]. split; [lra|]. constructor; [lra|exact Hl].
    + intros [-> Hl]. inversion Hl; subst. split; [lra|assumption].
Qed.

Lemma dsum_nonneg (l : list R) :
  Forall (fun v => 0 <= v)%R l ->
  (0 <= dsum l)%R /\ (dsum l = 0%R <-> Forall (fun v => v = 0%R) l).
Proof.
  intros Hl. unfold dsum. simpl.
  destruct (fold_left_Rplus_zero_iff Hl (Rle_refl 0)) as [Hle Hiff].
  split; [exact Hle|]. rewrite Hiff. tauto.
Qed.

(** X12.  In exact arithmetic the loss of two tensors of one shape with at
    least one entry is never negative, and it is zero exactly when the
    tensors hold the same entries. *)
Theorem mse_loss_zero_iff_equal (y_hat y : Tensor R) :
  shape y_hat = shape y -> 1 <= numel (shape y_hat) ->
  exists v,
    mse_loss y_hat y = Some (mkTensor [] [v]) /\ (0 <= v)%R /\
    (v = 0%R <->
     forall idx, in_range idx (shape y_hat) -> get y_hat idx = get y idx).
Proof.
  intros Hs Hn. eexists. split; [apply mse_loss_same_shape; exact Hs|].
  unfold mean_squared_difference. cbn [ddiv dcount dsub dmul R_dtype].
  set (sq := fun idx => ((get y_hat idx - get y idx) * (get y_hat idx - get y idx))%R).
  assert (Hsq : Forall (fun v => 0 <= v)%R (tabulate (shape y_hat) sq)).
  { apply Forall_tabulate. intros idx _. unfold sq. cbv beta.
    generalize (get y_hat idx - get y idx)%R. intros r. nra. }
  destruct (dsum_nonneg Hsq) as [Hle Hiff].
  assert (Hpos : (0 < INR (numel (shape y_hat)))%R) by (apply lt_0_INR; lia).
  split.
  - apply Rmult_le_pos; [exact Hle|]. apply Rlt_le, Rinv_0_lt_compat. exact Hpos.
  - split.
    + intros Hz.
      assert (Hsum : dsum (tabulate (shape y_hat) sq) = 0%R).
      { unfold Rdiv in Hz. apply Rmult_integral in Hz. destruct Hz as [Hz|Hz];
          [exact Hz|].
        pose proof (Rinv_0_lt_compat _ Hpos). lra. }
      apply Hiff in Hsum. intros idx Hr.
      pose proof (@Forall_tabulate_inv _ _ _ _ Hsum idx Hr) as Hidx.
      unfold sq in Hidx. cbv beta in Hidx.
      apply Rmult_integral in Hidx. lra.
    + intros Heq.
      assert (Hsum : dsum (tabulate (shape y_hat) sq) = 0%R).
      { apply Hiff. apply Forall_tabulate. intros idx Hr. unfold sq.
        rewrite (Heq idx Hr). ring. }
      rewrite Hsum. unfold Rdiv. ring.
Qed.

(** *** The squared difference in binary32 *)

Section SignSymmetry.
Variables prec emax : Z.

Lemma binary_round_aux_abs (sx : bool) (m e : Z) (l : location) :
  SFabs (binary_round_aux prec emax sx m e l)
  = SFabs (binary_round_aux prec emax false m e l).
Proof.
  unfold binary_round_aux.
  destruct (shr_fexp prec emax m e l) as [mrs' e'].
  destruct (shr_fexp prec emax
              (round_nearest_even (shr_m mrs') (loc_of_shr_record mrs')) e' loc_Exact)
    as [mrs'' e''].
  destruct (shr_m mrs'') as [|p|p]; try reflexivity.
  destruct (e'' <=? emax - prec)%Z; reflexivity.
Qed.

Lemma binary_normalize_abs_opp (m e : Z) :
  SFabs (binary_normalize prec emax (- m) e false)
  = SFabs (binary_normalize prec emax m e false).
Proof.
  destruct m as [|p|p]; simpl; [reflexivity| |]; unfold binary_round;
    destruct (shl_align p e (fexp prec emax (Z.pos (digits2_pos p) + e))) as [mz ez].
  - apply binary_round_aux_abs.
  - symmetry. apply binary_round_aux_abs.
Qed.

(** Swapping the operands of a subtraction changes at most the sign of
    the result. *)
Lemma SFsub_abs_swap (x y : spec_float) :
  SFabs (SFsub prec emax x y) = SFabs (SFsub prec emax y x).
Proof.
  destruct x as [sx|sx| |sx mx ex], y as [sy|sy| |sy my ey];
    try reflexivity;
    try (destruct sx, sy; reflexivity).
  cbn [SFsub]. cbv zeta. rewrite (Z.min_comm ey ex).
  set (a := cond_Zopp sx (Z.pos (fst (shl_align mx ex (Z.min ex ey))))).
  set (b := cond_Zopp sy (Z.pos (fst (shl_align my ey (Z.min ex ey))))).
  replace (b - a)%Z with (- (a - b))%Z by lia.
  symmetry. apply binary_normalize_abs_opp.
Qed.

Lemma SFmul_square_abs (x y : spec_float) :
  SFabs x = SFabs y -> SFmul prec emax x x = SFmul prec emax y y.
Proof.
  destruct x as [sx|sx| |sx mx ex], y as [sy|sy| |sy my ey]; simpl;
    intros E; try discriminate E; try reflexivity.
  - destruct sx, sy; reflexivity.
  - destruct sx, sy; reflexivity.
  - injection E as -> ->. destruct sx, sy; reflexivity.
Qed.
End SignSymmetry.

Lemma f32_square_difference_swap (a b : float32) :
  dmul (dsub a b) (dsub a b) = dmul (dsub b a) (dsub b a).
Proof.
  cbn [dmul dsub float32_dtype].
  apply SFmul_square_abs. apply SFsub_abs_swap.
Qed.

(** X13.  The loss does not depend on the order of its arguments: the
    difference may be taken either way round, as the docstring of
    [construct_ufcnn] does, in exact arithmetic and in binary32 arithmetic
    alike. *)
Theorem mse_loss_symmetric :
  (forall y_hat y : Tensor R,
     shape y_hat = shape y -> mse_loss y_hat y = mse_loss y y_hat) /\
  (forall y_hat y : Tensor float32,
     shape y_hat = shape y -> mse_loss y_hat y = mse_loss y y_hat).
Proof.
  split; intros y_hat y Hs;
    rewrite (mse_loss_same_shape y_hat y Hs);
    rewrite (mse_loss_same_shape y y_hat (eq_sym Hs));
    unfold mean_squared_difference; rewrite Hs; do 5 f_equal;
    apply tabulate_ext; intros idx _.
  - cbn [dsub dmul R_dtype]. ring.
  - apply f32_square_difference_swap.
Qed.

Section MseBroadcast.
Context {A : Type} `{Dtype A}.

(** X14.  The shapes need not be identical: a target with a single channel
    is accepted and compared with every channel of the prediction. *)
Theorem mse_loss_broadcasts (y_hat y : Tensor A) (batch_size n_samples n_outputs : nat) :
  shape y_hat = [batch_size; n_samples; n_outputs] ->
  shape y = [batch_size; n_samples; 1] ->
  mse_loss y_hat y
  = Some (mkTensor []
            [ddiv (dsum (tabulate [batch_size; n_samples; n_outputs]
                           (fun idx =>
                              match idx with
                              | [b; t; k] =>
                                  let d := dsub (get y_hat [b; t; k]) (get y [b; t; 0]) in
                                  dmul d d
                              | _ => dzero
                              end)))
                  (dcount (numel [batch_size; n_samples; n_outputs]))]).
Proof.
  intros Hy_hat Hy. unfold mse_loss, tf_sub, broadcast_op.
  assert (Hb : broadcast_shape (shape y_hat) (shape y)
               = Some [batch_size; n_samples; n_outputs]).
  { rewrite Hy_hat, Hy. unfold broadcast_shape. cbn [rev app broadcast_rev].
    rewrite !Nat.eqb_refl. cbn [Nat.eqb].
    destruct (n_outputs =? 1); reflexivity. }
  rewrite Hb. cbn [obind].
  unfold tf_reduce_mean, tf_square, build. cbn [shape data].
  rewrite map_tabulate. do 5 f_equal.
  apply tabulate_ext. intros idx Hr.
  rewrite Hy_hat, broadcast_index_same by exact Hr.
  inversion Hr as [|b nb' idx1 s1 Hbb Hr1]; subst.
  inversion Hr1 as [|t nt' idx2 s2 Htt Hr2]; subst.
  inversion Hr2 as [|k nk' idx3 s3 Hkk Hr3]; subst.
  inversion Hr3; subst.
  rewrite Hy. unfold broadcast_index. cbn [length Nat.sub skipn clamp_index Nat.eqb].
  replace (if batch_size =? 1 then 0 else b) with b
    by (destruct (Nat.eqb_spec batch_size 1); lia).
  replace (if n_samples =? 1 then 0 else t) with t
    by (destruct (Nat.eqb_spec n_samples 1); lia).
  reflexivity.
Qed.
End MseBroadcast.

(** ** [cross_entropy] *)

Lemma flat_map_seq_offset {X} (n : nat) :
  forall (F : nat -> list X) a,
  flat_map F (seq a n) = flat_map (fun t => F (a + t)) (seq 0 n).
Proof.
  induction n as [|n IH]; intros F a; simpl; [reflexivity|].
  rewrite Nat.add_0_r. f_equal.
  rewrite (IH F (S a)), (IH (fun t => F (a + t)) 1). apply flat_map_ext. intros t.
  f_equal. lia.
Qed.

Lemma flat_map_seq_rows {X} (F : nat -> list X) (T : nat) :
  forall B,
  flat_map F (seq 0 (B * T))
  = flat_map (fun b => flat_map (fun t => F (b * T + t)) (seq 0 T)) (seq 0 B).
Proof.
  induction B as [|B IH]; [reflexivity|].
  replace (S B * T) with (B * T + T) by lia.
  rewrite seq_app, flat_map_app, IH, seq_S, flat_map_app. f_equal.
  simpl. rewrite app_nil_r. apply flat_map_seq_offset.
Qed.

(** A tensor of [B * T] entries lists them as a [(B, T)] tensor does. *)
Lemma tabulate_flat_rows {X} (g : list nat -> X) (B T : nat) :
  tabulate [B * T] g
  = tabulate [B; T] (fun idx => match idx with
                                | [b; t] => g [b * T + t]
                                | _ => g []
                                end).
Proof.
  cbn [tabulate].
  rewrite (flat_map_seq_rows (fun i => [g [i]]) T B). reflexivity.
Qed.

Lemma tf_reshape_flat {X} (x : Tensor X) :
  tf_reshape x [(-1)%Z] = Some (mkTensor [numel (shape x)] (data x)).
Proof.
  unfold tf_reshape.
  change (existsb (fun z => (z <? -1)%Z) [(-1)%Z]) with false.
  change (existsb (fun z => (z =? 0)%Z) [(-1)%Z]) with false.
  change (filter (fun z => (0 <? z)%Z) [(-1)%Z]) with (@nil Z).
  cbn [count_occ].
  destruct (Z.eq_dec (-1) (-1)) as [_|N]; [|contradiction N; reflexivity].
  cbn [map andb orb]. change (-1 =? -1)%Z with true. cbv zeta iota.
  change (numel []) with 1.
  change (numel [numel (shape x) / 1]) with (numel (shape x) / 1 * 1).
  rewrite Nat.div_1_r, Nat.mul_1_l, Nat.mul_1_r, !Nat.eqb_refl. reflexivity.
Qed.

Lemma fold_left_Rplus_ge_term (l : list R) (x : R) :
  Forall (fun v => 0 <= v)%R l -> In x l ->
  forall a0, (0 <= a0)%R -> (x <= fold_left Rplus l a0)%R.
Proof.
  induction 1 as [|v l Hv Hl IH]; intros Hin a0 Ha; [contradiction|].
  simpl. destruct Hin as [->|Hin].
  - destruct (fold_left_Rplus_zero_iff Hl (a := (a0 + x)%R)) as [Hle _]; lra.
  - apply IH; [exact Hin|lra].
Qed.

Lemma dsum_ge_term (l : list R) (x : R) :
  Forall (fun v => 0 <= v)%R l -> In x l -> (x <= dsum l)%R.
Proof.
  intros Hl Hin. unfold dsum.
  apply fold_left_Rplus_ge_term; [exact Hl|exact Hin|apply Rle_refl].
Qed.

Section CrossEntropyFacts.
Variables (y : Tensor R) (labels : Tensor Z) (batch_size n_samples n_classes : nat).
Hypothesis shape_y : shape y = [batch_size; n_samples; n_classes].
Hypothesis shape_labels : shape labels = [batch_size; n_samples].
Hypothesis labels_in_range :
  forall b t, b < batch_size -> t < n_samples ->
    (0 <= get labels [b; t] < Z.of_nat n_classes)%Z.
Hypothesis classes : 1 <= n_classes.

(** The logarithm of the softmax at the label, position by position. *)
Lemma cross_entropy_steps :
  exists sf,
    softmax y = Some sf /\
    cross_entropy y labels
    = Some (mkTensor []
              [dsum (tabulate [batch_size; n_samples]
                       (fun idx =>
                          match idx with
                          | [b; t] =>
                              (- ln (get sf [b; t; Z.to_nat (get labels [b; t])]))%R
                          | _ => 0%R
                          end))]).
Proof.
  destruct (@softmax_steps y batch_size n_samples n_classes shape_y classes)
    as (sf2 & Hflat & _ & _ & _ & _ & Hsoft).
  eexists. split; [exact Hsoft|].
  unfold cross_entropy, tf_shape. rewrite shape_y at 1. cbn [nth_error].
  rewrite Hflat. cbn [obind]. rewrite tf_reshape_flat. cbn [obind].
  unfold tf_nn_sparse_softmax_cross_entropy_with_logits.
  cbn [flattened shape]. rewrite shape_labels.
  replace (numel [batch_size; n_samples]) with (batch_size * n_samples)
    by (simpl; lia).
  rewrite Nat.eqb_refl. cbn [andb].
  set (flat_labels := mkTensor [batch_size * n_samples] (data labels)).
  assert (Hcheck :
    forallb (fun i =>
               (0 <=? get flat_labels [i])%Z
               && (get flat_labels [i] <? Z.of_nat n_classes)%Z)
      (seq 0 (batch_size * n_samples)) = true).
  { apply forallb_forall. intros i Hi. apply in_seq in Hi.
    assert (HT : n_samples <> 0) by nia.
    pose proof (Nat.div_mod_eq i n_samples) as Hdm.
    pose proof (Nat.mod_upper_bound i n_samples HT) as Hmod.
    assert (Hdiv : i / n_samples < batch_size)
      by (apply Nat.Div0.div_lt_upper_bound; lia).
    destruct (labels_in_range Hdiv Hmod) as [Hlo Hhi].
    assert (Hget : get flat_labels [i]
                   = get labels [i / n_samples; i mod n_samples]).
    { unfold get, flat_labels. rewrite shape_labels. cbn [shape data offset numel fold_right].
      f_equal. lia. }
    rewrite Hget. apply andb_true_intro. split;
      [apply Z.leb_le; exact Hlo|apply Z.ltb_lt; exact Hhi]. }
  rewrite Hcheck. cbn [obind]. unfold tf_reduce_sum, build. cbn [data].
  rewrite tabulate_flat_rows. do 4 f_equal.
  apply tabulate_ext. intros idx Hr.
  inversion Hr as [|b nb' idx1 s1 Hb Hr1]; subst.
  inversion Hr1 as [|t nt' idx2 s2 Ht Hr2]; subst.
  inversion Hr2; subst.
  assert (Hlab : get flat_labels [b * n_samples + t] = get labels [b; t]).
  { unfold get, flat_labels. rewrite shape_labels. simpl. f_equal. lia. }
  rewrite Hlab.
  destruct (labels_in_range Hb Ht) as [Hlo Hhi].
  assert (Hc : Z.to_nat (get labels [b; t]) < n_classes) by lia.
  rewrite (@softmax_entry y batch_size n_samples n_classes shape_y _ b t _
             Hsoft Hb Ht Hc).
  fold (flattened y batch_size n_samples n_classes).
  rewrite (map_ext (fun j => get (flattened y batch_size n_samples n_classes)
                               [b * n_samples + t; j])
             (fun j => get y [b; t; j]))
    by (intros j; apply (@get_flattened y batch_size n_samples n_classes shape_y)).
  set (m := dmaximum (map (fun j => get y [b; t; j]) (seq 0 n_classes))).
  cbv zeta.
  rewrite (@get_flattened y batch_size n_samples n_classes shape_y).
  rewrite (map_ext _ (fun j => exp (get y [b; t; j] - m)))
    by (intros j; rewrite (@get_flattened y batch_size n_samples n_classes shape_y);
        reflexivity).
  rewrite <- (softmax_shift (fun j => get y [b; t; j]) m classes).
  assert (HS : (0 < dsum (map (fun j => exp (get y [b; t; j] - m)) (seq 0 n_classes)))%R)
    by (apply (dsum_exp_pos (fun j => (get y [b; t; j] - m)%R)); exact classes).
  unfold Rdiv.
  rewrite ln_mult, ln_Rinv, ln_exp
    by (try apply exp_pos; try apply Rinv_0_lt_compat; exact HS).
  ring.
Qed.
End CrossEntropyFacts.

Lemma ln_le_0 (p : R) : (0 < p <= 1)%R -> (ln p <= 0)%R.
Proof.
  intros [Hpos [Hlt | ->]]; [|rewrite ln_1; apply Rle_refl].
  rewrite <- ln_1. apply Rlt_le, ln_increasing; assumption.
Qed.

Lemma softmax_term_le_1 (g : nat -> R) (n l : nat) :
  l < n ->
  (0 < exp (g l) / dsum (map (fun j => exp (g j)) (seq 0 n)) <= 1)%R.
Proof.
  intros Hl.
  set (S := dsum (map (fun j => exp (g j)) (seq 0 n))).
  assert (HS : (0 < S)%R) by (apply dsum_exp_pos; lia).
  assert (Hle : (exp (g l) <= S)%R).
  { apply dsum_ge_term.
    - apply Forall_forall. intros v Hv. apply in_map_iff in Hv.
      destruct Hv as (j & <- & _). apply Rlt_le, exp_pos.
    - apply in_map_iff. exists l. split; [reflexivity|]. apply in_seq. lia. }
  split.
  - apply Rdiv_lt_0_compat; [apply exp_pos|exact HS].
  - apply (Rmult_le_reg_r S); [exact HS|].
    unfold Rdiv. rewrite Rmult_assoc, Rinv_l, Rmult_1_r, Rmult_1_l by lra.
    exact Hle.
Qed.

(** X15.  In exact arithmetic, for scores of shape
    [(batch_size, n_samples, n_classes)] and one label from 0 to
    [n_classes - 1] per position, [cross_entropy] is the total over all
    positions of minus the logarithm of the probability that [softmax]
    gives to the label: the logarithm of the sum of the exponentials minus
    the score of the label, which the library's operation computes, is
    that number.  (In binary32 the two differ by rounding, and beyond it
    when a probability comes out as 0.) *)
Theorem cross_entropy_of_softmax (y : Tensor R) (labels : Tensor Z)
    (batch_size n_samples n_classes : nat) :
  shape y = [batch_size; n_samples; n_classes] ->
  shape labels = [batch_size; n_samples] ->
  (forall b t, b < batch_size -> t < n_samples ->
     (0 <= get labels [b; t] < Z.of_nat n_classes)%Z) ->
  1 <= n_classes ->
  exists sf,
    softmax y = Some sf /\
    cross_entropy y labels
    = Some (mkTensor []
              [dsum (tabulate [batch_size; n_samples]
                       (fun idx =>
                          match idx with
                          | [b; t] =>
                              (- ln (get sf [b; t; Z.to_nat (get labels [b; t])]))%R
                          | _ => 0%R
                          end))]).
Proof. intros Hy Hl Hr Hc. exact (@cross_entropy_steps y labels batch_size n_samples n_classes Hy Hl Hr Hc). Qed.

(** X16.  The cross entropy is never negative, and with a single class it is
    zero whatever the scores. *)
Theorem cross_entropy_nonneg (y : Tensor R) (labels : Tensor Z)
    (batch_size n_samples n_classes : nat) :
  shape y = [batch_size; n_samples; n_classes] ->
  shape labels = [batch_size; n_samples] ->
  (forall b t, b < batch_size -> t < n_samples ->
     (0 <= get labels [b; t] < Z.of_nat n_classes)%Z) ->
  1 <= n_classes ->
  exists v,
    cross_entropy y labels = Some (mkTensor [] [v]) /\ (0 <= v)%R /\
    (n_classes = 1 -> v = 0%R).
Proof.
  intros Hy Hl Hr Hc.
  destruct (@cross_entropy_steps y labels batch_size n_samples n_classes Hy Hl Hr Hc)
    as (sf & Hsoft & Hce).
  eexists. split; [exact Hce|].
  set (f := fun idx : list nat =>
              match idx with
              | [b; t] => (- ln (get sf [b; t; Z.to_nat (get labels [b; t])]))%R
              | _ => 0%R
              end).
  assert (Hterm : forall b t, b < batch_size -> t < n_samples ->
            (0 <= f [b; t])%R /\ (n_classes = 1 -> f [b; t] = 0%R)).
  { intros b t Hb Ht. unfold f.
    destruct (Hr b t Hb Ht) as [Hlo Hhi].
    assert (Hlab : Z.to_nat (get labels [b; t]) < n_classes) by lia.
    rewrite (@softmax_entry y batch_size n_samples n_classes Hy _ b t _
               Hsoft Hb Ht Hlab).
    destruct (softmax_term_le_1 (fun j => get y [b; t; j]) Hlab) as [Hpos Hle1].
    split.
    - pose proof (ln_le_0 (conj Hpos Hle1)). lra.
    - intros ->. assert (El : Z.to_nat (get labels [b; t]) = 0) by lia.
      rewrite El. unfold dsum. simpl.
      generalize (exp_pos (get y [b; t; 0])).
      generalize (exp (get y [b; t; 0])). intros e He.
      replace (e / (0 + e))%R with 1%R by (field; lra).
      rewrite ln_1. ring. }
  assert (Hall : Forall (fun v => 0 <= v)%R (tabulate [batch_size; n_samples] f)).
  { apply Forall_tabulate. intros idx Hin.
    inversion Hin as [|b nb' idx1 s1 Hb Hr1]; subst.
    inversion Hr1 as [|t nt' idx2 s2 Ht Hr2]; subst.
    inversion Hr2; subst. apply (Hterm b t Hb Ht). }
  destruct (dsum_nonneg Hall) as [Hle Hiff].
  split; [exact Hle|]. intros E. apply Hiff.
  apply Forall_tabulate. intros idx Hin.
  inversion Hin as [|b nb' idx1 s1 Hb Hr1]; subst.
  inversion Hr1 as [|t nt' idx2 s2 Ht Hr2]; subst.
  inversion Hr2; subst. apply (Hterm b t Hb Ht). reflexivity.
Qed.

(** X17.  Only the number of labels is checked, not their shape: with any
    other number of labels than positions no cross entropy is returned,
    and label tensors that hold the same entries in row-major order give
    the same cross entropy whatever their shapes. *)
Theorem cross_entropy_label_count (y : Tensor R)
    (batch_size n_samples n_classes : nat) :
  shape y = [batch_size; n_samples; n_classes] ->
  (forall labels : Tensor Z,
     numel (shape labels) <> batch_size * n_samples ->
     cross_entropy y labels = None) /\
  (forall labels labels' : Tensor Z,
     numel (shape labels) = numel (shape labels') -> data labels = data labels' ->
     cross_entropy y labels = cross_entropy y labels').
Proof.
  intros Hy. split.
  - intros labels Hn. unfold cross_entropy, tf_shape. rewrite Hy at 1. cbn [nth_error].
    destruct (Nat.eq_dec n_classes 0) as [E|E].
    { rewrite E, tf_reshape_rows_empty
        by (rewrite Hy, E; simpl; rewrite !orb_true_r; reflexivity).
      cbn [obind]. rewrite tf_reshape_flat. cbn [obind].
      unfold tf_nn_sparse_softmax_cross_entropy_with_logits. cbn [shape].
      pose proof (numel_live_pos (shape y)) as Hrows.
      destruct (numel (filter (fun n => negb (n =? 0)) (shape y))) as [|rows]; [lia|].
      cbn [seq forallb].
      destruct (Z.leb_spec 0 (get (mkTensor [numel (shape labels)] (data labels)) [0]));
        destruct (Z.ltb_spec
                    (get (mkTensor [numel (shape labels)] (data labels)) [0])
                    (Z.of_nat 0)); try lia;
        cbn [andb]; rewrite ?andb_false_r; reflexivity. }
    rewrite tf_reshape_rows by lia.
    rewrite (@numel_rank3 R y batch_size n_samples n_classes Hy).
    rewrite Nat.div_mul by exact E.
    destruct (n_classes * (batch_size * n_samples) =? batch_size * n_samples * n_classes);
      [|reflexivity].
    cbn [obind]. rewrite tf_reshape_flat. cbn [obind].
    unfold tf_nn_sparse_softmax_cross_entropy_with_logits. cbn [shape].
    replace (batch_size * n_samples =? numel (shape labels)) with false
      by (symmetry; apply Nat.eqb_neq; congruence).
    reflexivity.
  - intros labels labels' Hn Hd. unfold cross_entropy.
    destruct (nth_error (tf_shape y) 2) as [c|]; [|reflexivity].
    destruct (tf_reshape y [(-1)%Z; Z.of_nat c]) as [flat|]; [|reflexivity].
    cbn [obind]. rewrite !tf_reshape_flat, Hn, Hd. reflexivity.
Qed.

(** ** The functions together *)

Section Pipeline.
Context `{Sampler R}.
Variables n_inputs n_outputs n_levels n_filters filter_length : nat.
Variable random_seed : option Z.

(** X18.  The losses and [softmax] accept what the network predicts: for
    a network that can be built with at least one output, the prediction
    for an input of shape [(batch_size, n_samples, n_inputs)] has a mean
    squared error against every target of shape
    [(batch_size, n_samples, n_outputs)], a softmax of that shape, and a
    cross entropy against every [(batch_size, n_samples)] tensor of labels
    from 0 to [n_outputs - 1]. *)
Theorem losses_accept_prediction (feed target : Tensor R) (labels : Tensor Z)
    (batch_size n_samples : nat) :
  shape feed = [batch_size; n_samples; n_inputs] ->
  1 <= filter_length -> (n_levels = 0 -> n_inputs = n_filters) ->
  1 <= n_outputs ->
  shape target = [batch_size; n_samples; n_outputs] ->
  shape labels = [batch_size; n_samples] ->
  (forall b t, b < batch_size -> t < n_samples ->
     (0 <= get labels [b; t] < Z.of_nat n_outputs)%Z) ->
  exists prediction sf loss ce,
    value (y_hat (construct_ufcnn n_inputs n_outputs n_levels n_filters filter_length random_seed) feed)
    = Some prediction /\
    mse_loss prediction target = Some (mkTensor [] [loss]) /\
    softmax prediction = Some sf /\
    shape sf = [batch_size; n_samples; n_outputs] /\
    cross_entropy prediction labels = Some (mkTensor [] [ce]).
Proof.
  intros Hfeed Hfl Hz Hout Htarget Hlabels Hrange.
  destruct (y_hat_run n_outputs random_seed feed Hfeed Hfl Hz)
    as (y & c & xp & xc & ns & Hrun & _ & Sy & _).
  cbv zeta in Hrun.
  destruct (@cross_entropy_steps y labels batch_size n_samples n_outputs
              Sy Hlabels Hrange Hout) as (sf & Hsoft & Hce).
  eexists y, sf, _, _.
  split; [unfold value; rewrite Hrun; reflexivity|].
  split; [apply mse_loss_same_shape; congruence|].
  split; [exact Hsoft|].
  split; [rewrite (softmax_preserves_shape _ Hsoft); exact Sy|].
  exact Hce.
Qed.
End Pipeline.

(** * Worked instances of the claims *)

Lemma ufcnn_is_causal_witness :
  exists y2,
    value (y_hat (example_net 1) example_x') = Some y2 /\
    shape example_y = shape y2 /\
    forall b j k, in_range [b; j; k] (shape example_y) -> j < 1 ->
      get example_y [b; j; k] = get y2 [b; j; k].
Proof.
  apply (@ufcnn_is_causal Z _ _ 1 1 1 2 2 (Some 0%Z) 1 example_x example_x' example_y).
  - reflexivity.
  - reflexivity.
  - reflexivity.
  - intros b j k Hr Hj. apply in_range3 in Hr. destruct Hr as (Hb & _ & Hk).
    assert (b = 0) by lia. assert (k = 0) by lia. subst.
    destruct j as [|[|j]]; [reflexivity|reflexivity|lia].
  - vm_compute. reflexivity.
Defined.

Lemma conv_dilations_witness :
  conv_rates (nodes (y_hat (example_net 1) example_x)) = [1; 2; 1].
Proof.
  apply (@conv_dilations Z _ _ 1 1 1 2 2 (Some 0%Z) example_x 1 3).
  - reflexivity.
  - lia.
  - intros E. discriminate E.
Defined.


Lemma y_hat_shape_witness :
  exists y c xp xc ns,
    y_hat (example_net 1) example_x
    = Some (y, ns ++ [mkNode (Pad (time_padding 1)) xp; mkNode Conv2D xc;
                      mkNode Add c; mkNode (Squeeze [1]) y]) /\
    shape c = [1; 1; 3; 1] /\
    tf_squeeze c [1] = Some y /\
    shape y = [1; 3; 1].
Proof.
  apply (@y_hat_shape Z _ _ 1 1 1 2 2 (Some 0%Z) example_x 1 3).
  - reflexivity.
  - lia.
  - intros E. discriminate E.
Defined.

Lemma height_stays_one_witness :
  Forall (fun w => exists cin cout, shape w = [1; 2; cin; cout])
    (weights (example_net 2)) /\
  match y_hat (example_net 2) example_x with
  | Some (y, ns) =>
      exists c ns',
        ns = ns' ++ [mkNode Add c; mkNode (Squeeze [1]) y] /\
        Forall (fun nd => height_one (shape (out nd)) /\ no_height_padding (op nd))
          (ns' ++ [mkNode Add c]) /\
        tf_squeeze c [1] = Some y
  | None => 2 = 0 \/ (2 = 0 /\ 1 <> 2)
  end.
Proof.
  apply (@height_stays_one Z _ _ 1 1 2 2 2 (Some 0%Z) example_x 1 3).
  reflexivity.
Defined.

Lemma conv_pads_then_convolves_witness :
  exists xp,
    tf_pad example_activation (time_padding 4) = Some xp /\
    shape xp = [1; 1; 4 + 4; 1] /\
    value (conv example_activation example_filter example_bias 3 2)
    = Some (mkTensor [1; 1; 4; 1] [105; 205; 315; 425]%Z).
Proof.
  destruct (@conv_pads_then_convolves Z _ example_activation example_filter
              example_bias 3 2 1 1 4 1 eq_refl)
    as (xp & Hpad & Hshape & _ & Hconv & _); [lia|lia|].
  exists xp. split; [exact Hpad|]. split; [exact Hshape|].
  rewrite Hconv. vm_compute in Hpad. injection Hpad as <-. vm_compute. reflexivity.
Defined.


Lemma softmax_round_trip_witness :
  exists r, softmax example_logits = Some r /\ shape r = [1; 1; 2].
Proof.
  destruct (@softmax_round_trip R _ _ example_logits 1 1 2 eq_refl)
    as (rows & flat & sf & r & _ & _ & _ & _ & _ & _ & _ & _ & Hsoft & Hshape).
  exists r. split; [exact Hsoft|exact Hshape].
Defined.

Lemma mse_loss_mean_and_zero_witness :
  mse_loss example_floats example_floats = Some (mkTensor [] [S754_zero false]).
Proof.
  apply (proj2 mse_loss_mean_and_zero example_floats).
  - reflexivity.
  - simpl. lia.
  - reflexivity.
Defined.

(** * Worked instances of the further properties *)

Lemma conv_domain_witness :
  (forall y ns, conv example_activation example_filter example_bias 3 2 = Some (y, ns) ->
     1 <= 3 /\ 1 <= 2 /\
     exists nb nh nw,
       shape example_activation = [nb; nh; nw; 1] /\ shape y = [nb; nh; nw; 1] /\
       length ns = 3) /\
  (forall nb nh nw,
     shape example_activation = [nb; nh; nw; 1] -> 1 <= 3 -> 1 <= 2 ->
     1 <= nb -> 1 <= nh -> 1 <= nw -> 1 <= 1 -> 1 <= 1 ->
     exists y ns, conv example_activation example_filter example_bias 3 2 = Some (y, ns)).
Proof.
  apply (@conv_domain Z _ example_activation example_filter example_bias 3 2 1 1).
  - reflexivity.
  - reflexivity.
Defined.

Lemma conv_closed_form_witness :
  exists y ns,
    conv example_activation example_filter example_bias 3 2 = Some (y, ns) /\
    shape y = [1; 1; 4; 1] /\
    forall bi i j k, bi < 1 -> i < 1 -> j < 4 -> k < 1 ->
      get y [bi; i; j; k]
      = dadd (dsum (causal_terms example_activation example_filter 2 3 1 bi i j k))
             (get example_bias [k]).
Proof.
  apply (@conv_closed_form Z _ example_activation example_filter example_bias
           3 2 1 1 4 1 1).
  - reflexivity.
  - reflexivity.
  - reflexivity.
  - lia.
  - lia.
Defined.

Lemma ufcnn_finite_memory_witness :
  exists y2,
    value (y_hat (example_net 1) example_series') = Some y2 /\
    shape example_series_y = shape y2 /\
    forall j k, in_range [0; j; k] (shape example_series_y) ->
      1 <= j - 4 -> j <= 6 ->
      get example_series_y [0; j; k] = get y2 [0; j; k].
Proof.
  apply (@ufcnn_finite_memory Z _ _ 1 1 1 2 2 (Some 0%Z) 0 1 6
           example_series example_series' example_series_y).
  - reflexivity.
  - reflexivity.
  - reflexivity.
  - intros j k Hr Hlo Hhi. apply in_range3 in Hr. destruct Hr as (_ & Hj & Hk).
    assert (k = 0) by lia. subst.
    destruct j as [|[|[|[|[|[|[|j]]]]]]]; try reflexivity; lia.
  - vm_compute. reflexivity.
Defined.

Lemma ufcnn_time_invariant_witness :
  exists y2,
    value (y_hat (example_net 1) example_delayed) = Some y2 /\
    forall b j k, b < 1 -> k < 1 ->
      0 + 4 <= j -> j <= 6 -> j < 7 -> j + 2 < 9 ->
      get example_series_y [b; j; k] = get y2 [b; j + 2; k].
Proof.
  apply (@ufcnn_time_invariant Z _ _ 1 1 1 2 2 (Some 0%Z) 2 0 6
           example_series example_delayed example_series_y 1 7 9).
  - reflexivity.
  - reflexivity.
  - reflexivity.
  - reflexivity.
  - intros b j k Hb Hk _ _ Hj _.
    assert (b = 0) by lia. assert (k = 0) by lia. subst.
    destruct j as [|[|[|[|[|[|[|j]]]]]]]; try reflexivity; lia.
  - vm_compute. reflexivity.
Defined.

Lemma ufcnn_batch_independent_witness :
  exists y2,
    value (y_hat (example_net 1) example_batch') = Some y2 /\
    shape example_batch_y = shape y2 /\
    forall j k, in_range [0; j; k] (shape example_batch_y) ->
      get example_batch_y [0; j; k] = get y2 [0; j; k].
Proof.
  apply (@ufcnn_batch_independent Z _ _ 1 1 1 2 2 (Some 0%Z) 0
           example_batch example_batch' example_batch_y).
  - reflexivity.
  - reflexivity.
  - reflexivity.
  - intros j k Hr. apply in_range3 in Hr. destruct Hr as (_ & Hj & Hk).
    assert (k = 0) by lia. subst.
    destruct j as [|[|[|j]]]; try reflexivity; lia.
  - vm_compute. reflexivity.
Defined.

Lemma softmax_groups_witness :
  exists sf,
    softmax example_logits = Some sf /\
    forall i j, i * 2 + j < numel (shape example_logits) -> j < 2 ->
      nth (i * 2 + j) (data sf) 0%R
      = (exp (nth (i * 2 + j) (data example_logits) 0%R)
         / dsum (map (fun j' => exp (nth (i * 2 + j') (data example_logits) 0%R))
                   (seq 0 2)))%R.
Proof.
  apply (@softmax_groups example_logits 2).
  - reflexivity.
  - lia.
Defined.

Lemma softmax_monotone_witness :
  exists sf,
    softmax example_logits = Some sf /\
    forall b t c1 c2, b < 1 -> t < 1 -> c1 < 2 -> c2 < 2 ->
      (0 < get sf [b; t; c1])%R /\
      ((get example_logits [b; t; c1] <= get example_logits [b; t; c2])%R ->
       (get sf [b; t; c1] <= get sf [b; t; c2])%R).
Proof.
  apply (@softmax_monotone example_logits 1 1 2).
  - reflexivity.
  - lia.
Defined.

Lemma mse_loss_zero_iff_equal_witness :
  exists v,
    mse_loss example_prediction example_target = Some (mkTensor [] [v]) /\
    (0 <= v)%R /\
    (v = 0%R <->
     forall idx, in_range idx (shape example_prediction) ->
       get example_prediction idx = get example_target idx).
Proof.
  apply (@mse_loss_zero_iff_equal example_prediction example_target).
  - reflexivity.
  - simpl. lia.
Defined.

Lemma mse_loss_symmetric_witness :
  mse_loss example_prediction example_target
  = mse_loss example_target example_prediction /\
  mse_loss example_floats example_floats'
  = mse_loss example_floats' example_floats.
Proof.
  split.
  - apply (proj1 mse_loss_symmetric example_prediction example_target). reflexivity.
  - apply (proj2 mse_loss_symmetric example_floats example_floats'). reflexivity.
Defined.

Lemma mse_loss_broadcasts_witness :
  mse_loss example_prediction example_target1
  = Some (mkTensor []
            [ddiv (dsum (tabulate [1; 2; 2]
                           (fun idx =>
                              match idx with
                              | [b; t; k] =>
                                  let d := dsub (get example_prediction [b; t; k])
                                                (get example_target1 [b; t; 0]) in
                                  dmul d d
                              | _ => dzero
                              end)))
                  (dcount (numel [1; 2; 2]))]).
Proof.
  apply (@mse_loss_broadcasts R _ example_prediction example_target1 1 2 2).
  - reflexivity.
  - reflexivity.
Defined.

Lemma cross_entropy_of_softmax_witness :
  exists sf,
    softmax example_logits = Some sf /\
    cross_entropy example_logits example_labels
    = Some (mkTensor []
              [dsum (tabulate [1; 1]
                       (fun idx =>
                          match idx with
                          | [b; t] =>
                              (- ln (get sf [b; t; Z.to_nat (get example_labels [b; t])]))%R
                          | _ => 0%R
                          end))]).
Proof.
  apply (@cross_entropy_of_softmax example_logits example_labels 1 1 2).
  - reflexivity.
  - reflexivity.
  - intros b t Hb Ht. assert (b = 0) by lia. assert (t = 0) by lia. subst.
    vm_compute. split; [discriminate|reflexivity].
  - lia.
Defined.

Lemma cross_entropy_nonneg_witness :
  exists v,
    cross_entropy example_logits example_labels = Some (mkTensor [] [v]) /\
    (0 <= v)%R /\ (2 = 1 -> v = 0%R).
Proof.
  apply (@cross_entropy_nonneg example_logits example_labels 1 1 2).
  - reflexivity.
  - reflexivity.
  - intros b t Hb Ht. assert (b = 0) by lia. assert (t = 0) by lia. subst.
    vm_compute. split; [discriminate|reflexivity].
  - lia.
Defined.

Lemma cross_entropy_label_count_witness :
  (forall labels : Tensor Z,
     numel (shape labels) <> 1 * 2 ->
     cross_entropy example_scores labels = None) /\
  (forall labels labels' : Tensor Z,
     numel (shape labels) = numel (shape labels') -> data labels = data labels' ->
     cross_entropy example_scores labels = cross_entropy example_scores labels').
Proof.
  apply (@cross_entropy_label_count example_scores 1 2 2). reflexivity.
Defined.

Lemma softmax_positionwise_witness :
  exists sf sf',
    softmax example_scores = Some sf /\ softmax example_scores' = Some sf' /\
    forall c, c < 2 -> get sf [0; 0; c] = get sf' [0; 0; c].
Proof.
  apply (@softmax_positionwise example_scores example_scores' 1 2 2 0 0).
  - reflexivity.
  - reflexivity.
  - lia.
  - lia.
  - lia.
  - intros c Hc. destruct c as [|[|c]]; [reflexivity|reflexivity|lia].
Defined.

Lemma losses_accept_prediction_witness :
  exists prediction sf loss ce,
    value (y_hat (construct_ufcnn 1 2 1 2 2 (Some 0%Z)) example_feed)
    = Some prediction /\
    mse_loss prediction example_feed_target = Some (mkTensor [] [loss]) /\
    softmax prediction = Some sf /\
    shape sf = [1; 1; 2] /\
    cross_entropy prediction example_labels = Some (mkTensor [] [ce]).
Proof.
  apply (@losses_accept_prediction example_sampler_R 1 2 1 2 2 (Some 0%Z)
           example_feed example_feed_target example_labels 1 1).
  - reflexivity.
  - lia.
  - intros E. discriminate E.
  - lia.
  - reflexivity.
  - reflexivity.
  - intros b t Hb Ht. assert (b = 0) by lia. assert (t = 0) by lia. subst.
    vm_compute. split; [discriminate|reflexivity].
Defined.

